(** * Ray tracer core: intersection and acceleration subsystem

    A shallow embedding of [vec3.h], [ray.h], [utility.h], [aabb.h],
    [sphere.h], [moving_sphere.h], [constant_medium.h], [hittable_list.h]
    and [bvh.h].  A C++ [double] is a primitive binary64 float: every
    operation below rounds, overflows and produces NaN as IEEE 754
    arithmetic does when each operation is rounded on its own (no fused
    multiply-add, no extended precision).  Out-parameters
    ([hit_record& rec], [aabb& output_box]) are passed in and returned;
    the process-wide random generator and [std::cerr] are threaded
    through as a [world]. *)

From Stdlib Require Import ZArith List Bool Lia String Floats Permutation.
Import ListNotations.

Local Open Scope float_scope.
Set Warnings "-register-all".

(** ** What the program takes from its runtime *)

(** [acos], [atan2] and [log] come from the C library; [random_double]
    reads a [std::mt19937] through a [uniform_real_distribution]; a local
    [hit_record] is declared without initialiser, so its [double] and
    [bool] members hold whatever the stack held.  [hit] below is the run
    in which they hold [indeterminate_double] and [indeterminate_bool];
    [hit_runs] leaves them open, record by record. *)
Class Platform : Type := {
  libm_acos : float -> float;
  libm_atan2 : float -> float -> float;
  libm_log : float -> float;
  generator : nat -> float;
  indeterminate_double : float;
  indeterminate_bool : bool
}.

(** [std::cerr] and the position reached in the generator's sequence. *)
Record world : Type := mkWorld {
  rng_pos : nat;
  stderr : list string
}.

Definition cerr (msg : string) (w : world) : world :=
  mkWorld (rng_pos w) (stderr w ++ [msg]).

(** ** utility.h *)

Definition infinity : float := PrimFloat.infinity.

(** [3.1415926535897932385] as the compiler rounds it. *)
Definition pi : float := 0x1.921fb54442d18p+1.

(** [fmin] and [fmax] of [<cmath>]: a NaN argument is treated as missing
    data.  Which of two zeros of opposite sign comes back is left open by
    the C standard; here it is the first argument. *)
Definition fmin (x y : float) : float :=
  if is_nan x then y else if is_nan y then x else if y <? x then y else x.

Definition fmax (x y : float) : float :=
  if is_nan x then y else if is_nan y then x else if x <? y then y else x.

(** [static_cast<int>] of a [double]: truncation toward zero.  Outside the
    range of [int] (and for NaN) the conversion is undefined; the value
    given here is the one x86 produces. *)
Definition double_to_int (x : float) : Z :=
  match Prim2SF x with
  | S754_zero _ => 0%Z
  | S754_finite s m e =>
      let mag := if (0 <=? e)%Z then (Zpos m * 2 ^ e)%Z
                 else (Zpos m / 2 ^ (- e))%Z in
      let v := if s then (- mag)%Z else mag in
      if ((-2147483648 <=? v) && (v <=? 2147483647))%Z then v
      else (-2147483648)%Z
  | _ => (-2147483648)%Z
  end.

Definition int_to_double (n : Z) : float :=
  match n with
  | Z0 => 0
  | Zpos _ => of_uint63 (Uint63.of_Z n)
  | Zneg _ => - of_uint63 (Uint63.of_Z (- n))
  end.

Section Utility.
Context {P : Platform}.

Definition random_double (w : world) : float * world :=
  (generator (rng_pos w), mkWorld (S (rng_pos w)) (stderr w)).

Definition random_double_range (min max : float) (w : world)
  : float * world :=
  let (u, w1) := random_double w in
  (min + (max - min) * u, w1).

Definition random_int (min max : Z) (w : world) : Z * world :=
  let (x, w1) :=
    random_double_range (int_to_double min) (int_to_double (max + 1)) w in
  (double_to_int x, w1).
End Utility.

(** ** vec3.h *)

Record vec3 : Type := mkVec3 { e0 : float; e1 : float; e2 : float }.

Definition point3 := vec3.
Definition color := vec3.

Definition vec3_default : vec3 := mkVec3 0 0 0.

Definition x (v : vec3) : float := e0 v.
Definition y (v : vec3) : float := e1 v.
Definition z (v : vec3) : float := e2 v.

(** [operator[]]; every index the program uses is 0, 1 or 2. *)
Definition e (v : vec3) (i : Z) : float :=
  if (i =? 0)%Z then e0 v else if (i =? 1)%Z then e1 v else e2 v.

Definition vneg (v : vec3) : vec3 := mkVec3 (- e0 v) (- e1 v) (- e2 v).

Definition vadd (u v : vec3) : vec3 :=
  mkVec3 (e0 u + e0 v) (e1 u + e1 v) (e2 u + e2 v).

Definition vsub (u v : vec3) : vec3 :=
  mkVec3 (e0 u - e0 v) (e1 u - e1 v) (e2 u - e2 v).

Definition vscale (t : float) (v : vec3) : vec3 :=
  mkVec3 (t * e0 v) (t * e1 v) (t * e2 v).

(** [operator/(vec3, double)] multiplies by the reciprocal. *)
Definition vdiv (v : vec3) (t : float) : vec3 := vscale (1 / t) v.

Definition dot (u v : vec3) : float :=
  e0 u * e0 v + e1 u * e1 v + e2 u * e2 v.

Definition length_squared (v : vec3) : float :=
  e0 v * e0 v + e1 v * e1 v + e2 v * e2 v.

Definition length (v : vec3) : float := sqrt (length_squared v).

(** ** ray.h *)

Record ray : Type := mkRay { orig : point3; dir : vec3; tm : float }.

Definition origin (r : ray) : point3 := orig r.
Definition direction (r : ray) : vec3 := dir r.
Definition time (r : ray) : float := tm r.

Definition at_ (r : ray) (t : float) : point3 :=
  vadd (orig r) (vscale t (dir r)).

(** ** aabb.h *)

Record aabb : Type := mkAabb { minimum : point3; maximum : point3 }.

Definition aabb_default : aabb := mkAabb vec3_default vec3_default.

(** One turn of the loop of [aabb::hit]: the tightened interval. *)
Definition slab (b : aabb) (r : ray) (a : Z) (t_min t_max : float)
  : float * float :=
  let invD := 1 / e (direction r) a in
  let t0 := (e (minimum b) a - e (origin r) a) * invD in
  let t1 := (e (maximum b) a - e (origin r) a) * invD in
  let t0' := if invD <? 0 then t1 else t0 in
  let t1' := if invD <? 0 then t0 else t1 in
  (if t_min <? t0' then t0' else t_min,
   if t1' <? t_max then t1' else t_max).

(** The loop [for (a = 0; a < 3; a++)], with its early return. *)
Fixpoint aabb_hit_from (b : aabb) (r : ray) (axes : list Z)
  (t_min t_max : float) : bool :=
  match axes with
  | [] => true
  | a :: rest =>
      let (t_min', t_max') := slab b r a t_min t_max in
      if t_max' <=? t_min' then false
      else aabb_hit_from b r rest t_min' t_max'
  end.

Definition aabb_hit (b : aabb) (r : ray) (t_min t_max : float) : bool :=
  aabb_hit_from b r [0; 1; 2]%Z t_min t_max.

Definition surrounding_box (box0 box1 : aabb) : aabb :=
  let small := mkVec3 (fmin (x (minimum box0)) (x (minimum box1)))
                      (fmin (y (minimum box0)) (y (minimum box1)))
                      (fmin (z (minimum box0)) (z (minimum box1))) in
  let big := mkVec3 (fmax (x (maximum box0)) (x (maximum box1)))
                    (fmax (y (maximum box0)) (y (maximum box1)))
                    (fmax (z (maximum box0)) (z (maximum box1))) in
  mkAabb small big.

(** ** hittable.h, material.h *)

(** Modelled from the spec: [material.h] is not among the sources.  The
    spec (6) makes a material an opaque reference that this core attaches
    to a record and never inspects: a scene material is a handle, and
    [isotropic] is the phase function a [constant_medium] builds from a
    colour or from a texture handle. *)
Inductive material : Type :=
| scene_material (id : nat)
| isotropic (albedo : color)
| isotropic_texture (id : nat).

(** Modelled from the spec: [struct hit_record] is declared in
    [hittable.h], which is not among the sources.  The spec (3) lists its
    members; they carry the names the sources use ([rec.p], [rec.normal],
    [rec.mat_ptr], [rec.t], [rec.u], [rec.v], [rec.front_face]). *)
Record hit_record : Type := mkHit {
  p : point3;
  normal : vec3;
  mat_ptr : option material;
  t : float;
  u : float;
  v : float;
  front_face : bool
}.

Definition set_t (rec : hit_record) (t' : float) : hit_record :=
  mkHit (p rec) (normal rec) (mat_ptr rec) t' (u rec) (v rec) (front_face rec).

(** Modelled from the spec: [hit_record::set_face_normal] is declared in
    [hittable.h], which is not among the sources.  The spec (4.2) gives
    it: the dot product of the ray direction and the outward normal being
    negative means front face and the normal is kept, else it is negated. *)
Definition set_face_normal (rec : hit_record) (r : ray) (outward_normal : vec3)
  : hit_record :=
  let ff := dot (direction r) outward_normal <? 0 in
  mkHit (p rec) (if ff then outward_normal else vneg outward_normal)
        (mat_ptr rec) (t rec) (u rec) (v rec) ff.

(** The implementations of the abstract class [hittable] that the
    sources hold; the virtual calls [hit] and [bounding_box] dispatch on
    the constructor. *)
Inductive hittable : Type :=
| sphere (center : point3) (radius : float) (m : option material)
| moving_sphere (center0 center1 : point3) (time0 time1 radius : float)
                (m : option material)
| constant_medium (boundary : hittable) (phase_function : material)
                  (neg_inv_density : float)
| hittable_list (objects : list hittable)
| bvh_node (left right : hittable) (box : aabb).

(** The two constructors of [constant_medium]. *)
Definition new_constant_medium (b : hittable) (d : float) (c : color)
  : hittable :=
  constant_medium b (isotropic c) (- (1) / d).

Definition new_constant_medium_texture (b : hittable) (d : float) (a : nat)
  : hittable :=
  constant_medium b (isotropic_texture a) (- (1) / d).

Section Hit.
Context {P : Platform}.

(** A [hit_record] declared without initialiser: [p] and [normal] are
    zeroed by [vec3()], [mat_ptr] is null, and [t], [u], [v] and
    [front_face] hold anything. *)
Definition uninitialised (rec : hit_record) : Prop :=
  p rec = vec3_default /\ normal rec = vec3_default /\ mat_ptr rec = None.

(** The one of them that holds the platform's values. *)
Definition hit_record_default : hit_record :=
  mkHit vec3_default vec3_default None indeterminate_double
        indeterminate_double indeterminate_double indeterminate_bool.

(** *** sphere.h *)

Definition get_sphere_uv (q : point3) : float * float :=
  let theta := libm_acos (- y q) in
  let phi := libm_atan2 (- z q) (x q) + pi in
  (phi / (2 * pi), theta / pi).

(** The tail of [sphere::hit], once a root is accepted. *)
Definition sphere_accept (center : point3) (radius : float)
  (m : option material) (r : ray) (root : float) (rec : hit_record)
  : hit_record :=
  let rec1 := set_t rec root in
  let rec2 := mkHit (at_ r (t rec1)) (normal rec1) (mat_ptr rec1) (t rec1)
                    (u rec1) (v rec1) (front_face rec1) in
  let outward_normal := vdiv (vsub (p rec2) center) radius in
  let rec3 := set_face_normal rec2 r outward_normal in
  let (u', v') := get_sphere_uv outward_normal in
  mkHit (p rec3) (normal rec3) m (t rec3) u' v' (front_face rec3).

Definition sphere_hit (center : point3) (radius : float)
  (m : option material) (r : ray) (t_min t_max : float) (rec : hit_record)
  : bool * hit_record :=
  let oc := vsub (origin r) center in
  let a := length_squared (direction r) in
  let half_b := dot oc (direction r) in
  let c := length_squared oc - radius * radius in
  let discriminant := half_b * half_b - a * c in
  if discriminant <? 0 then (false, rec)
  else
    let sqrtd := sqrt discriminant in
    let root := (- half_b - sqrtd) / a in
    if (root <? t_min) || (t_max <? root) then
      let root := (- half_b + sqrtd) / a in
      if (root <? t_min) || (t_max <? root) then (false, rec)
      else (true, sphere_accept center radius m r root rec)
    else (true, sphere_accept center radius m r root rec).

Definition sphere_bounding_box (center : point3) (radius : float) : aabb :=
  mkAabb (vsub center (mkVec3 radius radius radius))
         (vadd center (mkVec3 radius radius radius)).

(** *** moving_sphere.h *)

Definition moving_center (center0 center1 : point3) (time0 time1 : float)
  (time : float) : point3 :=
  vadd center0
       (vscale ((time - time0) / (time1 - time0)) (vsub center1 center0)).

(** The tail of [moving_sphere::hit]: [u] and [v] are not written. *)
Definition moving_sphere_accept (c : point3) (radius : float)
  (m : option material) (r : ray) (root : float) (rec : hit_record)
  : hit_record :=
  let rec1 := set_t rec root in
  let rec2 := mkHit (at_ r (t rec1)) (normal rec1) (mat_ptr rec1) (t rec1)
                    (u rec1) (v rec1) (front_face rec1) in
  let outward_normal := vdiv (vsub (p rec2) c) radius in
  let rec3 := set_face_normal rec2 r outward_normal in
  mkHit (p rec3) (normal rec3) m (t rec3) (u rec3) (v rec3)
        (front_face rec3).

Definition moving_sphere_hit (center0 center1 : point3)
  (time0 time1 radius : float) (m : option material) (r : ray)
  (t_min t_max : float) (rec : hit_record) : bool * hit_record :=
  let center := moving_center center0 center1 time0 time1 in
  let oc := vsub (origin r) (center (time r)) in
  let a := length_squared (direction r) in
  let half_b := dot oc (direction r) in
  let c := length_squared oc - radius * radius in
  let discriminant := half_b * half_b - a * c in
  if discriminant <? 0 then (false, rec)
  else
    let sqrtd := sqrt discriminant in
    let root := (- half_b - sqrtd) / a in
    if (root <? t_min) || (t_max <? root) then
      let root := (- half_b + sqrtd) / a in
      if (root <? t_min) || (t_max <? root) then (false, rec)
      else (true, moving_sphere_accept (center (time r)) radius m r root rec)
    else (true, moving_sphere_accept (center (time r)) radius m r root rec).

Definition moving_sphere_bounding_box (center0 center1 : point3)
  (time0 time1 radius : float) (_time0 _time1 : float) : aabb :=
  let center := moving_center center0 center1 time0 time1 in
  let box0 := mkAabb (vsub (center _time0) (mkVec3 radius radius radius))
                     (vadd (center _time0) (mkVec3 radius radius radius)) in
  let box1 := mkAabb (vsub (center _time1) (mkVec3 radius radius radius))
                     (vadd (center _time1) (mkVec3 radius radius radius)) in
  surrounding_box box0 box1.

(** *** constant_medium.h *)

(** [constant_medium::hit] after the two boundary queries succeeded with
    parameters [t1] and [t2].  [enableDebug] is [false], so the
    short-circuit [&&] never reaches the generator for [debugging]. *)
Definition medium_sample (phase_function : material)
  (neg_inv_density : float) (r : ray) (t_min t_max : float)
  (t1 t2 : float) (rec : hit_record) (w : world)
  : (bool * hit_record) * world :=
  let t1 := if t1 <? t_min then t_min else t1 in
  let t2 := if t_max <? t2 then t_max else t2 in
  if t2 <=? t1 then ((false, rec), w)
  else
    let t1 := if t1 <? 0 then 0 else t1 in
    let ray_length := length (direction r) in
    let distance_inside_boundary := (t2 - t1) * ray_length in
    let (rnd, w') := random_double w in
    let hit_distance := neg_inv_density * libm_log rnd in
    if distance_inside_boundary <? hit_distance then ((false, rec), w')
    else
      let t' := t1 + hit_distance / ray_length in
      ((true, mkHit (at_ r t') (mkVec3 1 0 0) (Some phase_function) t'
                    (u rec) (v rec) true), w').

(** *** hittable_list.h *)

Section Scan.
Context {A : Type}.
Variable member_hit :
  A -> float -> hit_record -> world -> (bool * hit_record) * world.

(** The loop of [hittable_list::hit]; [member_hit o c] is
    [o->hit(r, t_min, c, _)]. *)
Fixpoint scan (objects : list A) (temp_rec : hit_record)
  (hit_anything : bool) (closest_so_far : float) (rec : hit_record)
  (w : world) : (bool * hit_record) * world :=
  match objects with
  | [] => ((hit_anything, rec), w)
  | object :: rest =>
      let '((ok, temp_rec'), w') :=
        member_hit object closest_so_far temp_rec w in
      if ok then scan rest temp_rec' true (t temp_rec') temp_rec' w'
      else scan rest temp_rec' hit_anything closest_so_far rec w'
  end.
End Scan.

(** *** Dispatch of the virtual [hit] *)

Fixpoint hit (h : hittable) (r : ray) (t_min t_max : float)
  (rec : hit_record) (w : world) {struct h}
  : (bool * hit_record) * world :=
  match h with
  | sphere center radius m =>
      (sphere_hit center radius m r t_min t_max rec, w)
  | moving_sphere center0 center1 time0 time1 radius m =>
      (moving_sphere_hit center0 center1 time0 time1 radius m r
                         t_min t_max rec, w)
  | constant_medium boundary phase_function neg_inv_density =>
      let '((ok1, rec1), w1) :=
        hit boundary r neg_infinity infinity hit_record_default w in
      if negb ok1 then ((false, rec), w1)
      else
        let '((ok2, rec2), w2) :=
          hit boundary r (t rec1 + 0x1.a36e2eb1c432dp-14) infinity
              hit_record_default w1 in
        if negb ok2 then ((false, rec), w2)
        else medium_sample phase_function neg_inv_density r t_min t_max
                           (t rec1) (t rec2) rec w2
  | hittable_list objects =>
      scan (fun o c => hit o r t_min c) objects hit_record_default
           false t_max rec w
  | bvh_node left_ right_ box =>
      if negb (aabb_hit box r t_min t_max) then ((false, rec), w)
      else
        let '((hit_left, rec1), w1) := hit left_ r t_min t_max rec w in
        let '((hit_right, rec2), w2) :=
          hit right_ r t_min (if hit_left then t rec1 else t_max) rec1 w1 in
        ((hit_left || hit_right, rec2), w2)
  end.

(** *** [hit] whatever the uninitialised records hold *)

Section Runs.
Context {A : Type}.
Variable member_runs :
  A -> float -> hit_record -> world -> (bool * hit_record) * world -> Prop.

(** The loop of [hittable_list::hit], each member ending as it can. *)
Fixpoint scan_runs (objects : list A) (temp_rec : hit_record)
  (hit_anything : bool) (closest_so_far : float) (rec : hit_record)
  (w : world) (res : (bool * hit_record) * world) : Prop :=
  match objects with
  | [] => res = ((hit_anything, rec), w)
  | object :: rest =>
      exists ok temp_rec' w',
        member_runs object closest_so_far temp_rec w ((ok, temp_rec'), w') /\
        if ok then scan_runs rest temp_rec' true (t temp_rec') temp_rec' w' res
        else scan_runs rest temp_rec' hit_anything closest_so_far rec w' res
  end.
End Runs.

(** [hit_runs h r t_min t_max rec w res]: the call
    [h->hit(r, t_min, t_max, rec)] made in the world [w] can end with
    [res].  It is [hit] with the content of each local record declared
    without initialiser ([temp_rec] in [hittable_list::hit], [rec1] and
    [rec2] in [constant_medium::hit]) left open. *)
Fixpoint hit_runs (h : hittable) (r : ray) (t_min t_max : float)
  (rec : hit_record) (w : world) (res : (bool * hit_record) * world)
  {struct h} : Prop :=
  match h with
  | sphere center radius m =>
      res = (sphere_hit center radius m r t_min t_max rec, w)
  | moving_sphere center0 center1 time0 time1 radius m =>
      res = (moving_sphere_hit center0 center1 time0 time1 radius m r
                               t_min t_max rec, w)
  | constant_medium boundary phase_function neg_inv_density =>
      exists rec1_0 ok1 rec1 w1,
        uninitialised rec1_0 /\
        hit_runs boundary r neg_infinity infinity rec1_0 w
                 ((ok1, rec1), w1) /\
        if negb ok1 then res = ((false, rec), w1)
        else
          exists rec2_0 ok2 rec2 w2,
            uninitialised rec2_0 /\
            hit_runs boundary r (t rec1 + 0x1.a36e2eb1c432dp-14) infinity
                     rec2_0 w1 ((ok2, rec2), w2) /\
            if negb ok2 then res = ((false, rec), w2)
            else res = medium_sample phase_function neg_inv_density r
                                     t_min t_max (t rec1) (t rec2) rec w2
  | hittable_list objects =>
      exists temp_rec,
        uninitialised temp_rec /\
        scan_runs (fun o c => hit_runs o r t_min c) objects temp_rec
                  false t_max rec w res
  | bvh_node left_ right_ box =>
      if negb (aabb_hit box r t_min t_max) then res = ((false, rec), w)
      else
        exists hit_left rec1 w1 hit_right rec2 w2,
          hit_runs left_ r t_min t_max rec w ((hit_left, rec1), w1) /\
          hit_runs right_ r t_min (if hit_left then t rec1 else t_max)
                   rec1 w1 ((hit_right, rec2), w2) /\
          res = ((hit_left || hit_right, rec2), w2)
  end.

(** *** Dispatch of the virtual [bounding_box] *)

Section Boxes.
Context {A : Type}.
Variable member_box : A -> aabb -> bool * aabb.

(** The loop of [hittable_list::bounding_box]. *)
Fixpoint merge_boxes (objects : list A) (temp_box : aabb)
  (first_box : bool) (output_box : aabb) : bool * aabb :=
  match objects with
  | [] => (true, output_box)
  | object :: rest =>
      let (ok, temp_box') := member_box object temp_box in
      if negb ok then (false, output_box)
      else
        merge_boxes rest temp_box' false
          (if first_box then temp_box'
           else surrounding_box output_box temp_box')
  end.
End Boxes.

Fixpoint bounding_box (h : hittable) (time0 time1 : float)
  (output_box : aabb) {struct h} : bool * aabb :=
  match h with
  | sphere center radius _ => (true, sphere_bounding_box center radius)
  | moving_sphere center0 center1 t0 t1 radius _ =>
      (true, moving_sphere_bounding_box center0 center1 t0 t1 radius
                                        time0 time1)
  | constant_medium boundary _ _ =>
      bounding_box boundary time0 time1 output_box
  | hittable_list objects =>
      match objects with
      | [] => (false, output_box)
      | _ =>
          merge_boxes (fun o b => bounding_box o time0 time1 b) objects
                      aabb_default true output_box
      end
  | bvh_node _ _ box => (true, box)
  end.
End Hit.

(** ** bvh.h *)

Definition no_box_message : string :=
  String.append "No bounding box in bvh_node constructor."
                (String (Ascii.ascii_of_nat 10) EmptyString).

(** [box_compare]: both boxes are asked for the times [(0, 0)]; the
    short-circuit [||] leaves [box_b] default-constructed when [a] has
    no box. *)
Definition box_compare (a b : hittable) (axis : Z) (w : world)
  : bool * world :=
  let (ok_a, box_a) := bounding_box a 0 0 aabb_default in
  let (failed, box_b) :=
    if negb ok_a then (true, aabb_default)
    else let (ok_b, bb) := bounding_box b 0 0 aabb_default in
         (negb ok_b, bb) in
  let w' := if failed then cerr no_box_message w else w in
  (e (minimum box_a) axis <? e (minimum box_b) axis, w').

Definition box_x_compare (a b : hittable) := box_compare a b 0.
Definition box_y_compare (a b : hittable) := box_compare a b 1.
Definition box_z_compare (a b : hittable) := box_compare a b 2.

(** [std::sort] with a comparator that may write to [std::cerr].  The
    standard leaves the algorithm open; an insertion sort stands for it.
    With a comparator that is not a strict weak ordering (members without
    a box, NaN coordinates) the call is undefined in C++; here it still
    returns a permutation. *)
Fixpoint sort_insert (comparator : hittable -> hittable -> world -> bool * world)
  (o : hittable) (sorted : list hittable) (w : world)
  : list hittable * world :=
  match sorted with
  | [] => ([o], w)
  | o' :: rest =>
      let (lt, w1) := comparator o o' w in
      if lt then (o :: sorted, w1)
      else let (rest', w2) := sort_insert comparator o rest w1 in
           (o' :: rest', w2)
  end.

Fixpoint std_sort (comparator : hittable -> hittable -> world -> bool * world)
  (objects : list hittable) (w : world) : list hittable * world :=
  match objects with
  | [] => ([], w)
  | o :: rest =>
      let (sorted, w1) := std_sort comparator rest w in
      sort_insert comparator o sorted w1
  end.

(** How a run of the recursive constructor ends. *)
Inductive construction (A : Type) : Type :=
| Built (a : A) (w : world)
| OutOfFuel
| Undefined.

Arguments Built {A} a w.
Arguments OutOfFuel {A}.
Arguments Undefined {A}.

Section Construction.
Context {P : Platform}.

(** The children of a node over [objects[start, end_)] of span 1 or 2. *)
Definition leaf_children
  (comparator : hittable -> hittable -> world -> bool * world)
  (objects : list hittable) (start object_span : nat) (w : world)
  : construction (hittable * hittable) :=
  if (object_span =? 1)%nat then
    match nth_error objects start with
    | Some o => Built (o, o) w
    | None => Undefined
    end
  else
    match nth_error objects start, nth_error objects (start + 1) with
    | Some o0, Some o1 =>
        let (lt, w1) := comparator o0 o1 w in
        if lt then Built (o0, o1) w1 else Built (o1, o0) w1
    | _, _ => Undefined
    end.

(** The end of the constructor: the node's box from its children's. *)
Definition finish_node (left_ right_ : hittable) (time0 time1 : float)
  (w : world) : hittable * world :=
  let (ok_left, box_left) := bounding_box left_ time0 time1 aabb_default in
  let (failed, box_right) :=
    if negb ok_left then (true, aabb_default)
    else let (ok_right, br) :=
           bounding_box right_ time0 time1 aabb_default in
         (negb ok_right, br) in
  let w' := if failed then cerr no_box_message w else w in
  (bvh_node left_ right_ (surrounding_box box_left box_right), w').

(** [bvh_node::bvh_node(src_objects, start, end, time0, time1)].  The
    recursion is on the span, so it runs on fuel.  [end - start] is
    unsigned: with [end < start] it wraps to a huge span and [std::sort]
    receives an invalid range; an index past the vector is as
    undefined. *)
Fixpoint bvh_node_ctor (fuel : nat) (src_objects : list hittable)
  (start end_ : nat) (time0 time1 : float) (w : world)
  : construction hittable :=
  match fuel with
  | O => OutOfFuel
  | S fuel' =>
      let objects := src_objects in
      let (axis, w0) := random_int 0 2 w in
      let comparator :=
        if (axis =? 0)%Z then box_x_compare
        else if (axis =? 1)%Z then box_y_compare
        else box_z_compare in
      if (end_ <? start)%nat then Undefined
      else
        let object_span := (end_ - start)%nat in
        let children :=
          if ((object_span =? 1) || (object_span =? 2))%nat then
            leaf_children comparator objects start object_span w0
          else if (List.length objects <? end_)%nat then Undefined
          else
            let (sorted, w1) :=
              std_sort comparator
                       (firstn object_span (skipn start objects)) w0 in
            let objects' :=
              firstn start objects ++ sorted ++ skipn end_ objects in
            let mid := (start + object_span / 2)%nat in
            match bvh_node_ctor fuel' objects' start mid time0 time1 w1 with
            | Built left_ w2 =>
                match
                  bvh_node_ctor fuel' objects' mid end_ time0 time1 w2
                with
                | Built right_ w3 => Built (left_, right_) w3
                | OutOfFuel => OutOfFuel
                | Undefined => Undefined
                end
            | OutOfFuel => OutOfFuel
            | Undefined => Undefined
            end in
        match children with
        | Built (left_, right_) w4 =>
            let (node, w5) := finish_node left_ right_ time0 time1 w4 in
            Built node w5
        | OutOfFuel => OutOfFuel
        | Undefined => Undefined
        end
  end.

(** [bvh_node(const hittable_list& list, time0, time1)]. *)
Definition new_bvh_node (fuel : nat) (objects : list hittable)
  (time0 time1 : float) (w : world) : construction hittable :=
  bvh_node_ctor fuel objects 0 (List.length objects) time0 time1 w.
End Construction.

(** ** Vocabulary of the properties *)

(** *** The order of [double] comparisons

    A number (anything but NaN) has a key; [<], [<=] and [==] on doubles
    compare keys lexicographically, and a comparison with NaN is false. *)
Definition sf_key (f : spec_float) : option (Z * Z * Z) :=
  match f with
  | S754_nan => None
  | S754_zero _ => Some (0, 0, 0)%Z
  | S754_infinity false => Some (2, 0, 0)%Z
  | S754_infinity true => Some (-2, 0, 0)%Z
  | S754_finite false m ex => Some (1, ex, Zpos m)%Z
  | S754_finite true m ex => Some (-1, - ex, Zneg m)%Z
  end.

Definition key_lt (k1 k2 : Z * Z * Z) : Prop :=
  (fst (fst k1) < fst (fst k2) \/
   (fst (fst k1) = fst (fst k2) /\
    (snd (fst k1) < snd (fst k2) \/
     (snd (fst k1) = snd (fst k2) /\ snd k1 < snd k2))))%Z.

Definition key_le (k1 k2 : Z * Z * Z) : Prop := key_lt k1 k2 \/ k1 = k2.

Definition order_of (c : option comparison) (k1 k2 : option (Z * Z * Z))
  : Prop :=
  match c with
  | None => k1 = None \/ k2 = None
  | Some Lt => exists a b, k1 = Some a /\ k2 = Some b /\ key_lt a b
  | Some Eq => exists a, k1 = Some a /\ k2 = Some a
  | Some Gt => exists a b, k1 = Some a /\ k2 = Some b /\ key_lt b a
  end.

Definition fkey (a : float) : option (Z * Z * Z) := sf_key (Prim2SF a).

(** *** Sphere intersection in the words of the spec (4.2) *)

(** [a = |D|^2], [halfB = D.(O-C)], [c = |O-C|^2 - r^2]; the discriminant
    and the two roots, smaller first. *)
Definition quadratic (center : point3) (radius : float) (r : ray)
  : float * float * float :=
  let a := length_squared (direction r) in
  let halfB := dot (direction r) (vsub (origin r) center) in
  let c := length_squared (vsub (origin r) center) - radius * radius in
  let discriminant := halfB * halfB - a * c in
  let sqrtDiscriminant := sqrt discriminant in
  (discriminant,
   (- halfB - sqrtDiscriminant) / a,
   (- halfB + sqrtDiscriminant) / a).

(** [root] lies in [[t_min, t_max]]. *)
Definition lies_in (t_min t_max root : float) : bool :=
  (t_min <=? root) && (root <=? t_max).

(** On acceptance: the point [P(t)], the outward normal [(P - C)/r]
    turned against the ray, and [(u, v)] from [theta = acos(-normal.y)]
    and [phi = atan2(-normal.z, normal.x) + pi]. *)
Definition sphere_record_spec {P : Platform} (center : point3)
  (radius : float) (m : option material) (r : ray) (root : float)
  : hit_record :=
  let point := at_ r root in
  let outward := vdiv (vsub point center) radius in
  let front := dot (direction r) outward <? 0 in
  let theta := libm_acos (- y outward) in
  let phi := libm_atan2 (- z outward) (x outward) + pi in
  mkHit point (if front then outward else vneg outward) m root
        (phi / (2 * pi)) (theta / pi) front.

(** No hit with a negative discriminant; else the smaller root if it lies
    in the interval, else the larger one if it does, else no hit. *)
Definition sphere_hit_spec {P : Platform} (center : point3) (radius : float)
  (m : option material) (r : ray) (t_min t_max : float)
  : option hit_record :=
  let '(discriminant, smaller, larger) := quadratic center radius r in
  if discriminant <? 0 then None
  else if lies_in t_min t_max smaller then
    Some (sphere_record_spec center radius m r smaller)
  else if lies_in t_min t_max larger then
    Some (sphere_record_spec center radius m r larger)
  else None.

(** *** The root test of the sources *)

(** [root < t_min || t_max < root], as [sphere::hit] and
    [moving_sphere::hit] write it. *)
Definition outside (t_min t_max root : float) : bool :=
  (root <? t_min) || (t_max <? root).

(** *** Which hittables a property speaks of *)

Fixpoint medium_free (h : hittable) : bool :=
  match h with
  | sphere _ _ _ => true
  | moving_sphere _ _ _ _ _ _ => true
  | constant_medium _ _ _ => false
  | hittable_list objects => forallb medium_free objects
  | bvh_node left_ right_ _ => medium_free left_ && medium_free right_
  end.

(** No moving sphere and no medium: every object that answers writes
    the whole record. *)
Fixpoint writes_all (h : hittable) : bool :=
  match h with
  | sphere _ _ _ => true
  | moving_sphere _ _ _ _ _ _ => false
  | constant_medium _ _ _ => false
  | hittable_list objects => forallb writes_all objects
  | bvh_node left_ right_ _ => writes_all left_ && writes_all right_
  end.

(** The objects that write the record of a hit: spheres, moving spheres
    and media. *)
Fixpoint sources (h : hittable) : list hittable :=
  match h with
  | hittable_list objects => flat_map sources objects
  | bvh_node left_ right_ _ => sources left_ ++ sources right_
  | _ => [h]
  end.

(** The quadratic a sphere or moving sphere solves for the ray. *)
Definition primitive_quadratic (h : hittable) (r : ray)
  : option (float * float * float) :=
  match h with
  | sphere center radius _ => Some (quadratic center radius r)
  | moving_sphere center0 center1 time0 time1 radius _ =>
      Some (quadratic (moving_center center0 center1 time0 time1 (time r))
                      radius r)
  | _ => None
  end.

(** The ray misses, or the two roots are numbers, the smaller-root
    expression not above the larger-root one. *)
Definition ordered (q : float * float * float) : bool :=
  let '(discriminant, smaller, larger) := q in
  (discriminant <? 0) || (smaller <=? larger).

(** The ray misses, or the two roots are numbers. *)
Definition numeric (q : float * float * float) : bool :=
  let '(discriminant, smaller, larger) := q in
  (discriminant <? 0) || (negb (is_nan smaller) && negb (is_nan larger)).

(** A sphere or moving sphere whose quadratic for the ray is [ordered]. *)
Definition ordered_roots (r : ray) (h : hittable) : bool :=
  match primitive_quadratic h r with
  | Some q => ordered q
  | None => false
  end.

(** No [constant_medium], and the quadratic of every sphere met is
    [numeric]. *)
Fixpoint numeric_roots (r : ray) (h : hittable) : bool :=
  match h with
  | constant_medium _ _ _ => false
  | hittable_list objects => forallb (numeric_roots r) objects
  | bvh_node left_ right_ _ => numeric_roots r left_ && numeric_roots r right_
  | _ =>
      match primitive_quadratic h r with
      | Some q => numeric q
      | None => false
      end
  end.

(** The answer of a query as a caller reads it: the parameter of the
    hit, if any. *)
Definition hit_param {P : Platform} (h : hittable) (r : ray)
  (t_min t_max : float) : option float :=
  let '((ok, rec), _) :=
    hit h r t_min t_max hit_record_default (mkWorld 0 []) in
  if ok then Some (t rec) else None.

(** The root a sphere accepts over an interval, from its quadratic. *)
Definition accepted_root (q : float * float * float) (t_min t_max : float)
  : option float :=
  let '(discriminant, smaller, larger) := q in
  if discriminant <? 0 then None
  else if negb (outside t_min t_max smaller) then Some smaller
  else if negb (outside t_min t_max larger) then Some larger
  else None.

(** The upper end of the interval once an answer is in hand. *)
Definition upper_bound (o : option float) (t_max : float) : float :=
  match o with
  | Some tl => tl
  | None => t_max
  end.

(** The linear scan as a caller reads it: each member is asked over the
    interval that ends at the answer in hand, and its answer, if any,
    replaces it. *)
Definition sweep_step {P : Platform} (r : ray) (t_min t_max : float)
  (o : option float) (m : hittable) : option float :=
  match hit_param m r t_min (upper_bound o t_max) with
  | Some tm => Some tm
  | None => o
  end.

Definition sweep {P : Platform} (objects : list hittable) (r : ray)
  (t_min t_max : float) (o : option float) : option float :=
  fold_left (sweep_step r t_min t_max) objects o.

(** [o] is the nearest of the members' own answers over the interval. *)
Definition nearest_of {P : Platform} (objects : list hittable) (r : ray)
  (t_min t_max : float) (o : option float) : Prop :=
  match o with
  | None => forall m, In m objects -> hit_param m r t_min t_max = None
  | Some best =>
      (exists m, In m objects /\ hit_param m r t_min t_max = Some best) /\
      (forall m tm, In m objects -> hit_param m r t_min t_max = Some tm ->
                    (best <=? tm) = true)
  end.

(** Two answers are the same: both misses, or hits with equal parameters. *)
Definition same_answer (o1 o2 : option float) : Prop :=
  match o1, o2 with
  | None, None => True
  | Some t1, Some t2 => (t1 =? t2) = true
  | _, _ => False
  end.

(** The objects at the leaves of a tree of [bvh_node]s, left to right. *)
Fixpoint leaves (h : hittable) : list hittable :=
  match h with
  | bvh_node left_ right_ _ => leaves left_ ++ leaves right_
  | _ => [h]
  end.

Definition misses {P : Platform} (r : ray) (t_min t_max : float)
  (m : hittable) : bool :=
  match hit_param m r t_min t_max with
  | None => true
  | Some _ => false
  end.

(** Along the traversal of [bvh_node::hit], a box test that rejects the
    ray rejects it rightly: no object below answers in the interval the
    node was asked for. *)
Fixpoint boxes_sound {P : Platform} (r : ray) (t_min t_max : float)
  (h : hittable) : bool :=
  match h with
  | bvh_node left_ right_ box =>
      if aabb_hit box r t_min t_max then
        boxes_sound r t_min t_max left_ &&
        boxes_sound r t_min
          (match hit_param left_ r t_min t_max with
           | Some tl => tl
           | None => t_max
           end) right_
      else forallb (misses r t_min t_max) (leaves left_ ++ leaves right_)
  | _ => true
  end.

(** A tree with the boxes of its [bvh_node]s forgotten. *)
Fixpoint strip_boxes (h : hittable) : hittable :=
  match h with
  | bvh_node left_ right_ _ =>
      bvh_node (strip_boxes left_) (strip_boxes right_) aabb_default
  | _ => h
  end.

(** The outcome of a construction with the boxes of the tree forgotten. *)
Definition stripped (c : construction hittable) : construction hittable :=
  match c with
  | Built node w => Built (strip_boxes node) w
  | OutOfFuel => OutOfFuel
  | Undefined => Undefined
  end.

(** Two runs of the same query agree on hit or miss and on the
    parameter, and neither touches the world. *)
Definition agree (res1 res2 : (bool * hit_record) * world)
  (rec1 rec2 : hit_record) (w1 w2 : world) : Prop :=
  fst (fst res1) = fst (fst res2) /\
  snd res1 = w1 /\ snd res2 = w2 /\
  (fst (fst res1) = true -> t (snd (fst res1)) = t (snd (fst res2))) /\
  (fst (fst res1) = false ->
   snd (fst res1) = rec1 /\ snd (fst res2) = rec2).

(** *** Records *)

(** Two records with the same point, normal, material, parameter and
    [front_face]. *)
Definition same_but_uv (rec1 rec2 : hit_record) : Prop :=
  p rec1 = p rec2 /\ normal rec1 = normal rec2 /\
  mat_ptr rec1 = mat_ptr rec2 /\ t rec1 = t rec2 /\
  front_face rec1 = front_face rec2.

(** What two runs of one query have in common, whatever records and
    worlds they start from; [full] says whether a hit writes the whole
    record. *)
Definition alike (full : bool) (rec1 rec2 : hit_record)
  (w1 w2 : world) (res1 res2 : (bool * hit_record) * world) : Prop :=
  snd res1 = w1 /\ snd res2 = w2 /\
  fst (fst res1) = fst (fst res2) /\
  (fst (fst res1) = true ->
   same_but_uv (snd (fst res1)) (snd (fst res2)) /\
   (full = true -> snd (fst res1) = snd (fst res2))) /\
  (fst (fst res1) = false ->
   snd (fst res1) = rec1 /\ snd (fst res2) = rec2).

(** What two runs of one query from the same world have in common. *)
Definition same_run (rec1 rec2 : hit_record)
  (res1 res2 : (bool * hit_record) * world) : Prop :=
  snd res1 = snd res2 /\
  fst (fst res1) = fst (fst res2) /\
  (fst (fst res1) = true -> same_but_uv (snd (fst res1)) (snd (fst res2))) /\
  (fst (fst res1) = false ->
   snd (fst res1) = rec1 /\ snd (fst res2) = rec2).

(** What the spec (3, 4.2) asks of the record of a hit on a sphere of
    centre [center] and radius [radius], the length of the normal apart:
    [front_face] exactly when the ray direction and the outward normal
    [(p - center) / radius] have a negative dot product, the normal kept
    then and negated otherwise, so that it never points along the ray. *)
Definition faces_the_ray (center : point3) (radius : float) (r : ray)
  (rec : hit_record) : Prop :=
  let outward_normal := vdiv (vsub (p rec) center) radius in
  (front_face rec = true <->
   (dot (direction r) outward_normal <? 0) = true) /\
  normal rec =
  (if front_face rec then outward_normal else vneg outward_normal) /\
  (0 <? dot (direction r) (normal rec)) = false.

(** What the record of a hit holds, by the object that wrote it. *)
Definition record_rule (r : ray) (m : hittable) (rec : hit_record) : Prop :=
  match m with
  | sphere center radius _ => faces_the_ray center radius r rec
  | moving_sphere center0 center1 time0 time1 radius _ =>
      faces_the_ray (moving_center center0 center1 time0 time1 (time r))
                    radius r rec
  | constant_medium _ _ _ =>
      normal rec = mkVec3 1 0 0 /\ length (normal rec) = 1 /\
      front_face rec = true
  | _ => False
  end.

(** *** Boxes as sets of points *)

Definition between (lo q hi : float) : Prop :=
  (lo <=? q) = true /\ (q <=? hi) = true.

Definition inside (q : point3) (b : aabb) : Prop :=
  between (x (minimum b)) (x q) (x (maximum b)) /\
  between (y (minimum b)) (y q) (y (maximum b)) /\
  between (z (minimum b)) (z q) (z (maximum b)).

Definition contains (outer inner : aabb) : Prop :=
  forall q, inside q inner -> inside q outer.

(** The box a member reports on its own, if any. *)
Definition box_of (h : hittable) (time0 time1 : float) : option aabb :=
  let (ok, b) := bounding_box h time0 time1 aabb_default in
  if ok then Some b else None.

(** What [bounding_box] answers does not depend on what the caller's box
    held; only a failure leaves that content (or part of the work) in it. *)
Definition box_answer (h : hittable) (time0 time1 : float) : Prop :=
  forall b,
    fst (bounding_box h time0 time1 b) =
    match box_of h time0 time1 with Some _ => true | None => false end /\
    (forall bx, box_of h time0 time1 = Some bx ->
                snd (bounding_box h time0 time1 b) = bx).

(** The fold of [surrounding_box] over a list of boxes. *)
Definition union_of (boxes : list aabb) : option aabb :=
  match boxes with
  | [] => None
  | b :: rest => Some (fold_left surrounding_box rest b)
  end.

(** [m] is the least of the numbers of [l]: one of its elements, and not
    above any that is a number. *)
Definition least_of (l : list float) (m : float) : Prop :=
  In m l /\ forall q, In q l -> is_nan q = false -> (m <=? q) = true.

Definition greatest_of (l : list float) (m : float) : Prop :=
  In m l /\ forall q, In q l -> is_nan q = false -> (q <=? m) = true.

(** The componentwise minimum of the minimums and maximum of the
    maximums: on each axis the minimum of [b] is the least of the boxes'
    minimums, its maximum the greatest of their maximums. *)
Definition componentwise_bounds (boxes : list aabb) (b : aabb) : Prop :=
  forall a, In a [0; 1; 2]%Z ->
    least_of (map (fun bx => e (minimum bx) a) boxes) (e (minimum b) a) /\
    greatest_of (map (fun bx => e (maximum bx) a) boxes) (e (maximum b) a).

(** *** The slab test in the words of the spec (4.1) *)

(** [t0] and [t1] from the two planes of axis [a], swapped when [invD]
    is negative. *)
Definition plane_crossings (b : aabb) (r : ray) (a : Z) : float * float :=
  let invD := 1 / e (direction r) a in
  let t0 := (e (minimum b) a - e (origin r) a) * invD in
  let t1 := (e (maximum b) a - e (origin r) a) * invD in
  if invD <? 0 then (t1, t0) else (t0, t1).

(** [tMin := max(tMin, t0)] and [tMax := min(tMax, t1)] over the listed
    axes, with no early exit; max and min are [fmax] and [fmin]. *)
Fixpoint tightened (b : aabb) (r : ray) (axes : list Z)
  (t_min t_max : float) : float * float :=
  match axes with
  | [] => (t_min, t_max)
  | a :: rest =>
      let (t0, t1) := plane_crossings b r a in
      tightened b r rest (fmax t_min t0) (fmin t_max t1)
  end.

(** After the first [n] axes the interval is empty: [tMax <= tMin]. *)
Definition axis_fails (b : aabb) (r : ray) (t_min t_max : float) (n : nat)
  : bool :=
  let (lo, hi) := tightened b r (firstn n [0; 1; 2]%Z) t_min t_max in
  hi <=? lo.

(** ** Worked scenes *)

(** A platform for the worked scenes: the C library's results at the
    arguments those scenes reach ([acos(0)], [atan2(+-1, 0)] and the
    logarithms of 0.5, 0.125, 0.75 and 0.25; NaN stands for what is not
    tabulated), a generator that yields 0.5, 0.125, 0.75 and then 0.25
    for ever, and zeroed stack memory. *)
Definition example_acos (a : float) : float :=
  if a =? 0 then 0x1.921fb54442d18p+0 else nan.

Definition example_atan2 (b a : float) : float :=
  if a =? 0 then
    if 0 <? b then 0x1.921fb54442d18p+0
    else if b <? 0 then -0x1.921fb54442d18p+0 else nan
  else nan.

Definition example_log (a : float) : float :=
  if a =? 0.5 then -0x1.62e42fefa39efp-1
  else if a =? 0.125 then -0x1.0a2b23f3bab73p+1
  else if a =? 0.75 then -0x1.269621134db92p-2
  else if a =? 0.25 then -0x1.62e42fefa39efp+0
  else nan.

Definition example_generator (n : nat) : float :=
  match n with
  | 0%nat => 0.5
  | 1%nat => 0.125
  | 2%nat => 0.75
  | _ => 0.25
  end.

Definition example_platform : Platform := {|
  libm_acos := example_acos;
  libm_atan2 := example_atan2;
  libm_log := example_log;
  generator := example_generator;
  indeterminate_double := 0;
  indeterminate_bool := false
|}.

Definition start_world : world := mkWorld 0 [].

Definition white : color := mkVec3 1 1 1.

(** Scenario 1: the unit sphere at the origin and a ray toward it. *)
Definition unit_sphere : hittable := sphere (mkVec3 0 0 0) 1 None.
Definition ray_z : ray := mkRay (mkVec3 0 0 (-5)) (mkVec3 0 0 1) 0.

(** A ray that goes nowhere: its direction is the zero vector. *)
Definition still_ray : ray := mkRay (mkVec3 0 0 (-5)) (mkVec3 0 0 0) 0.

(** Scenario 5: five unit spheres along the x axis, in no order. *)
Definition ball (cx : float) (id : nat) : hittable :=
  sphere (mkVec3 cx 0 0) 1 (Some (scene_material id)).

Definition five_spheres : list hittable :=
  [ball 6 4; ball (-3) 1; ball 0 2; ball (-6) 0; ball 3 3].

(** Two unit spheres touching at [(0, 0, -1)] and a ray through that
    point, tangent to both. *)
Definition tangent_a : hittable :=
  sphere (mkVec3 0 0 0) 1 (Some (scene_material 1)).
Definition tangent_b : hittable :=
  sphere (mkVec3 0 0 (-2)) 1 (Some (scene_material 2)).
Definition grazing_ray : ray := mkRay (mkVec3 (-5) 0 (-1)) (mkVec3 1 0 0) 0.

(** Fog of density 1 filling the unit sphere, and the same fog three
    units further along the z axis. *)
Definition fog : hittable := new_constant_medium unit_sphere 1 white.
Definition far_fog : hittable :=
  new_constant_medium (sphere (mkVec3 0 0 3) 1 None) 1 white.

(** Fog of density [0x1.62e42fefa39ecp-1] (about 0.693) filling a sphere
    of radius 2, a ray from its centre, and an interval ending one unit
    away; [fog_t_min] is [1.5 * 2^-52] and [fog_t_max] is [1 + 3 * 2^-52]. *)
Definition thick_fog : hittable :=
  new_constant_medium (sphere (mkVec3 0 0 0) 2 None)
                      0x1.62e42fefa39ecp-1 white.
Definition inner_ray : ray := mkRay (mkVec3 0 0 0) (mkVec3 0 0 1) 0.
Definition fog_t_min : float := 0x1.8p-52.
Definition fog_t_max : float := 0x1.0000000000003p+0.

(** A list whose second member, an empty list, has no box. *)
Definition holed : hittable :=
  hittable_list [sphere (mkVec3 5 0 0) 1 None; hittable_list []].

(** A sphere moving from the origin to [(10, 0, 0)] over the times 0 to 1,
    and a sphere at rest at [(5, 0, 0)]. *)
Definition runner : hittable :=
  moving_sphere (mkVec3 0 0 0) (mkVec3 10 0 0) 0 1 1 None.
Definition post : hittable := sphere (mkVec3 5 0 0) 1 None.

(** A moving sphere that stays at the origin. *)
Definition idle : hittable :=
  moving_sphere (mkVec3 0 0 0) (mkVec3 0 0 0) 0 1 1 None.

(** The ray of scenario 1 started [2^27] units away from the unit sphere. *)
Definition far_ray : ray :=
  mkRay (mkVec3 0 0 (-134217728)) (mkVec3 0 0 1) 0.

(** A ray parallel to the x axis at [y = 1 + 2^-52], just above the top
    of the unit sphere and of its box. *)
Definition skimming_ray : ray :=
  mkRay (mkVec3 (-5) 0x1.0000000000001p+0 0) (mkVec3 1 0 0) 0.

(** Scenario 2: the box of the unit sphere, and a ray that passes it by. *)
Definition unit_box : aabb := mkAabb (mkVec3 (-1) (-1) (-1)) (mkVec3 1 1 1).
Definition passing_ray : ray := mkRay (mkVec3 3 0 (-5)) (mkVec3 0 0 1) 0.

(** ** The rest of the sources *)

(** *** utility.h *)

Definition degrees_to_radians (degrees : float) : float :=
  degrees * pi / 180.

Definition clamp (x min max : float) : float :=
  if x <? min then min else if max <? x then max else x.

(** *** vec3.h *)

Definition cross (u v : vec3) : vec3 :=
  mkVec3 (e1 u * e2 v - e2 u * e1 v)
         (e2 u * e0 v - e0 u * e2 v)
         (e0 u * e1 v - e1 u * e0 v).

Definition unit_vector (v : vec3) : vec3 := vdiv v (length v).

Section Sampling.
Context {P : Platform}.

(** [vec3::random(min, max)].  C++ leaves the order of the three calls
    open; they are taken left to right. *)
Definition vec3_random (min max : float) (w : world) : vec3 * world :=
  let (a, w1) := random_double_range min max w in
  let (b, w2) := random_double_range min max w1 in
  let (c, w3) := random_double_range min max w2 in
  (mkVec3 a b c, w3).

(** The loop [while (true)] runs on fuel. *)
Fixpoint random_in_unit_sphere (fuel : nat) (w : world)
  : construction vec3 :=
  match fuel with
  | O => OutOfFuel
  | S fuel' =>
      let (p, w1) := vec3_random (-1) 1 w in
      if 1 <=? length_squared p then random_in_unit_sphere fuel' w1
      else Built p w1
  end.

Definition random_unit_vector (fuel : nat) (w : world)
  : construction vec3 :=
  match random_in_unit_sphere fuel w with
  | Built p w1 => Built (unit_vector p) w1
  | OutOfFuel => OutOfFuel
  | Undefined => Undefined
  end.

Definition random_in_hemisphere (fuel : nat) (normal : vec3) (w : world)
  : construction vec3 :=
  match random_in_unit_sphere fuel w with
  | Built in_unit_sphere w1 =>
      if 0 <? dot in_unit_sphere normal then Built in_unit_sphere w1
      else Built (vneg in_unit_sphere) w1
  | OutOfFuel => OutOfFuel
  | Undefined => Undefined
  end.

(** The two calls of [random_in_unit_disk] are taken left to right. *)
Fixpoint random_in_unit_disk (fuel : nat) (w : world) : construction vec3 :=
  match fuel with
  | O => OutOfFuel
  | S fuel' =>
      let (a, w1) := random_double_range (-1) 1 w in
      let (b, w2) := random_double_range (-1) 1 w1 in
      let p := mkVec3 a b 0 in
      if 1 <=? length_squared p then random_in_unit_disk fuel' w2
      else Built p w2
  end.
End Sampling.

(** *** hittable_list.h *)

(** [add] appends to the vector [objects]. *)
Definition hittable_list_add (objects : list hittable) (object : hittable)
  : list hittable :=
  objects ++ [object].

(** *** camera.h *)

(** [tan] comes from the C library. *)
Class Trigonometry : Type := {
  libm_tan : float -> float
}.

(** The members [origin], [u], [v], [w], [time0] and [time1] carry the
    prefix [cam_]. *)
Record camera : Type := mkCamera {
  cam_origin : point3;
  lower_left_corner : point3;
  horizontal : vec3;
  vertical : vec3;
  cam_u : vec3;
  cam_v : vec3;
  cam_w : vec3;
  lens_radius : float;
  cam_time0 : float;
  cam_time1 : float
}.

Definition new_camera {T : Trigonometry} (lookfrom lookat : point3)
  (vup : vec3) (vfov aspect_ratio aperture focus_dist : float)
  (_time0 _time1 : float) : camera :=
  let theta := degrees_to_radians vfov in
  let h := libm_tan (theta / 2) in
  let viewport_height := 2 * h in
  let viewport_width := aspect_ratio * viewport_height in
  let w := unit_vector (vsub lookfrom lookat) in
  let u := unit_vector (cross vup w) in
  let v := cross w u in
  let origin := lookfrom in
  let horizontal := vscale (focus_dist * viewport_width) u in
  let vertical := vscale (focus_dist * viewport_height) v in
  let lower_left_corner :=
    vsub (vsub (vsub origin (vdiv horizontal 2)) (vdiv vertical 2))
         (vscale focus_dist w) in
  mkCamera origin lower_left_corner horizontal vertical u v w
           (aperture / 2) _time0 _time1.

Definition get_ray {P : Platform} (fuel : nat) (c : camera) (s t : float)
  (w : world) : construction ray :=
  match random_in_unit_disk fuel w with
  | Built q w1 =>
      let rd := vscale (lens_radius c) q in
      let offset :=
        vadd (vscale (x rd) (cam_u c)) (vscale (y rd) (cam_v c)) in
      let (tm', w2) :=
        random_double_range (cam_time0 c) (cam_time1 c) w1 in
      Built (mkRay (vadd (cam_origin c) offset)
                   (vsub (vsub (vadd (vadd (lower_left_corner c)
                                           (vscale s (horizontal c)))
                                     (vscale t (vertical c)))
                               (cam_origin c))
                         offset)
                   tm') w2
  | OutOfFuel => OutOfFuel
  | Undefined => Undefined
  end.

(** ** More vocabulary *)

(** Whether [bounding_box] succeeds, read off the shape of the object:
    a sphere, a moving sphere and a [bvh_node] always have a box, a medium
    has its boundary's, a list has one when it is not empty and every
    member has one. *)
Fixpoint boxed (h : hittable) : bool :=
  match h with
  | sphere _ _ _ => true
  | moving_sphere _ _ _ _ _ _ => true
  | constant_medium boundary _ _ => boxed boundary
  | hittable_list objects =>
      match objects with
      | [] => false
      | _ => forallb boxed objects
      end
  | bvh_node _ _ _ => true
  end.

(** The comparator the constructor picks for an axis. *)
Definition axis_comparator (axis : Z)
  : hittable -> hittable -> world -> bool * world :=
  if (axis =? 0)%Z then box_x_compare
  else if (axis =? 1)%Z then box_y_compare
  else box_z_compare.

(** Every box of the tree contains the boxes of the two children, over
    the window the tree was built for. *)
Fixpoint enclosed (time0 time1 : float) (h : hittable) : Prop :=
  match h with
  | bvh_node left_ right_ box =>
      (forall bx, box_of left_ time0 time1 = Some bx -> contains box bx) /\
      (forall bx, box_of right_ time0 time1 = Some bx -> contains box bx) /\
      enclosed time0 time1 left_ /\ enclosed time0 time1 right_
  | _ => True
  end.

(** No [bvh_node] within. *)
Fixpoint bvh_free (h : hittable) : bool :=
  match h with
  | sphere _ _ _ => true
  | moving_sphere _ _ _ _ _ _ => true
  | constant_medium boundary _ _ => bvh_free boundary
  | hittable_list objects => forallb bvh_free objects
  | bvh_node _ _ _ => false
  end.



(** Plus infinity or NaN. *)
Definition overflown (x : float) : bool := is_nan x || (x =? infinity).

(** The sign bit of a double; NaN counts as having none. *)
Definition sign_bit (x : float) : bool :=
  match Prim2SF x with
  | S754_zero s | S754_infinity s | S754_finite s _ _ => s
  | S754_nan => false
  end.

(** Every coordinate is finite. *)
Definition finite_vec (v : vec3) : bool :=
  is_finite (e0 v) && is_finite (e1 v) && is_finite (e2 v).

(** The same double, or two zeros. *)
Definition same_number (a b : float) : Prop :=
  a = b \/ ((a =? 0) = true /\ (b =? 0) = true).

(** The world after [k] candidates of three draws each, and the
    candidate [random_in_unit_sphere] draws next. *)
Definition after_candidates (k : nat) (w : world) : world :=
  mkWorld (rng_pos w + 3 * k) (stderr w).

Definition candidate {P : Platform} (k : nat) (w : world) : vec3 :=
  fst (vec3_random (-1) 1 (after_candidates k w)).

(** ** More worked scenes *)

(** [tan] at the one argument the worked camera reaches, a field of view
    of 90 degrees. *)
Definition example_tan (a : float) : float :=
  if a =? 0x1.921fb54442d18p-1 then 0x1.fffffffffffffp-1 else nan.

Definition example_trigonometry : Trigonometry := {|
  libm_tan := example_tan
|}.

(** A sphere whose radius is NaN, and a moving sphere whose two times are
    both 0. *)
Definition lost_sphere : hittable := sphere (mkVec3 0 0 0) nan None.
Definition frozen_sphere : hittable :=
  moving_sphere (mkVec3 0 0 0) (mkVec3 10 0 0) 0 0 1 None.

(** A vector so short that its squared length underflows to zero. *)
Definition tiny : vec3 := mkVec3 0x1p-600 0 0.

(** A list of three of the five spheres within a list. *)
Definition inner_three : list hittable := [ball (-3) 1; ball 0 2; ball (-6) 0].

(** * Properties *)

(** ** Doubles *)

(** Exhibits the keys that [order_of] asks for. *)
Ltac show_keys :=
  first
    [ eexists; split; reflexivity
    | do 2 eexists; split;
      [reflexivity | split; [reflexivity | unfold key_lt; simpl; lia]] ].

Lemma SFcompare_key f1 f2 :
  order_of (SFcompare f1 f2) (sf_key f1) (sf_key f2).
Proof.
  destruct f1 as [s1|s1| |s1 m1 ex1], f2 as [s2|s2| |s2 m2 ex2];
    try destruct s1; try destruct s2; simpl; auto; try show_keys.
  - destruct (Z.compare_spec ex1 ex2) as [E|E|E]; try show_keys.
    subst. rewrite Pos.compare_cont_spec. simpl.
    destruct (Pos.compare_spec m1 m2) as [M|M|M]; simpl; subst; show_keys.
  - destruct (Z.compare_spec ex1 ex2) as [E|E|E]; try show_keys.
    subst. rewrite Pos.compare_cont_spec. simpl.
    destruct (Pos.compare_spec m1 m2) as [M|M|M]; simpl; subst; show_keys.
Qed.

(** Closes a goal whose hypotheses give one float two keys that differ. *)
Ltac key_clash :=
  unfold key_le, key_lt in *;
  repeat match goal with
  | H : exists _, _ |- _ => destruct H
  | H : _ /\ _ |- _ => destruct H
  | H : _ \/ _ |- _ => destruct H
  end;
  repeat match goal with
  | H1 : ?k = Some _, H2 : ?k = Some _ |- _ =>
      rewrite H1 in H2; inversion H2; clear H2
  | H1 : ?k = Some _, H2 : ?k = None |- _ => rewrite H1 in H2; discriminate
  end;
  subst; simpl in *; try lia.

Lemma ltb_key a b :
  (a <? b) = true <->
  exists ka kb, fkey a = Some ka /\ fkey b = Some kb /\ key_lt ka kb.
Proof.
  rewrite ltb_spec. unfold SFltb, fkey.
  pose proof (SFcompare_key (Prim2SF a) (Prim2SF b)) as H.
  destruct (SFcompare (Prim2SF a) (Prim2SF b)) as [[| |]|]; simpl in H;
    split; intros K; try discriminate; auto; try solve [key_clash].
Qed.

Lemma leb_key a b :
  (a <=? b) = true <->
  exists ka kb, fkey a = Some ka /\ fkey b = Some kb /\ key_le ka kb.
Proof.
  rewrite leb_spec. unfold SFleb, fkey.
  pose proof (SFcompare_key (Prim2SF a) (Prim2SF b)) as H.
  destruct (SFcompare (Prim2SF a) (Prim2SF b)) as [[| |]|]; simpl in H;
    split; intros K; try discriminate; auto; try solve [key_clash].
  - destruct H as (k & H1 & H2). exists k, k.
    repeat split; auto. right; reflexivity.
  - destruct H as (k1 & k2 & H1 & H2 & L). exists k1, k2.
    repeat split; auto. left; exact L.
Qed.

Lemma eqb_key a b :
  (a =? b) = true <-> exists k, fkey a = Some k /\ fkey b = Some k.
Proof.
  rewrite eqb_spec. unfold SFeqb, fkey.
  pose proof (SFcompare_key (Prim2SF a) (Prim2SF b)) as H.
  destruct (SFcompare (Prim2SF a) (Prim2SF b)) as [[| |]|]; simpl in H;
    split; intros K; try discriminate; auto; try solve [key_clash].
Qed.

Lemma is_nan_key a : is_nan a = false <-> exists k, fkey a = Some k.
Proof.
  unfold is_nan. rewrite negb_false_iff, eqb_key. split.
  - intros (k & E & _). eauto.
  - intros (k & E). eauto.
Qed.

Lemma key_trichotomy (k1 k2 : Z * Z * Z) :
  key_lt k1 k2 \/ k1 = k2 \/ key_lt k2 k1.
Proof.
  destruct k1 as [[a1 b1] c1], k2 as [[a2 b2] c2]. unfold key_lt; simpl.
  destruct (Z.lt_trichotomy a1 a2) as [?|[?|?]];
    [left; lia | | right; right; lia].
  destruct (Z.lt_trichotomy b1 b2) as [?|[?|?]];
    [left; lia | | right; right; lia].
  destruct (Z.lt_trichotomy c1 c2) as [?|[?|?]];
    [left; lia | | right; right; lia].
  subst. right; left; reflexivity.
Qed.

Lemma key_lt_trans k1 k2 k3 : key_lt k1 k2 -> key_lt k2 k3 -> key_lt k1 k3.
Proof. unfold key_lt. lia. Qed.

Lemma key_lt_irrefl k : ~ key_lt k k.
Proof. unfold key_lt. lia. Qed.

Lemma key_le_trans k1 k2 k3 : key_le k1 k2 -> key_le k2 k3 -> key_le k1 k3.
Proof.
  intros [H1| ->] [H2| ->]; unfold key_le; auto.
  left. eapply key_lt_trans; eauto.
Qed.

(** Turns every comparison among the hypotheses into its keys. *)
Ltac keys :=
  repeat match goal with
  | H : (_ <? _) = true |- _ =>
      apply ltb_key in H; destruct H as (? & ? & ? & ? & ?)
  | H : (_ <=? _) = true |- _ =>
      apply leb_key in H; destruct H as (? & ? & ? & ? & ?)
  | H : (_ =? _) = true |- _ =>
      apply eqb_key in H; destruct H as (? & ? & ?)
  | H : is_nan _ = false |- _ =>
      apply is_nan_key in H; destruct H as (? & ?)
  end;
  repeat match goal with
  | H1 : ?k = Some _, H2 : ?k = Some _ |- _ =>
      rewrite H1 in H2; inversion H2; clear H2
  end;
  subst.

Lemma fle_trans a b c :
  (a <=? b) = true -> (b <=? c) = true -> (a <=? c) = true.
Proof.
  intros H1 H2. keys. apply leb_key. do 2 eexists. repeat split; eauto.
  eapply key_le_trans; eauto.
Qed.

Lemma flt_fle a b : (a <? b) = true -> (a <=? b) = true.
Proof.
  intros H. keys. apply leb_key. do 2 eexists.
  repeat split; eauto. left; auto.
Qed.

Lemma fle_flt_trans a b c :
  (a <=? b) = true -> (b <? c) = true -> (a <? c) = true.
Proof.
  intros H1 H2. keys. apply ltb_key. do 2 eexists. repeat split; eauto.
  match goal with H : key_le _ _ |- _ => destruct H as [H| ->] end; auto.
  eapply key_lt_trans; eauto.
Qed.

Lemma flt_fle_trans a b c :
  (a <? b) = true -> (b <=? c) = true -> (a <? c) = true.
Proof.
  intros H1 H2. keys. apply ltb_key. do 2 eexists. repeat split; eauto.
  match goal with H : key_le _ _ |- _ => destruct H as [H| <-] end; auto.
  eapply key_lt_trans; eauto.
Qed.

Lemma fle_refl a : is_nan a = false -> (a <=? a) = true.
Proof.
  intros H. keys. apply leb_key. do 2 eexists.
  repeat split; eauto. right; auto.
Qed.

(** Two numbers are comparable. *)
Lemma fle_total a b :
  is_nan a = false -> is_nan b = false ->
  (a <? b) = false -> (b <=? a) = true.
Proof.
  intros Ha Hb H. keys. apply leb_key. do 2 eexists. repeat split; eauto.
  match goal with
  | |- key_le ?k2 ?k1 => destruct (key_trichotomy k1 k2) as [L|[E|L]]
  end.
  - exfalso.
    assert ((a <? b) = true) as K by (apply ltb_key; eauto 6).
    congruence.
  - right; auto.
  - left; auto.
Qed.

Lemma fle_not_flt a b : (a <=? b) = true -> (b <? a) = false.
Proof.
  intros H. destruct (b <? a) eqn:K; auto. keys. exfalso.
  match goal with H : key_le _ _ |- _ => destruct H as [H| ->] end.
  - eapply key_lt_irrefl. eapply key_lt_trans; eauto.
  - eapply key_lt_irrefl; eauto.
Qed.

Lemma flt_not_fle a b : (a <? b) = true -> (b <=? a) = false.
Proof.
  intros H. destruct (b <=? a) eqn:K; auto.
  apply fle_not_flt in K. congruence.
Qed.

Lemma not_fle_flt a b :
  is_nan a = false -> is_nan b = false ->
  (a <=? b) = false -> (b <=? a) = true.
Proof.
  intros N1 N2 H. apply fle_total; auto.
  destruct (a <? b) eqn:E; auto. apply flt_fle in E. congruence.
Qed.

(** A comparison that holds compares numbers. *)
Lemma fle_nonnan a b :
  (a <=? b) = true -> is_nan a = false /\ is_nan b = false.
Proof.
  intros H. apply leb_key in H. destruct H as (ka & kb & H1 & H2 & _).
  split; apply is_nan_key; eauto.
Qed.

Lemma flt_nonnan a b :
  (a <? b) = true -> is_nan a = false /\ is_nan b = false.
Proof. intros H. apply fle_nonnan. apply flt_fle. exact H. Qed.

Lemma fle_antisym a b :
  (a <=? b) = true -> (b <=? a) = true -> (a =? b) = true.
Proof.
  intros H1 H2. keys. apply eqb_key.
  repeat match goal with
  | H : key_le _ _ |- _ => destruct H as [H|H]
  end; subst; eauto.
  exfalso. eapply key_lt_irrefl. eapply key_lt_trans; eauto.
Qed.

(** *** Comparisons with NaN *)

Lemma nan_flt_l a b : is_nan a = true -> (a <? b) = false.
Proof.
  intros N. destruct (a <? b) eqn:E; [|reflexivity].
  destruct (flt_nonnan _ _ E) as [Na _]. congruence.
Qed.

Lemma nan_flt_r a b : is_nan b = true -> (a <? b) = false.
Proof.
  intros N. destruct (a <? b) eqn:E; [|reflexivity].
  destruct (flt_nonnan _ _ E) as [_ Nb]. congruence.
Qed.

Lemma nan_fle_l a b : is_nan a = true -> (a <=? b) = false.
Proof.
  intros N. destruct (a <=? b) eqn:E; [|reflexivity].
  destruct (fle_nonnan _ _ E) as [Na _]. congruence.
Qed.

Lemma nan_fle_r a b : is_nan b = true -> (a <=? b) = false.
Proof.
  intros N. destruct (a <=? b) eqn:E; [|reflexivity].
  destruct (fle_nonnan _ _ E) as [_ Nb]. congruence.
Qed.

(** *** Infinities *)

Lemma fle_cases a b :
  (a <=? b) = true -> (a <? b) = true \/ (a =? b) = true.
Proof.
  rewrite leb_spec, ltb_spec, eqb_spec. unfold SFleb, SFltb, SFeqb.
  destruct (SFcompare (Prim2SF a) (Prim2SF b)) as [[]|]; auto.
Qed.

Lemma sf_key_range f k :
  sf_key f = Some k -> key_le (-2, 0, 0)%Z k /\ key_le k (2, 0, 0)%Z.
Proof.
  destruct f as [[|]|[|]| |[|] m ex]; simpl; intros H; inversion H; subst;
    unfold key_le, key_lt; simpl; split;
    try (left; lia); try (right; reflexivity).
Qed.

Lemma fle_infinity a : is_nan a = false -> (a <=? infinity) = true.
Proof.
  intros H. apply is_nan_key in H. destruct H as (k & H).
  apply leb_key. exists k, (2, 0, 0)%Z. repeat split; auto.
  apply (sf_key_range _ _ H).
Qed.

Lemma neg_infinity_fle a : is_nan a = false -> (neg_infinity <=? a) = true.
Proof.
  intros H. apply is_nan_key in H. destruct H as (k & H).
  apply leb_key. exists (-2, 0, 0)%Z, k. repeat split; auto.
  apply (sf_key_range _ _ H).
Qed.

Lemma infinity_not_flt a : (infinity <? a) = false.
Proof.
  destruct (infinity <? a) eqn:K; auto.
  pose proof (flt_nonnan _ _ K) as [_ N].
  apply fle_infinity in N. apply fle_not_flt in N. congruence.
Qed.

Lemma not_flt_neg_infinity a : (a <? neg_infinity) = false.
Proof.
  destruct (a <? neg_infinity) eqn:K; auto.
  pose proof (flt_nonnan _ _ K) as [N _].
  apply neg_infinity_fle in N. apply fle_not_flt in N. congruence.
Qed.

Lemma negative_cases d :
  (d <? 0) = true ->
  (exists m ex, Prim2SF d = S754_finite true m ex) \/
  Prim2SF d = S754_infinity true.
Proof.
  rewrite ltb_spec. change (Prim2SF 0) with (S754_zero false).
  destruct (Prim2SF d) as [[|]|[|]| |[|] m ex]; simpl; intros H;
    try discriminate; eauto.
Qed.

Lemma positive_cases d :
  (0 <? d) = true ->
  (exists m ex, Prim2SF d = S754_finite false m ex) \/
  Prim2SF d = S754_infinity false.
Proof.
  rewrite ltb_spec. change (Prim2SF 0) with (S754_zero false).
  destruct (Prim2SF d) as [[|]|[|]| |[|] m ex]; simpl; intros H;
    try discriminate; eauto.
Qed.

(** A negative number times an infinity is the infinity of the other
    sign; a positive one keeps the sign. *)
Lemma mul_infinity_negative d :
  (d <? 0) = true ->
  d * infinity = neg_infinity /\ d * neg_infinity = infinity.
Proof.
  intros H. apply negative_cases in H.
  split; apply Prim2SF_inj; rewrite mul_spec;
    destruct H as [(m & ex & ->)| ->]; reflexivity.
Qed.

Lemma mul_infinity_positive d :
  (0 <? d) = true ->
  d * infinity = infinity /\ d * neg_infinity = neg_infinity.
Proof.
  intros H. apply positive_cases in H.
  split; apply Prim2SF_inj; rewrite mul_spec;
    destruct H as [(m & ex & ->)| ->]; reflexivity.
Qed.

(** A double that compares equal to zero is one of the two zeros. *)
Lemma zero_cases d : (d =? 0) = true -> d = 0 \/ d = - 0.
Proof.
  intros H. rewrite eqb_spec in H.
  change (Prim2SF 0) with (S754_zero false) in H.
  rewrite <- (SF2Prim_Prim2SF d).
  destruct (Prim2SF d) as [[|]|[|]| |[|] m ex]; simpl in H;
    try discriminate.
  - right; reflexivity.
  - left; reflexivity.
Qed.

(** *** Multiplication commutes *)

Lemma fmul_comm a b : a * b = b * a.
Proof.
  apply Prim2SF_inj. rewrite !mul_spec. unfold SF64mul.
  destruct (Prim2SF a) as [sa|sa| |sa ma ea],
           (Prim2SF b) as [sb|sb| |sb mb eb];
    simpl; rewrite ?(xorb_comm sb sa); try reflexivity.
  rewrite (Pos.mul_comm mb ma), (Z.add_comm eb ea). reflexivity.
Qed.

Lemma dot_comm a b : dot a b = dot b a.
Proof.
  unfold dot.
  rewrite (fmul_comm (e0 a)), (fmul_comm (e1 a)), (fmul_comm (e2 a)).
  reflexivity.
Qed.

(** ** The slab test *)

Lemma slab_nonnan b r a t_min t_max :
  is_nan t_min = false -> is_nan t_max = false ->
  is_nan (fst (slab b r a t_min t_max)) = false /\
  is_nan (snd (slab b r a t_min t_max)) = false.
Proof.
  intros Hmin Hmax. unfold slab. simpl. split.
  - destruct (t_min <? _) eqn:E; auto. apply flt_nonnan in E. tauto.
  - destruct (_ <? t_max) eqn:E; auto. apply flt_nonnan in E. tauto.
Qed.

Lemma squeezed_high t_min t_max :
  is_nan t_min = false -> is_nan t_max = false ->
  ((if infinity <? t_max then infinity else t_max) <=?
   (if t_min <? infinity then infinity else t_min)) = true.
Proof.
  intros Hmin Hmax. rewrite infinity_not_flt.
  destruct (t_min <? infinity) eqn:E.
  - apply fle_infinity; auto.
  - eapply fle_trans; [apply fle_infinity; auto|].
    apply fle_total; auto.
Qed.

Lemma squeezed_low t_min t_max :
  is_nan t_min = false -> is_nan t_max = false ->
  ((if neg_infinity <? t_max then neg_infinity else t_max) <=?
   (if t_min <? neg_infinity then neg_infinity else t_min)) = true.
Proof.
  intros Hmin Hmax. rewrite not_flt_neg_infinity.
  destruct (neg_infinity <? t_max) eqn:E.
  - apply neg_infinity_fle; auto.
  - eapply fle_trans; [|apply neg_infinity_fle; auto].
    apply fle_total; auto.
Qed.

(** Zero times an infinity is NaN; what is not positive times plus
    infinity is not above anything, what is not negative not below. *)
Lemma not_positive_times_infinity lo :
  (lo <=? 0) = true ->
  forall q, (q <? lo * infinity) = false /\
            (lo * neg_infinity <? q) = false.
Proof.
  intros H q. destruct (fle_cases _ _ H) as [L|Z].
  - destruct (mul_infinity_negative _ L) as [-> ->].
    split; [apply not_flt_neg_infinity|apply infinity_not_flt].
  - destruct (zero_cases _ Z) as [-> | ->];
      split; first [apply nan_flt_r; reflexivity|apply nan_flt_l; reflexivity].
Qed.

Lemma not_negative_times_infinity hi :
  (0 <=? hi) = true ->
  forall q, (hi * infinity <? q) = false /\
            (q <? hi * neg_infinity) = false.
Proof.
  intros H q. destruct (fle_cases _ _ H) as [L|Z].
  - destruct (mul_infinity_positive _ L) as [-> ->].
    split; [apply infinity_not_flt|apply not_flt_neg_infinity].
  - assert ((hi =? 0) = true) as Z'.
    { rewrite eqb_spec in Z |- *. unfold SFeqb in *.
      change (Prim2SF 0) with (S754_zero false) in *.
      destruct (Prim2SF hi) as [[]|[]| |[]]; simpl in *;
        try discriminate; reflexivity. }
    destruct (zero_cases _ Z') as [-> | ->];
      split; first [apply nan_flt_r; reflexivity|apply nan_flt_l; reflexivity].
Qed.

Lemma slab_zero_inside b r a :
  (e (direction r) a =? 0) = true ->
  (e (minimum b) a - e (origin r) a <=? 0) = true ->
  (0 <=? e (maximum b) a - e (origin r) a) = true ->
  forall t0 t1, slab b r a t0 t1 = (t0, t1).
Proof.
  intros Hd Hlo Hhi t0 t1. unfold slab.
  destruct (zero_cases _ Hd) as [-> | ->].
  - change (1 / 0) with infinity.
    change (infinity <? 0) with false. cbv iota.
    rewrite (proj1 (not_positive_times_infinity _ Hlo t0)).
    rewrite (proj1 (not_negative_times_infinity _ Hhi t1)). reflexivity.
  - change (1 / - 0) with neg_infinity.
    change (neg_infinity <? 0) with true. cbv iota.
    rewrite (proj2 (not_negative_times_infinity _ Hhi t0)).
    rewrite (proj2 (not_positive_times_infinity _ Hlo t1)). reflexivity.
Qed.

Lemma slab_zero_outside b r a t_min t_max :
  (e (direction r) a =? 0) = true ->
  ((0 <? e (minimum b) a - e (origin r) a) = true /\
   (0 <? e (maximum b) a - e (origin r) a) = true) \/
  ((e (minimum b) a - e (origin r) a <? 0) = true /\
   (e (maximum b) a - e (origin r) a <? 0) = true) ->
  is_nan t_min = false -> is_nan t_max = false ->
  (snd (slab b r a t_min t_max) <=? fst (slab b r a t_min t_max)) = true.
Proof.
  intros Hd Hout Hmin Hmax. unfold slab. simpl.
  destruct (zero_cases _ Hd) as [-> | ->].
  - change (1 / 0) with infinity.
    change (infinity <? 0) with false. cbv iota.
    destruct Hout as [[Hlo Hhi]|[Hlo Hhi]].
    + destruct (mul_infinity_positive _ Hlo) as [-> _].
      destruct (mul_infinity_positive _ Hhi) as [-> _].
      apply squeezed_high; auto.
    + destruct (mul_infinity_negative _ Hlo) as [-> _].
      destruct (mul_infinity_negative _ Hhi) as [-> _].
      apply squeezed_low; auto.
  - change (1 / - 0) with neg_infinity.
    change (neg_infinity <? 0) with true. cbv iota.
    destruct Hout as [[Hlo Hhi]|[Hlo Hhi]].
    + destruct (mul_infinity_positive _ Hlo) as [_ ->].
      destruct (mul_infinity_positive _ Hhi) as [_ ->].
      apply squeezed_low; auto.
    + destruct (mul_infinity_negative _ Hlo) as [_ ->].
      destruct (mul_infinity_negative _ Hhi) as [_ ->].
      apply squeezed_high; auto.
Qed.

Lemma aabb_hit_from_rejects b r a axes :
  In a axes ->
  (e (direction r) a =? 0) = true ->
  ((0 <? e (minimum b) a - e (origin r) a) = true /\
   (0 <? e (maximum b) a - e (origin r) a) = true) \/
  ((e (minimum b) a - e (origin r) a <? 0) = true /\
   (e (maximum b) a - e (origin r) a <? 0) = true) ->
  forall t_min t_max,
    is_nan t_min = false -> is_nan t_max = false ->
    aabb_hit_from b r axes t_min t_max = false.
Proof.
  intros Hin Hd Hout. induction axes as [|a' rest IH]; [contradiction|].
  intros t_min t_max Hmin Hmax. cbn [aabb_hit_from].
  pose proof (slab_nonnan b r a' t_min t_max Hmin Hmax) as [N1 N2].
  destruct (slab b r a' t_min t_max) as [lo hi] eqn:E. simpl in N1, N2.
  destruct (hi <=? lo) eqn:F; [reflexivity|].
  destruct Hin as [->|Hin].
  - pose proof (slab_zero_outside b r a t_min t_max Hd Hout Hmin Hmax) as K.
    rewrite E in K. simpl in K. congruence.
  - apply IH; auto.
Qed.

(** On an interval whose ends are numbers, one turn of the loop is the
    tightening of the spec. *)
Lemma slab_in_words b r a t_min t_max :
  is_nan t_min = false -> is_nan t_max = false ->
  slab b r a t_min t_max =
  (fmax t_min (fst (plane_crossings b r a)),
   fmin t_max (snd (plane_crossings b r a))).
Proof.
  intros Na Nb. unfold slab, plane_crossings, fmax, fmin. rewrite Na, Nb.
  set (invD := 1 / e (direction r) a).
  set (t0 := (e (minimum b) a - e (origin r) a) * invD).
  set (t1 := (e (maximum b) a - e (origin r) a) * invD).
  destruct (invD <? 0); cbn [fst snd]; f_equal.
  - destruct (is_nan t1) eqn:N; [|reflexivity].
    rewrite (nan_flt_r t_min t1 N). reflexivity.
  - destruct (is_nan t0) eqn:N; [|reflexivity].
    rewrite (nan_flt_l t0 t_max N). reflexivity.
  - destruct (is_nan t0) eqn:N; [|reflexivity].
    rewrite (nan_flt_r t_min t0 N). reflexivity.
  - destruct (is_nan t1) eqn:N; [|reflexivity].
    rewrite (nan_flt_l t1 t_max N). reflexivity.
Qed.

Lemma aabb_hit_from_in_words b r axes : forall t_min t_max,
  is_nan t_min = false -> is_nan t_max = false ->
  (aabb_hit_from b r axes t_min t_max = true <->
   forall n, (1 <= n <= List.length axes)%nat ->
     (let (lo, hi) := tightened b r (firstn n axes) t_min t_max in
      hi <=? lo) = false).
Proof.
  induction axes as [|a rest IH]; intros t_min t_max Na Nb.
  - simpl. split; [intros _ n Hn; lia|reflexivity].
  - cbn [aabb_hit_from]. rewrite (slab_in_words b r a t_min t_max Na Nb).
    pose proof (slab_nonnan b r a t_min t_max Na Nb) as [N1 N2].
    rewrite (slab_in_words b r a t_min t_max Na Nb) in N1, N2.
    cbn [fst snd] in N1, N2.
    destruct (plane_crossings b r a) as [t0 t1] eqn:E. cbn [fst snd] in *.
    split.
    + intros H n Hn. destruct n as [|n]; [lia|].
      cbn [firstn tightened]. rewrite E.
      destruct (fmin t_max t1 <=? fmax t_min t0) eqn:F; [discriminate|].
      destruct n as [|n]; [simpl; exact F|].
      apply (proj1 (IH _ _ N1 N2) H (S n)). simpl in Hn. lia.
    + intros H.
      pose proof (H 1%nat ltac:(simpl; lia)) as H1.
      cbn [firstn tightened] in H1. rewrite E in H1. rewrite H1.
      apply (IH _ _ N1 N2). intros n Hn.
      specialize (H (S n) ltac:(simpl; lia)).
      cbn [firstn tightened] in H. rewrite E in H. exact H.
Qed.

(** C6 (amended).  Over an interval whose ends are numbers, [aabb::hit]
    answers true exactly when no axis, after the tightening of the spec
    ([t0] and [t1] from the two planes, swapped when [invD] is negative,
    [tMin := max(tMin, t0)], [tMax := min(tMax, t1)]), leaves
    [tMax <= tMin].  A direction component that is exactly zero makes
    [invD] a signed infinity and needs no special case: with the origin
    between the two planes or on one of them the axis leaves the interval
    as it was, and with the origin strictly beyond both the box is
    missed. *)
Theorem aabb_hit_slab_test (b : aabb) (r : ray) (t_min t_max : float) :
  is_nan t_min = false -> is_nan t_max = false ->
  (aabb_hit b r t_min t_max = true <->
   forall n, In n [1; 2; 3]%nat -> axis_fails b r t_min t_max n = false) /\
  (forall a,
      In a [0; 1; 2]%Z ->
      (e (direction r) a =? 0) = true ->
      let lo := e (minimum b) a - e (origin r) a in
      let hi := e (maximum b) a - e (origin r) a in
      (1 / e (direction r) a = infinity \/
       1 / e (direction r) a = neg_infinity) /\
      ((lo <=? 0) = true -> (0 <=? hi) = true ->
       slab b r a t_min t_max = (t_min, t_max) /\
       tightened b r [a] t_min t_max = (t_min, t_max)) /\
      (((0 <? lo) = true /\ (0 <? hi) = true) \/
       ((lo <? 0) = true /\ (hi <? 0) = true) ->
       aabb_hit b r t_min t_max = false)).
Proof.
  intros Na Nb. split.
  - unfold aabb_hit, axis_fails.
    rewrite (aabb_hit_from_in_words b r [0; 1; 2]%Z t_min t_max Na Nb).
    split.
    + intros H n [<-|[<-|[<-|[]]]]; apply H; simpl; lia.
    + intros H n Hn. apply H. simpl in Hn. simpl.
      destruct n as [|[|[|[|n]]]]; try lia; auto.
  - intros a Hin Hd lo hi. split; [|split].
    + destruct (zero_cases _ Hd) as [-> | ->]; [left|right]; reflexivity.
    + intros Hlo Hhi.
      pose proof (slab_zero_inside b r a Hd Hlo Hhi t_min t_max) as S.
      split; [exact S|]. cbn [tightened].
      rewrite (slab_in_words b r a t_min t_max Na Nb) in S.
      destruct (plane_crossings b r a) as [t0 t1]. exact S.
    + intros Hout. unfold aabb_hit.
      eapply aabb_hit_from_rejects; eauto.
Qed.

(** Scenario 2: the ray of scenario 1 meets the unit box over [[0, 10]],
    its x axis leaving the interval as it was; the ray that passes the
    box by misses it. *)
Lemma aabb_hit_slab_test_witness :
  aabb_hit unit_box ray_z 0 10 = true /\
  slab unit_box ray_z 0 0 10 = (0, 10) /\
  aabb_hit unit_box passing_ray 0 10 = false.
Proof.
  split; [|split].
  - apply (proj1 (aabb_hit_slab_test unit_box ray_z 0 10
                    eq_refl eq_refl)).
    intros n [<-|[<-|[<-|[]]]]; reflexivity.
  - apply (proj2 (aabb_hit_slab_test unit_box ray_z 0 10
                    eq_refl eq_refl) 0%Z);
      [left; reflexivity|reflexivity|reflexivity|reflexivity].
  - apply (proj2 (aabb_hit_slab_test unit_box passing_ray 0 10
                    eq_refl eq_refl) 0%Z);
      [left; reflexivity|reflexivity|].
    right. split; reflexivity.
Defined.

(** C6 as the specification states it fails when [tMin] is NaN: the
    ternaries of the code keep the NaN, every test [tMax <= tMin] is
    false and the answer is true for the ray that passes the unit box
    by, while [max(tMin, t0)] is [t0] and the first axis leaves
    [tMax <= tMin]. *)
Lemma aabb_hit_keeps_a_nan_end :
  aabb_hit unit_box passing_ray nan 10 = true /\
  plane_crossings unit_box passing_ray 0 = (neg_infinity, neg_infinity) /\
  tightened unit_box passing_ray [0%Z] nan 10 =
  (neg_infinity, neg_infinity) /\
  axis_fails unit_box passing_ray nan 10 1 = true /\
  aabb_hit unit_box passing_ray 0 10 = false.
Proof. repeat split; reflexivity. Qed.

(** ** Induction over hittables *)

Lemma hittable_induction (Q : hittable -> Prop) :
  (forall center radius m, Q (sphere center radius m)) ->
  (forall c0 c1 t0 t1 radius m, Q (moving_sphere c0 c1 t0 t1 radius m)) ->
  (forall b ph d, Q b -> Q (constant_medium b ph d)) ->
  (forall objects, Forall Q objects -> Q (hittable_list objects)) ->
  (forall l r box, Q l -> Q r -> Q (bvh_node l r box)) ->
  forall h, Q h.
Proof.
  intros Hs Hm Hc Hl Hb. fix IH 1. intros [c rad m|c0 c1 t0 t1 rad m|b ph d|objects|l r box].
  - apply Hs.
  - apply Hm.
  - apply Hc, IH.
  - apply Hl. induction objects as [|o rest IHrest]; constructor; [apply IH|exact IHrest].
  - apply Hb; apply IH.
Qed.

(** ** Boxes *)

Lemma fmin_either a b : fmin a b = a \/ fmin a b = b.
Proof.
  unfold fmin. destruct (is_nan a); [right; reflexivity|].
  destruct (is_nan b); [left; reflexivity|]. destruct (b <? a); auto.
Qed.

Lemma fmax_either a b : fmax a b = a \/ fmax a b = b.
Proof.
  unfold fmax. destruct (is_nan a); [right; reflexivity|].
  destruct (is_nan b); [left; reflexivity|]. destruct (a <? b); auto.
Qed.

Lemma fmin_le_l a b q : (a <=? q) = true -> (fmin a b <=? q) = true.
Proof.
  intros H. unfold fmin. destruct (fle_nonnan _ _ H) as [Na Nq]. rewrite Na.
  destruct (is_nan b) eqn:Nb; auto.
  destruct (b <? a) eqn:E; auto.
  apply flt_fle. eapply flt_fle_trans; eauto.
Qed.

Lemma fmin_le_r a b q : (b <=? q) = true -> (fmin a b <=? q) = true.
Proof.
  intros H. unfold fmin. destruct (fle_nonnan _ _ H) as [Nb Nq].
  destruct (is_nan a) eqn:Na; auto. rewrite Nb.
  destruct (b <? a) eqn:E; auto.
  eapply fle_trans; [|exact H]. apply fle_total; auto.
Qed.

Lemma fmax_ge_l a b q : (q <=? a) = true -> (q <=? fmax a b) = true.
Proof.
  intros H. unfold fmax. destruct (fle_nonnan _ _ H) as [Nq Na]. rewrite Na.
  destruct (is_nan b) eqn:Nb; auto.
  destruct (a <? b) eqn:E; auto.
  apply flt_fle. eapply fle_flt_trans; eauto.
Qed.

Lemma fmax_ge_r a b q : (q <=? b) = true -> (q <=? fmax a b) = true.
Proof.
  intros H. unfold fmax. destruct (fle_nonnan _ _ H) as [Nq Nb].
  destruct (is_nan a) eqn:Na; auto. rewrite Nb.
  destruct (a <? b) eqn:E; auto.
  eapply fle_trans; [exact H|]. apply fle_total; auto.
Qed.

Lemma surrounding_box_contains_l a b : contains (surrounding_box a b) a.
Proof.
  intros q [[X1 X2] [[Y1 Y2] [Z1 Z2]]].
  unfold inside, between, surrounding_box; simpl.
  repeat split; auto using fmin_le_l, fmax_ge_l.
Qed.

Lemma surrounding_box_contains_r a b : contains (surrounding_box a b) b.
Proof.
  intros q [[X1 X2] [[Y1 Y2] [Z1 Z2]]].
  unfold inside, between, surrounding_box; simpl.
  repeat split; auto using fmin_le_r, fmax_ge_r.
Qed.

Lemma contains_trans a b c : contains a b -> contains b c -> contains a c.
Proof. unfold contains. auto. Qed.

Lemma contains_refl a : contains a a.
Proof. unfold contains. auto. Qed.

Lemma fold_surrounding_contains boxes : forall acc,
  contains (fold_left surrounding_box boxes acc) acc /\
  forall bx, In bx boxes -> contains (fold_left surrounding_box boxes acc) bx.
Proof.
  induction boxes as [|b rest IH]; intros acc; simpl.
  - split; [apply contains_refl|contradiction].
  - destruct (IH (surrounding_box acc b)) as [I1 I2]. split.
    + eapply contains_trans; [exact I1|apply surrounding_box_contains_l].
    + intros bx [<-|Hin]; auto.
      eapply contains_trans; [exact I1|apply surrounding_box_contains_r].
Qed.

Lemma merge_boxes_answer time0 time1 objects :
  Forall (fun o => box_answer o time0 time1) objects ->
  forall temp out,
    (fst (merge_boxes (fun o b => bounding_box o time0 time1 b)
                      objects temp false out) = false <->
     exists o, In o objects /\ box_of o time0 time1 = None) /\
    (fst (merge_boxes (fun o b => bounding_box o time0 time1 b)
                      objects temp false out) = true ->
     exists boxes,
       map (fun o => box_of o time0 time1) objects = map Some boxes /\
       snd (merge_boxes (fun o b => bounding_box o time0 time1 b)
                        objects temp false out) =
       fold_left surrounding_box boxes out).
Proof.
  induction 1 as [|o rest Ho Hrest IH]; intros temp out.
  - simpl. split.
    + split; [discriminate|]. intros (o & [] & _).
    + intros _. exists []. split; reflexivity.
  - cbn [merge_boxes].
    destruct (Ho temp) as [A1 A2].
    destruct (bounding_box o time0 time1 temp) as [ok temp'] eqn:E.
    simpl in A1, A2.
    destruct (box_of o time0 time1) as [bx|] eqn:B; subst ok; simpl.
    + specialize (A2 bx eq_refl). subst temp'.
      destruct (IH bx (surrounding_box out bx)) as [I1 I2]. split.
      * rewrite I1. split.
        -- intros (o' & Hin & Hn). exists o'. split; auto.
        -- intros (o' & [<-|Hin] & Hn); [congruence|]. exists o'. auto.
      * intros Hok. destruct (I2 Hok) as (boxes & M & S).
        exists (bx :: boxes). simpl. rewrite B, M, S. split; reflexivity.
    + split; [|discriminate].
      split; auto. intros _. exists o. split; [left; reflexivity|exact B].
Qed.

Lemma bounding_box_answer time0 time1 h : box_answer h time0 time1.
Proof.
  induction h as [c rad m|c0 c1 t0 t1 rad m|bd ph d IH|objects IH|l r box IHl IHr]
    using hittable_induction; intros b.
  - split; [reflexivity|]. unfold box_of; simpl. intros bx H; inversion H; reflexivity.
  - split; [reflexivity|]. unfold box_of; simpl. intros bx H; inversion H; reflexivity.
  - unfold box_of in *. simpl. apply IH.
  - destruct objects as [|o rest].
    + unfold box_of; simpl. split; [reflexivity|discriminate].
    + inversion IH as [|? ? Ho Hrest]; subst.
      unfold box_of. cbn [bounding_box merge_boxes].
      destruct (Ho aabb_default) as [A1 A2].
      destruct (bounding_box o time0 time1 aabb_default) as [ok temp'] eqn:E.
      simpl in A1, A2.
      destruct (box_of o time0 time1) as [bx|] eqn:B; subst ok; simpl.
      * specialize (A2 bx eq_refl). subst temp'.
        destruct (merge_boxes_answer time0 time1 rest Hrest bx bx) as [I1 I2].
        destruct (merge_boxes _ rest bx false bx) as [ok2 out2] eqn:M.
        simpl in *. destruct ok2.
        -- split; [reflexivity|]. intros bx' H; inversion H; reflexivity.
        -- split; [reflexivity|discriminate].
      * split; [reflexivity|discriminate].
  - split; [reflexivity|]. unfold box_of; simpl. intros bx H; inversion H; reflexivity.
Qed.

(** The fold of [fmin] over a list is the least of its numbers, the
    fold of [fmax] the greatest. *)
Lemma fold_fmin_least l : forall a,
  least_of (a :: l) (fold_left fmin l a).
Proof.
  induction l as [|q l IH]; intros a.
  - simpl. split; [left; reflexivity|].
    intros q [E|[]] N. subst q. apply fle_refl. exact N.
  - cbn [fold_left]. destruct (IH (fmin a q)) as [I1 I2]. split.
    + destruct I1 as [<-|Hin]; [|right; right; exact Hin].
      destruct (fmin_either a q) as [->| ->]; [left|right; left]; reflexivity.
    + intros q' [E|[E|Hin]] N.
      * subst q'.
        assert ((fmin a q <=? a) = true) as L
            by (apply fmin_le_l, fle_refl; exact N).
        eapply fle_trans; [|exact L].
        apply I2; [left; reflexivity|apply (fle_nonnan _ _ L)].
      * subst q'.
        assert ((fmin a q <=? q) = true) as L
            by (apply fmin_le_r, fle_refl; exact N).
        eapply fle_trans; [|exact L].
        apply I2; [left; reflexivity|apply (fle_nonnan _ _ L)].
      * apply I2; [right; exact Hin|exact N].
Qed.

Lemma fold_fmax_greatest l : forall a,
  greatest_of (a :: l) (fold_left fmax l a).
Proof.
  induction l as [|q l IH]; intros a.
  - simpl. split; [left; reflexivity|].
    intros q [E|[]] N. subst q. apply fle_refl. exact N.
  - cbn [fold_left]. destruct (IH (fmax a q)) as [I1 I2]. split.
    + destruct I1 as [<-|Hin]; [|right; right; exact Hin].
      destruct (fmax_either a q) as [->| ->]; [left|right; left]; reflexivity.
    + intros q' [E|[E|Hin]] N.
      * subst q'.
        assert ((a <=? fmax a q) = true) as L
            by (apply fmax_ge_l, fle_refl; exact N).
        eapply fle_trans; [exact L|].
        apply I2; [left; reflexivity|apply (fle_nonnan _ _ L)].
      * subst q'.
        assert ((q <=? fmax a q) = true) as L
            by (apply fmax_ge_r, fle_refl; exact N).
        eapply fle_trans; [exact L|].
        apply I2; [left; reflexivity|apply (fle_nonnan _ _ L)].
      * apply I2; [right; exact Hin|exact N].
Qed.

(** The coordinates of a union are those folds over the coordinates. *)
Lemma fold_surrounding_coordinates boxes : forall acc a,
  In a [0; 1; 2]%Z ->
  e (minimum (fold_left surrounding_box boxes acc)) a =
  fold_left fmin (map (fun bx => e (minimum bx) a) boxes)
            (e (minimum acc) a) /\
  e (maximum (fold_left surrounding_box boxes acc)) a =
  fold_left fmax (map (fun bx => e (maximum bx) a) boxes)
            (e (maximum acc) a).
Proof.
  induction boxes as [|b rest IH]; intros acc a Ha.
  - split; reflexivity.
  - cbn [fold_left map].
    destruct (IH (surrounding_box acc b) a Ha) as [I1 I2].
    rewrite I1, I2.
    destruct Ha as [<-|[<-|[<-|[]]]]; split; reflexivity.
Qed.

Lemma union_componentwise b rest :
  componentwise_bounds (b :: rest) (fold_left surrounding_box rest b).
Proof.
  intros a Ha.
  destruct (fold_surrounding_coordinates rest b a Ha) as [-> ->].
  split; [apply fold_fmin_least|apply fold_fmax_greatest].
Qed.

(** C5. [hittable_list::bounding_box] fails exactly when the list is
    empty or some member reports no box.  When it succeeds every member
    has a box and the output is the fold of [surrounding_box] over the
    members' boxes in order; on each axis its minimum is the least of the
    members' minimums and its maximum the greatest of their maximums,
    and it contains each of the boxes.  The empty list fails and leaves
    the caller's box alone. *)
Theorem hittable_list_bounding_box (objects : list hittable)
  (time0 time1 : float) (output_box : aabb) :
  (fst (bounding_box (hittable_list objects) time0 time1 output_box) = false
   <-> objects = [] \/
       exists o, In o objects /\ box_of o time0 time1 = None) /\
  (fst (bounding_box (hittable_list objects) time0 time1 output_box) = true ->
   exists boxes,
     map (fun o => box_of o time0 time1) objects = map Some boxes /\
     union_of boxes =
     Some (snd (bounding_box (hittable_list objects) time0 time1 output_box)) /\
     componentwise_bounds boxes
       (snd (bounding_box (hittable_list objects) time0 time1 output_box)) /\
     forall bx, In bx boxes ->
       contains
         (snd (bounding_box (hittable_list objects) time0 time1 output_box))
         bx) /\
  bounding_box (hittable_list []) time0 time1 output_box = (false, output_box).
Proof.
  split; [|split; [|reflexivity]].
  - destruct objects as [|o rest].
    + simpl. split; auto.
    + cbn [bounding_box merge_boxes].
      destruct (bounding_box_answer time0 time1 o aabb_default) as [A1 A2].
      destruct (bounding_box o time0 time1 aabb_default) as [ok temp'] eqn:E.
      simpl in A1, A2.
      destruct (box_of o time0 time1) as [bx|] eqn:B; subst ok; simpl.
      * specialize (A2 bx eq_refl). subst temp'.
        assert (Forall (fun o => box_answer o time0 time1) rest) as Hrest
            by (apply Forall_forall; intros; apply bounding_box_answer).
        destruct (merge_boxes_answer time0 time1 rest Hrest bx bx) as [I1 _].
        rewrite I1. split.
        -- intros (o' & Hin & Hn). right. exists o'. split; [right; exact Hin|exact Hn].
        -- intros [H|(o' & [<-|Hin] & Hn)].
           ++ discriminate.
           ++ congruence.
           ++ exists o'. auto.
      * split; auto. intros _. right. exists o. split; [left; reflexivity|exact B].
  - destruct objects as [|o rest]; [discriminate|].
    cbn [bounding_box merge_boxes].
    destruct (bounding_box_answer time0 time1 o aabb_default) as [A1 A2].
    destruct (bounding_box o time0 time1 aabb_default) as [ok temp'] eqn:E.
    simpl in A1, A2.
    destruct (box_of o time0 time1) as [bx|] eqn:B; subst ok; simpl;
      [|discriminate].
    specialize (A2 bx eq_refl). subst temp'.
    assert (Forall (fun o => box_answer o time0 time1) rest) as Hrest
        by (apply Forall_forall; intros; apply bounding_box_answer).
    destruct (merge_boxes_answer time0 time1 rest Hrest bx bx) as [_ I2].
    intros Hok. destruct (I2 Hok) as (boxes & M & S).
    exists (bx :: boxes). simpl. rewrite B, M, S.
    split; [reflexivity|split; [reflexivity|]].
    split; [apply union_componentwise|].
    destruct (fold_surrounding_contains boxes bx) as [F1 F2].
    intros bx' [<-|Hin]; auto.
Qed.

(** The five spheres: the box is [[(-7, -1, -1), (7, 1, 1)]] and holds
    the box of the sphere in the middle; [holed] has no box. *)
Lemma hittable_list_bounding_box_witness :
  fst (bounding_box (hittable_list five_spheres) 0 1 aabb_default) = true /\
  snd (bounding_box (hittable_list five_spheres) 0 1 aabb_default) =
  mkAabb (mkVec3 (-7) (-1) (-1)) (mkVec3 7 1 1) /\
  fst (bounding_box holed 0 1 aabb_default) = false /\
  contains (snd (bounding_box (hittable_list five_spheres) 0 1 aabb_default))
           (sphere_bounding_box (mkVec3 0 0 0) 1).
Proof.
  split; [reflexivity|split; [reflexivity|split]].
  - apply (proj1 (hittable_list_bounding_box
                    [sphere (mkVec3 5 0 0) 1 None; hittable_list []]
                    0 1 aabb_default)).
    right. exists (hittable_list []). split; [right; left; reflexivity|reflexivity].
  - destruct (proj1 (proj2 (hittable_list_bounding_box five_spheres 0 1
                               aabb_default)) eq_refl)
      as (boxes & M & _ & _ & C).
    apply C.
    assert (In (Some (sphere_bounding_box (mkVec3 0 0 0) 1)) (map Some boxes))
      as Hin by (rewrite <- M; right; right; left; reflexivity).
    apply in_map_iff in Hin. destruct Hin as (bx & E & Hin).
    inversion E; subst. exact Hin.
Defined.

(** ** Construction of the hierarchy *)

Lemma sort_insert_perm cmp o sorted : forall w,
  Permutation (fst (sort_insert cmp o sorted w)) (o :: sorted).
Proof.
  induction sorted as [|o' rest IH]; intros w; simpl.
  - apply Permutation_refl.
  - destruct (cmp o o' w) as [lt w1]. destruct lt; simpl.
    + apply Permutation_refl.
    + specialize (IH w1). destruct (sort_insert cmp o rest w1) as [rest' w2].
      simpl in *. rewrite IH. apply perm_swap.
Qed.

Lemma std_sort_perm cmp objects : forall w,
  Permutation (fst (std_sort cmp objects w)) objects.
Proof.
  induction objects as [|o rest IH]; intros w; simpl.
  - apply Permutation_refl.
  - specialize (IH w). destruct (std_sort cmp rest w) as [sorted w1].
    simpl in IH. rewrite sort_insert_perm. apply perm_skip. exact IH.
Qed.

Lemma std_sort_length cmp objects w :
  List.length (fst (std_sort cmp objects w)) = List.length objects.
Proof. apply Permutation_length, std_sort_perm. Qed.

Section Built.
Context {P : Platform}.

(** With as much fuel as the span is long, the constructor returns a
    node for every range that is not empty and lies within the vector:
    the node [finish_node] makes of two children. *)
Lemma bvh_node_ctor_total time0 time1 : forall fuel objects start end_ w,
  (start < end_)%nat -> (end_ <= List.length objects)%nat ->
  (end_ - start <= fuel)%nat ->
  exists left_ right_ w4,
    bvh_node_ctor fuel objects start end_ time0 time1 w =
    Built (fst (finish_node left_ right_ time0 time1 w4))
          (snd (finish_node left_ right_ time0 time1 w4)).
Proof.
  induction fuel as [|fuel IH]; intros objects start end_ w Hlt Hle Hfuel;
    [lia|].
  cbn [bvh_node_ctor].
  destruct (random_int 0 2 w) as [axis w0].
  set (comparator := if (axis =? 0)%Z then box_x_compare
                     else if (axis =? 1)%Z then box_y_compare
                     else box_z_compare).
  destruct (Nat.ltb_spec end_ start) as [?|_]; [lia|].
  destruct ((end_ - start =? 1)%nat || (end_ - start =? 2)%nat) eqn:Small.
  - unfold leaf_children.
    destruct (nth_error objects start) as [o0|] eqn:E0;
      [|apply nth_error_None in E0; lia].
    destruct (Nat.eqb_spec (end_ - start) 1) as [S1|S1].
    + exists o0, o0, w0. destruct (finish_node o0 o0 time0 time1 w0).
      reflexivity.
    + assert (end_ - start = 2)%nat as S2.
      { rewrite orb_true_iff, !Nat.eqb_eq in Small. lia. }
      destruct (nth_error objects (start + 1)) as [o1|] eqn:E1;
        [|apply nth_error_None in E1; lia].
      destruct (comparator o0 o1 w0) as [lt w1]. destruct lt.
      * exists o0, o1, w1. destruct (finish_node o0 o1 time0 time1 w1).
        reflexivity.
      * exists o1, o0, w1. destruct (finish_node o1 o0 time0 time1 w1).
        reflexivity.
  - rewrite orb_false_iff, !Nat.eqb_neq in Small.
    destruct (Nat.ltb_spec (List.length objects) end_) as [?|_]; [lia|].
    pose proof (std_sort_length comparator
                  (firstn (end_ - start) (skipn start objects)) w0) as Hlen.
    destruct (std_sort comparator _ w0) as [sorted w1]. simpl in Hlen.
    rewrite length_firstn, length_skipn in Hlen.
    set (objects' := firstn start objects ++ sorted ++ skipn end_ objects).
    assert (List.length objects' = List.length objects) as Hlen'.
    { unfold objects'. rewrite !length_app, length_firstn, length_skipn. lia. }
    assert ((end_ - start) / 2 < end_ - start)%nat as Hhalf
        by (apply Nat.div_lt; lia).
    assert (1 <= (end_ - start) / 2)%nat as Hpos.
    { change 1%nat with (2 / 2)%nat. apply Nat.Div0.div_le_mono. lia. }
    destruct (IH objects' start (start + (end_ - start) / 2)%nat w1)
      as (ll & lr & wl & ->); [lia|lia|lia|].
    destruct (IH objects' (start + (end_ - start) / 2)%nat end_
                 (snd (finish_node ll lr time0 time1 wl)))
      as (rl & rr & wr & ->); [lia|lia|lia|].
    exists (fst (finish_node ll lr time0 time1 wl)),
           (fst (finish_node rl rr time0 time1 wr)),
           (snd (finish_node rl rr time0 time1 wr)).
    destruct (finish_node (fst (finish_node ll lr time0 time1 wl)) _ _ _ _).
    reflexivity.
Qed.

(** What [finish_node] does: the box is the union of what the two calls
    left in the local boxes, the right child being asked only when the
    left one has a box, and the diagnostic is written when one is
    missing. *)
Lemma finish_node_spec left_ right_ time0 time1 w :
  finish_node left_ right_ time0 time1 w =
  (bvh_node left_ right_
     (surrounding_box
        (snd (bounding_box left_ time0 time1 aabb_default))
        (if fst (bounding_box left_ time0 time1 aabb_default)
         then snd (bounding_box right_ time0 time1 aabb_default)
         else aabb_default)),
   if fst (bounding_box left_ time0 time1 aabb_default) &&
      fst (bounding_box right_ time0 time1 aabb_default)
   then w else cerr no_box_message w).
Proof.
  unfold finish_node.
  destruct (bounding_box left_ time0 time1 aabb_default) as [okl bl].
  destruct (bounding_box right_ time0 time1 aabb_default) as [okr br].
  destruct okl, okr; reflexivity.
Qed.

(** On an empty range the constructor never returns. *)
Lemma bvh_node_ctor_empty time0 time1 : forall fuel objects start w,
  (start <= List.length objects)%nat ->
  bvh_node_ctor fuel objects start start time0 time1 w = OutOfFuel.
Proof.
  induction fuel as [|fuel IH]; intros objects start w Hle; [reflexivity|].
  cbn [bvh_node_ctor].
  destruct (random_int 0 2 w) as [axis w0].
  rewrite Nat.ltb_irrefl, Nat.sub_diag.
  cbn [Nat.eqb orb firstn std_sort Nat.div Nat.divmod fst app].
  destruct (Nat.ltb_spec (List.length objects) start) as [?|_]; [lia|].
  rewrite Nat.add_0_r.
  rewrite IH; [reflexivity|].
  rewrite length_app, length_firstn, length_skipn. lia.
Qed.

End Built.


Lemma merge_boxes_ok_any time0 time1 time0' time1' objects :
  Forall (fun o => forall b b',
              fst (bounding_box o time0 time1 b) =
              fst (bounding_box o time0' time1' b')) objects ->
  forall temp first out temp' first' out',
    fst (merge_boxes (fun o b => bounding_box o time0 time1 b)
                     objects temp first out) =
    fst (merge_boxes (fun o b => bounding_box o time0' time1' b)
                     objects temp' first' out').
Proof.
  induction 1 as [|o rest Ho Hrest IH]; intros; [reflexivity|].
  cbn [merge_boxes]. specialize (Ho temp temp').
  destruct (bounding_box o time0 time1 temp) as [ok tb].
  destruct (bounding_box o time0' time1' temp') as [ok' tb'].
  simpl in Ho. subst ok'. destruct ok; simpl; [apply IH|reflexivity].
Qed.

(** Whether an object has a box depends neither on the times asked for
    nor on what the caller's box held. *)
Lemma bounding_box_ok_any time0 time1 time0' time1' h : forall b b',
  fst (bounding_box h time0 time1 b) = fst (bounding_box h time0' time1' b').
Proof.
  induction h as [c rad m|c0 c1 t0 t1 rad m|bd ph d IH|objects IH|l r box IHl IHr]
    using hittable_induction; intros b b'; try reflexivity.
  - simpl. apply IH.
  - destruct objects as [|o rest]; [reflexivity|].
    cbn [bounding_box]. apply merge_boxes_ok_any. exact IH.
Qed.

Lemma strip_boxes_ok time0 time1 time0' time1' l l' b b' :
  strip_boxes l = strip_boxes l' ->
  fst (bounding_box l time0 time1 b) = fst (bounding_box l' time0' time1' b').
Proof.
  intros H.
  destruct l as [c rad m|c0 c1 t0 t1 rad m|bd ph d|objects|ll lr box];
    destruct l' as [c' rad' m'|c0' c1' t0' t1' rad' m'|bd' ph' d'|objects'|ll' lr' box'];
    simpl in H; try discriminate; try reflexivity;
    inversion H; subst; apply bounding_box_ok_any.
Qed.

Lemma finish_node_strip time0 time1 time0' time1' l r l' r' w :
  strip_boxes l = strip_boxes l' -> strip_boxes r = strip_boxes r' ->
  strip_boxes (fst (finish_node l r time0 time1 w)) =
  strip_boxes (fst (finish_node l' r' time0' time1' w)) /\
  snd (finish_node l r time0 time1 w) = snd (finish_node l' r' time0' time1' w).
Proof.
  intros Hl Hr. unfold finish_node.
  pose proof (strip_boxes_ok time0 time1 time0' time1' l l'
                             aabb_default aabb_default Hl) as El.
  pose proof (strip_boxes_ok time0 time1 time0' time1' r r'
                             aabb_default aabb_default Hr) as Er.
  destruct (bounding_box l time0 time1 aabb_default) as [okl bl].
  destruct (bounding_box l' time0' time1' aabb_default) as [okl' bl'].
  destruct (bounding_box r time0 time1 aabb_default) as [okr br].
  destruct (bounding_box r' time0' time1' aabb_default) as [okr' br'].
  simpl in El, Er. subst okl' okr'.
  destruct okl, okr; simpl; rewrite Hl, Hr; split; reflexivity.
Qed.

Section Ordering.
Context {P : Platform}.

(** C10. The order in which [bvh_node]'s constructor places the objects
    comes from [box_compare], which asks every box for the times
    [(0, 0)]: whatever window the constructor is given, the tree has the
    same objects in the same places and only its boxes differ.  So two
    objects are ordered by where they are at time 0 even when the window
    is elsewhere: [runner] starts left of [post] and is the left child,
    although over the window [(0.75, 1)] its box lies to the right. *)
Theorem ordering_ignores_window :
  (forall a b axis w,
      fst (box_compare a b axis w) =
      (e (minimum (snd (bounding_box a 0 0 aabb_default))) axis <?
       e (minimum (if fst (bounding_box a 0 0 aabb_default)
                   then snd (bounding_box b 0 0 aabb_default)
                   else aabb_default)) axis)) /\
  (forall fuel objects start end_ time0 time1 time0' time1' w,
      stripped (bvh_node_ctor fuel objects start end_ time0 time1 w) =
      stripped (bvh_node_ctor fuel objects start end_ time0' time1' w)) /\
  (forall w,
      box_x_compare runner post w = (true, w) /\
      box_x_compare post runner w = (false, w) /\
      (x (minimum (snd (bounding_box runner 0.75 1 aabb_default))) <?
       x (minimum (snd (bounding_box post 0.75 1 aabb_default)))) = false /\
      (x (minimum (snd (bounding_box post 0.75 1 aabb_default))) <?
       x (minimum (snd (bounding_box runner 0.75 1 aabb_default)))) = true).
Proof.
  split; [|split; [|intros w; repeat split; reflexivity]].
  { intros a b axis w. unfold box_compare.
    destruct (bounding_box a 0 0 aabb_default) as [oka ba].
    destruct (bounding_box b 0 0 aabb_default) as [okb bb].
    destruct oka; reflexivity. }
  induction fuel as [|fuel IH]; intros; [reflexivity|].
  cbn [bvh_node_ctor].
  destruct (random_int 0 2 w) as [axis w0].
  set (comparator := if (axis =? 0)%Z then box_x_compare
                     else if (axis =? 1)%Z then box_y_compare
                     else box_z_compare).
  destruct (end_ <? start)%nat; [reflexivity|].
  destruct ((end_ - start =? 1)%nat || (end_ - start =? 2)%nat).
  - destruct (leaf_children comparator objects start (end_ - start) w0)
      as [[l r] w4| |]; try reflexivity.
    destruct (finish_node_strip time0 time1 time0' time1' l r l r w4
                                eq_refl eq_refl) as [F1 F2].
    destruct (finish_node l r time0 time1 w4) as [n1 w5].
    destruct (finish_node l r time0' time1' w4) as [n2 w5'].
    simpl in *. congruence.
  - destruct (List.length objects <? end_)%nat; [reflexivity|].
    destruct (std_sort comparator _ w0) as [sorted w1].
    set (objects' := firstn start objects ++ sorted ++ skipn end_ objects).
    set (mid := (start + (end_ - start) / 2)%nat).
    pose proof (IH objects' start mid time0 time1 time0' time1' w1) as IL.
    destruct (bvh_node_ctor fuel objects' start mid time0 time1 w1)
      as [l w2| |];
      destruct (bvh_node_ctor fuel objects' start mid time0' time1' w1)
      as [l' w2'| |]; simpl in IL; try discriminate; try reflexivity.
    inversion IL as [[Hl Hw]]. subst w2'.
    pose proof (IH objects' mid end_ time0 time1 time0' time1' w2) as IR.
    destruct (bvh_node_ctor fuel objects' mid end_ time0 time1 w2)
      as [r w3| |];
      destruct (bvh_node_ctor fuel objects' mid end_ time0' time1' w2)
      as [r' w3'| |]; simpl in IR; try discriminate; try reflexivity.
    inversion IR as [[Hr Hw]]. subst w3'.
    destruct (finish_node_strip time0 time1 time0' time1' l r l' r' w3 Hl Hr)
      as [F1 F2].
    destruct (finish_node l r time0 time1 w3) as [n1 w5].
    destruct (finish_node l' r' time0' time1' w3) as [n2 w5'].
    simpl in *. congruence.
Qed.
End Ordering.

(** ** Queries *)

Section Queries.
Context {P : Platform}.

Lemma sphere_hit_root center radius m r t_min t_max rec :
  sphere_hit center radius m r t_min t_max rec =
  match accepted_root (quadratic center radius r) t_min t_max with
  | Some root => (true, sphere_accept center radius m r root rec)
  | None => (false, rec)
  end.
Proof.
  unfold sphere_hit, accepted_root, quadratic, outside.
  rewrite (dot_comm (direction r) (vsub (origin r) center)).
  destruct (_ <? 0); [reflexivity|].
  destruct (_ || _); simpl; [|reflexivity].
  destruct (_ || _); reflexivity.
Qed.

Lemma moving_sphere_hit_root c0 c1 time0 time1 radius m r t_min t_max rec :
  moving_sphere_hit c0 c1 time0 time1 radius m r t_min t_max rec =
  match
    accepted_root
      (quadratic (moving_center c0 c1 time0 time1 (time r)) radius r)
      t_min t_max
  with
  | Some root =>
      (true, moving_sphere_accept (moving_center c0 c1 time0 time1 (time r))
                                  radius m r root rec)
  | None => (false, rec)
  end.
Proof.
  unfold moving_sphere_hit, accepted_root, quadratic, outside.
  rewrite (dot_comm (direction r)
                    (vsub (origin r) (moving_center c0 c1 time0 time1 (time r)))).
  destruct (_ <? 0); [reflexivity|].
  destruct (_ || _); simpl; [|reflexivity].
  destruct (_ || _); reflexivity.
Qed.

Lemma sphere_accept_t center radius m r root rec :
  t (sphere_accept center radius m r root rec) = root.
Proof.
  unfold sphere_accept. destruct (get_sphere_uv _). reflexivity.
Qed.

Lemma moving_sphere_accept_t c radius m r root rec :
  t (moving_sphere_accept c radius m r root rec) = root.
Proof. reflexivity. Qed.

(** *** A miss leaves the caller's record alone *)

Lemma scan_false {A : Type}
  (f : A -> float -> hit_record -> world -> (bool * hit_record) * world)
  objects : forall temp ha c rec w,
  fst (fst (scan f objects temp ha c rec w)) = false ->
  ha = false /\ snd (fst (scan f objects temp ha c rec w)) = rec.
Proof.
  induction objects as [|o rest IH]; intros temp ha c rec w H.
  - simpl in *. auto.
  - cbn [scan] in *. destruct (f o c temp w) as [[ok temp'] w'].
    destruct ok.
    + apply IH in H. destruct H; discriminate.
    + apply IH in H. exact H.
Qed.

Lemma medium_sample_false ph d r t_min t_max t1 t2 rec w :
  fst (fst (medium_sample ph d r t_min t_max t1 t2 rec w)) = false ->
  snd (fst (medium_sample ph d r t_min t_max t1 t2 rec w)) = rec.
Proof.
  unfold medium_sample.
  destruct (_ <=? _); [reflexivity|].
  destruct (random_double w) as [rnd w'].
  destruct (_ <? _); [reflexivity|discriminate].
Qed.

Lemma hit_false_keeps h : forall r t_min t_max rec w,
  fst (fst (hit h r t_min t_max rec w)) = false ->
  snd (fst (hit h r t_min t_max rec w)) = rec.
Proof.
  induction h as [c rad m|c0 c1 t0 t1 rad m|bd ph d IH|objects IH|l rt box IHl IHr]
    using hittable_induction; intros r t_min t_max rec w.
  - cbn [hit fst snd]. rewrite sphere_hit_root.
    destruct (accepted_root _ _ _); [discriminate|reflexivity].
  - cbn [hit fst snd]. rewrite moving_sphere_hit_root.
    destruct (accepted_root _ _ _); [discriminate|reflexivity].
  - cbn [hit].
    destruct (hit bd r neg_infinity infinity hit_record_default w)
      as [[ok1 rec1] w1].
    destruct ok1; [|reflexivity]. cbn [negb].
    destruct (hit bd r _ infinity hit_record_default w1) as [[ok2 rec2] w2].
    destruct ok2; [|reflexivity]. cbn [negb].
    apply medium_sample_false.
  - cbn [hit]. intros H. apply scan_false in H. tauto.
  - cbn [hit]. destruct (negb (aabb_hit box r t_min t_max)); [reflexivity|].
    pose proof (IHl r t_min t_max rec w) as Hl.
    destruct (hit l r t_min t_max rec w) as [[okl rec1] w1].
    pose proof (IHr r t_min (if okl then t rec1 else t_max) rec1 w1) as Hr.
    destruct (hit rt r t_min _ rec1 w1) as [[okr rec2] w2].
    simpl in *. intros H. apply orb_false_iff in H. destruct H; subst.
    rewrite Hr by reflexivity. apply Hl. reflexivity.
Qed.
End Queries.

Section Answers.
Context {P : Platform}.

(** *** Without a medium the answer depends on the query alone *)

Lemma scan_agree (f : hittable -> float -> hit_record -> world ->
                      (bool * hit_record) * world) objects :
  Forall (fun o => forall c rec1 w1 rec2 w2,
              agree (f o c rec1 w1) (f o c rec2 w2) rec1 rec2 w1 w2) objects ->
  forall temp1 temp2 ha c rec1 rec2 w1 w2,
    (ha = true -> t rec1 = t rec2) ->
    fst (fst (scan f objects temp1 ha c rec1 w1)) =
    fst (fst (scan f objects temp2 ha c rec2 w2)) /\
    snd (scan f objects temp1 ha c rec1 w1) = w1 /\
    snd (scan f objects temp2 ha c rec2 w2) = w2 /\
    (fst (fst (scan f objects temp1 ha c rec1 w1)) = true ->
     t (snd (fst (scan f objects temp1 ha c rec1 w1))) =
     t (snd (fst (scan f objects temp2 ha c rec2 w2)))).
Proof.
  induction 1 as [|o rest Ho Hrest IH]; intros temp1 temp2 ha c rec1 rec2 w1 w2 Ht.
  - simpl. auto.
  - cbn [scan].
    destruct (Ho c temp1 w1 temp2 w2) as (A1 & A2 & A3 & A4 & A5).
    destruct (f o c temp1 w1) as [[ok1 t1'] w1'].
    destruct (f o c temp2 w2) as [[ok2 t2'] w2'].
    simpl in *. subst ok2 w1' w2'. destruct ok1.
    + rewrite (A4 eq_refl). apply IH. intros _. apply A4. reflexivity.
    + apply IH. exact Ht.
Qed.

Lemma hit_agree h : medium_free h = true ->
  forall r t_min t_max rec1 w1 rec2 w2,
    agree (hit h r t_min t_max rec1 w1) (hit h r t_min t_max rec2 w2)
          rec1 rec2 w1 w2.
Proof.
  induction h as [c rad m|c0 c1 t0 t1 rad m|bd ph d IH|objects IH|l rt box IHl IHr]
    using hittable_induction; intros Hfree r t_min t_max rec1 w1 rec2 w2.
  - cbn [hit]. rewrite !sphere_hit_root. unfold agree.
    destruct (accepted_root _ _ _); simpl; rewrite ?sphere_accept_t;
      repeat split; auto; discriminate.
  - cbn [hit]. rewrite !moving_sphere_hit_root. unfold agree.
    destruct (accepted_root _ _ _); simpl; repeat split; auto; discriminate.
  - discriminate.
  - cbn [hit]. simpl in Hfree. rewrite forallb_forall in Hfree.
    assert (Forall (fun o => forall c rec1 w1 rec2 w2,
                        agree (hit o r t_min c rec1 w1) (hit o r t_min c rec2 w2)
                              rec1 rec2 w1 w2) objects) as Hall.
    { rewrite Forall_forall in *. intros o Hin c rec1' w1' rec2' w2'.
      apply IH; auto. }
    pose proof (scan_agree (fun o c => hit o r t_min c) objects Hall
                  hit_record_default hit_record_default false t_max
                  rec1 rec2 w1 w2) as S.
    destruct S as (S1 & S2 & S3 & S4); [discriminate|].
    unfold agree. split; [exact S1|]. split; [exact S2|].
    split; [exact S3|]. split; [exact S4|].
    intros Hf. split.
    + apply (scan_false _ _ _ _ _ _ _ Hf).
    + rewrite S1 in Hf. apply (scan_false _ _ _ _ _ _ _ Hf).
  - cbn [hit]. simpl in Hfree. apply andb_true_iff in Hfree.
    destruct Hfree as [Fl Fr].
    destruct (negb (aabb_hit box r t_min t_max)).
    { unfold agree; simpl. repeat split; auto; discriminate. }
    destruct (IHl Fl r t_min t_max rec1 w1 rec2 w2) as (A1 & A2 & A3 & A4 & A5).
    destruct (hit l r t_min t_max rec1 w1) as [[okl r1] w1'].
    destruct (hit l r t_min t_max rec2 w2) as [[okl2 r2] w2'].
    simpl in A1, A2, A3, A4, A5. subst okl2 w1' w2'.
    assert ((if okl then t r1 else t_max) = (if okl then t r2 else t_max)) as Eb.
    { destruct okl; auto. }
    rewrite <- Eb.
    destruct (IHr Fr r t_min (if okl then t r1 else t_max) r1 w1 r2 w2)
      as (B1 & B2 & B3 & B4 & B5).
    destruct (hit rt r t_min _ r1 w1) as [[okr r1'] w1''].
    destruct (hit rt r t_min _ r2 w2) as [[okr2 r2'] w2''].
    simpl in B1, B2, B3, B4, B5. subst okr2 w1'' w2''.
    unfold agree; simpl. split; [reflexivity|]. split; [reflexivity|].
    split; [reflexivity|]. split.
    + intros Hf. destruct okr; [auto|].
      destruct (B5 eq_refl) as [-> ->].
      rewrite orb_false_r in Hf. auto.
    + intros Hf. apply orb_false_iff in Hf. destruct Hf as [-> ->].
      destruct (B5 eq_refl) as [-> ->]. apply A5. reflexivity.
Qed.

(** A query on a hittable without medium gives the caller the answer
    [hit_param], whatever record and world it starts from. *)
Lemma hit_answer h r t_min t_max rec w :
  medium_free h = true ->
  exists rec',
    hit h r t_min t_max rec w =
    ((match hit_param h r t_min t_max with Some _ => true | None => false end,
      rec'), w) /\
    (forall tx, hit_param h r t_min t_max = Some tx -> t rec' = tx) /\
    (hit_param h r t_min t_max = None -> rec' = rec).
Proof.
  intros Hfree.
  destruct (hit_agree h Hfree r t_min t_max rec w hit_record_default
                      (mkWorld 0 [])) as (A1 & A2 & A3 & A4 & A5).
  unfold hit_param.
  destruct (hit h r t_min t_max rec w) as [[ok rec'] w'].
  destruct (hit h r t_min t_max hit_record_default (mkWorld 0 []))
    as [[ok0 rec0] w0].
  simpl in *. subst ok0 w' w0. exists rec'. destruct ok.
  - split; [reflexivity|]. split; [|discriminate].
    intros tx E. inversion E. auto.
  - split; [reflexivity|]. split; [discriminate|].
    intros _. apply A5. reflexivity.
Qed.
End Answers.

Section Repeats.
Context {P : Platform}.

(** *** The runs of a query *)

Lemma hit_record_default_uninitialised : uninitialised hit_record_default.
Proof. repeat split. Qed.

Lemma scan_is_a_run
  (f : hittable -> float -> hit_record -> world -> (bool * hit_record) * world)
  (g : hittable -> float -> hit_record -> world ->
       (bool * hit_record) * world -> Prop) objects :
  Forall (fun o => forall c rec w, g o c rec w (f o c rec w)) objects ->
  forall temp ha c rec w,
    scan_runs g objects temp ha c rec w (scan f objects temp ha c rec w).
Proof.
  induction 1 as [|o rest Ho Hrest IH]; intros temp ha c rec w.
  - reflexivity.
  - cbn [scan scan_runs]. specialize (Ho c temp w).
    destruct (f o c temp w) as [[ok temp'] w'].
    exists ok, temp', w'. split; [exact Ho|].
    destruct ok; apply IH.
Qed.

(** [hit] is the run in which every uninitialised record holds the
    platform's values. *)
Lemma hit_is_a_run h : forall r t_min t_max rec w,
  hit_runs h r t_min t_max rec w (hit h r t_min t_max rec w).
Proof.
  induction h as [c rad m|c0 c1 t0 t1 rad m|bd ph d IH|objects IH
                 |l rt box IHl IHr]
    using hittable_induction; intros r t_min t_max rec w.
  - reflexivity.
  - reflexivity.
  - cbn [hit hit_runs].
    pose proof (IH r neg_infinity infinity hit_record_default w) as R1.
    destruct (hit bd r neg_infinity infinity hit_record_default w)
      as [[ok1 rec1] w1].
    exists hit_record_default, ok1, rec1, w1.
    split; [apply hit_record_default_uninitialised|]. split; [exact R1|].
    destruct ok1; cbn [negb]; [|reflexivity].
    pose proof (IH r (t rec1 + 0x1.a36e2eb1c432dp-14) infinity
                   hit_record_default w1) as R2.
    destruct (hit bd r (t rec1 + 0x1.a36e2eb1c432dp-14) infinity
                  hit_record_default w1) as [[ok2 rec2] w2].
    exists hit_record_default, ok2, rec2, w2.
    split; [apply hit_record_default_uninitialised|]. split; [exact R2|].
    destruct ok2; reflexivity.
  - cbn [hit hit_runs]. exists hit_record_default.
    split; [apply hit_record_default_uninitialised|].
    apply scan_is_a_run. rewrite Forall_forall in *.
    intros o Hin c rec' w'. apply IH. exact Hin.
  - cbn [hit hit_runs].
    destruct (negb (aabb_hit box r t_min t_max)); [reflexivity|].
    pose proof (IHl r t_min t_max rec w) as Rl.
    destruct (hit l r t_min t_max rec w) as [[okl rec1] w1].
    pose proof (IHr r t_min (if okl then t rec1 else t_max) rec1 w1) as Rr.
    destruct (hit rt r t_min (if okl then t rec1 else t_max) rec1 w1)
      as [[okr rec2] w2].
    exists okl, rec1, w1, okr, rec2, w2. auto.
Qed.

Lemma same_but_uv_refl rec : same_but_uv rec rec.
Proof. repeat split. Qed.

Lemma scan_runs_alike
  (g : hittable -> float -> hit_record -> world ->
       (bool * hit_record) * world -> Prop) objects :
  Forall (fun o => forall c rec1 w1 res1 rec2 w2 res2,
              g o c rec1 w1 res1 -> g o c rec2 w2 res2 ->
              alike (writes_all o) rec1 rec2 w1 w2 res1 res2) objects ->
  forall full, (full = true -> forallb writes_all objects = true) ->
  forall temp1 temp2 ha c rec1 rec2 w1 w2 res1 res2,
    (ha = true -> same_but_uv rec1 rec2 /\ (full = true -> rec1 = rec2)) ->
    scan_runs g objects temp1 ha c rec1 w1 res1 ->
    scan_runs g objects temp2 ha c rec2 w2 res2 ->
    snd res1 = w1 /\ snd res2 = w2 /\
    fst (fst res1) = fst (fst res2) /\
    (fst (fst res1) = true ->
     same_but_uv (snd (fst res1)) (snd (fst res2)) /\
     (full = true -> snd (fst res1) = snd (fst res2))) /\
    (fst (fst res1) = false ->
     ha = false /\ snd (fst res1) = rec1 /\ snd (fst res2) = rec2).
Proof.
  induction 1 as [|o rest Ho Hrest IH]; intros full Hfull
    temp1 temp2 ha c rec1 rec2 w1 w2 res1 res2 Hrec R1 R2.
  - cbn [scan_runs] in R1, R2. subst res1 res2. cbn [fst snd].
    split; [reflexivity|]. split; [reflexivity|]. split; [reflexivity|].
    split; [exact Hrec|]. intros E. auto.
  - cbn [scan_runs] in R1, R2.
    destruct R1 as (ok1 & t1' & w1' & M1 & R1).
    destruct R2 as (ok2 & t2' & w2' & M2 & R2).
    destruct (Ho c temp1 w1 _ temp2 w2 _ M1 M2) as (A1 & A2 & A3 & A4 & A5).
    cbn [fst snd] in A1, A2, A3, A4, A5. subst w1' w2' ok2.
    assert (full = true -> forallb writes_all rest = true) as Hfull'.
    { intros F. specialize (Hfull F). cbn [forallb] in Hfull.
      apply andb_true_iff in Hfull. apply Hfull. }
    destruct ok1.
    + destruct (A4 eq_refl) as [Sa W].
      assert (t t1' = t t2') as Et by apply Sa.
      rewrite <- Et in R2.
      destruct (IH full Hfull' t1' t2' true (t t1') t1' t2' w1 w2 res1 res2)
        as (B1 & B2 & B3 & B4 & B5); auto.
      { intros _. split; [exact Sa|]. intros F. apply W.
        specialize (Hfull F). cbn [forallb] in Hfull.
        apply andb_true_iff in Hfull. apply Hfull. }
      split; [exact B1|]. split; [exact B2|]. split; [exact B3|].
      split; [exact B4|]. intros E. destruct (B5 E) as [? _]. discriminate.
    + destruct (A5 eq_refl) as [-> ->].
      apply (IH full Hfull' temp1 temp2 ha c rec1 rec2 w1 w2 res1 res2);
        assumption.
Qed.

Lemma hit_runs_alike h : medium_free h = true ->
  forall r t_min t_max rec1 w1 res1 rec2 w2 res2,
    hit_runs h r t_min t_max rec1 w1 res1 ->
    hit_runs h r t_min t_max rec2 w2 res2 ->
    alike (writes_all h) rec1 rec2 w1 w2 res1 res2.
Proof.
  induction h as [c rad m|c0 c1 t0 t1 rad m|bd ph d IH|objects IH
                 |l rt box IHl IHr]
    using hittable_induction;
    intros Hfree r t_min t_max rec1 w1 res1 rec2 w2 res2 R1 R2.
  - cbn [hit_runs] in R1, R2. subst res1 res2.
    rewrite !sphere_hit_root. unfold alike.
    destruct (accepted_root _ _ _) as [root|]; cbn [fst snd].
    + repeat split; try discriminate;
        unfold sphere_accept; destruct (get_sphere_uv _); reflexivity.
    + repeat split; discriminate.
  - cbn [hit_runs] in R1, R2. subst res1 res2.
    rewrite !moving_sphere_hit_root. unfold alike.
    destruct (accepted_root _ _ _) as [root|]; cbn [fst snd];
      repeat split; discriminate.
  - discriminate.
  - cbn [hit_runs] in R1, R2.
    destruct R1 as (temp1 & _ & R1). destruct R2 as (temp2 & _ & R2).
    cbn [medium_free] in Hfree. rewrite forallb_forall in Hfree.
    destruct (scan_runs_alike (fun o c => hit_runs o r t_min c) objects)
      with (full := forallb writes_all objects) (temp1 := temp1)
           (temp2 := temp2) (ha := false) (c := t_max) (rec1 := rec1)
           (rec2 := rec2) (w1 := w1) (w2 := w2) (res1 := res1)
           (res2 := res2) as (B1 & B2 & B3 & B4 & B5); auto.
    { rewrite Forall_forall in *. intros o Hin c ra wa resa rb wb resb Ra Rb.
      apply (IH o Hin (Hfree o Hin) r t_min c ra wa resa rb wb resb Ra Rb). }
    { discriminate. }
    unfold alike. cbn [writes_all].
    split; [exact B1|]. split; [exact B2|]. split; [exact B3|].
    split; [exact B4|]. intros E. apply (B5 E).
  - cbn [hit_runs] in R1, R2. cbn [medium_free] in Hfree.
    apply andb_true_iff in Hfree. destruct Hfree as [Fl Fr].
    destruct (negb (aabb_hit box r t_min t_max)).
    { subst res1 res2. unfold alike. cbn [fst snd].
      repeat split; discriminate. }
    destruct R1 as (okl1 & ra1 & wa1 & okr1 & rb1 & wb1 & L1 & Rt1 & ->).
    destruct R2 as (okl2 & ra2 & wa2 & okr2 & rb2 & wb2 & L2 & Rt2 & ->).
    destruct (IHl Fl r t_min t_max rec1 w1 _ rec2 w2 _ L1 L2)
      as (A1 & A2 & A3 & A4 & A5).
    cbn [fst snd] in A1, A2, A3, A4, A5. subst wa1 wa2 okl2.
    assert ((if okl1 then t ra2 else t_max) =
            (if okl1 then t ra1 else t_max)) as Eb.
    { destruct okl1; [|reflexivity].
      destruct (A4 eq_refl) as [Sa _]. symmetry. apply Sa. }
    rewrite Eb in Rt2.
    destruct (IHr Fr r t_min _ ra1 w1 _ ra2 w2 _ Rt1 Rt2)
      as (B1 & B2 & B3 & B4 & B5).
    cbn [fst snd] in B1, B2, B3, B4, B5. subst wb1 wb2 okr2.
    unfold alike. cbn [fst snd writes_all].
    split; [reflexivity|]. split; [reflexivity|]. split; [reflexivity|].
    split.
    + intros Hok. destruct okr1.
      * destruct (B4 eq_refl) as [Sb Wb]. split; [exact Sb|].
        intros W. apply andb_true_iff in W. apply Wb, W.
      * destruct (B5 eq_refl) as [-> ->]. rewrite orb_false_r in Hok.
        destruct (A4 Hok) as [Sa Wa]. split; [exact Sa|].
        intros W. apply andb_true_iff in W. apply Wa, W.
    + intros Hok. apply orb_false_iff in Hok. destruct Hok as [-> ->].
      destruct (B5 eq_refl) as [-> ->]. apply A5. reflexivity.
Qed.

(** C8 (amended).  On a scene without [constant_medium] a query
    returns ([hit] is one of its runs), draws nothing from the generator
    and writes nothing; asked again, whatever the uninitialised records
    hold either time, it gives the same outcome and the same point,
    normal, material, parameter and [front_face].  When the scene holds
    no moving sphere either, the two results are identical, [u] and [v]
    included. *)
Theorem repeated_query_without_medium (h : hittable) (r : ray)
  (t_min t_max : float) (rec : hit_record) (w : world) :
  medium_free h = true ->
  hit_runs h r t_min t_max rec w (hit h r t_min t_max rec w) /\
  (forall first second,
      hit_runs h r t_min t_max rec w first ->
      hit_runs h r t_min t_max rec (snd first) second ->
      snd first = w /\ snd second = w /\
      fst (fst second) = fst (fst first) /\
      same_but_uv (snd (fst second)) (snd (fst first)) /\
      (writes_all h = true -> second = first)).
Proof.
  intros Hfree. split.
  - apply hit_is_a_run.
  - intros first second R1 R2.
    destruct (hit_runs_alike h Hfree r t_min t_max rec w first rec
                (snd first) second R1 R2) as (A1 & A2 & A3 & A4 & A5).
    split; [exact A1|]. split; [rewrite A2; exact A1|].
    split; [symmetry; exact A3|].
    destruct first as [[ok1 ra] wa], second as [[ok2 rb] wb].
    cbn [fst snd] in *. subst wa wb ok2. destruct ok1.
    + destruct (A4 eq_refl) as [Sa W]. split.
      * destruct Sa as (S1 & S2 & S3 & S4 & S5).
        repeat split; symmetry; assumption.
      * intros F. rewrite (W F). reflexivity.
    + destruct (A5 eq_refl) as [-> ->].
      split; [apply same_but_uv_refl|reflexivity].
Qed.
(** *** What uninitialised memory can change *)

Lemma medium_sample_same ph d r t_min t_max t1 t2 rec1 rec2 w :
  same_run rec1 rec2
    (medium_sample ph d r t_min t_max t1 t2 rec1 w)
    (medium_sample ph d r t_min t_max t1 t2 rec2 w).
Proof.
  unfold medium_sample, same_run, random_double.
  destruct (_ <=? _); cbn [fst snd];
    [repeat split; discriminate|].
  destruct (_ <? _); cbn [fst snd]; repeat split; discriminate.
Qed.

Lemma scan_runs_same
  (g : hittable -> float -> hit_record -> world ->
       (bool * hit_record) * world -> Prop) objects :
  Forall (fun o => forall c rec1 rec2 w res1 res2,
              g o c rec1 w res1 -> g o c rec2 w res2 ->
              same_run rec1 rec2 res1 res2) objects ->
  forall temp1 temp2 ha c rec1 rec2 w res1 res2,
    (ha = true -> same_but_uv rec1 rec2) ->
    scan_runs g objects temp1 ha c rec1 w res1 ->
    scan_runs g objects temp2 ha c rec2 w res2 ->
    snd res1 = snd res2 /\
    fst (fst res1) = fst (fst res2) /\
    (fst (fst res1) = true ->
     same_but_uv (snd (fst res1)) (snd (fst res2))) /\
    (fst (fst res1) = false ->
     ha = false /\ snd (fst res1) = rec1 /\ snd (fst res2) = rec2).
Proof.
  induction 1 as [|o rest Ho Hrest IH];
    intros temp1 temp2 ha c rec1 rec2 w res1 res2 Hrec R1 R2.
  - cbn [scan_runs] in R1, R2. subst res1 res2. cbn [fst snd].
    split; [reflexivity|]. split; [reflexivity|].
    split; [exact Hrec|]. intros E. auto.
  - cbn [scan_runs] in R1, R2.
    destruct R1 as (ok1 & t1' & w1' & M1 & R1).
    destruct R2 as (ok2 & t2' & w2' & M2 & R2).
    destruct (Ho c temp1 temp2 w _ _ M1 M2) as (A1 & A2 & A3 & A4).
    cbn [fst snd] in A1, A2, A3, A4. subst w2' ok2.
    destruct ok1.
    + pose proof (A3 eq_refl) as Sa.
      assert (t t1' = t t2') as Et by apply Sa.
      rewrite <- Et in R2.
      destruct (IH t1' t2' true (t t1') t1' t2' w1' res1 res2)
        as (B1 & B2 & B3 & B4); auto.
      split; [exact B1|]. split; [exact B2|]. split; [exact B3|].
      intros E. destruct (B4 E) as [? _]. discriminate.
    + destruct (A4 eq_refl) as [-> ->].
      apply (IH temp1 temp2 ha c rec1 rec2 w1' res1 res2); assumption.
Qed.

Lemma hit_runs_same h :
  forall r t_min t_max rec1 rec2 w res1 res2,
    hit_runs h r t_min t_max rec1 w res1 ->
    hit_runs h r t_min t_max rec2 w res2 ->
    same_run rec1 rec2 res1 res2.
Proof.
  induction h as [c rad m|c0 c1 t0 t1 rad m|bd ph d IH|objects IH
                 |l rt box IHl IHr]
    using hittable_induction;
    intros r t_min t_max rec1 rec2 w res1 res2 R1 R2.
  - cbn [hit_runs] in R1, R2. subst res1 res2.
    rewrite !sphere_hit_root. unfold same_run.
    destruct (accepted_root _ _ _) as [root|]; cbn [fst snd].
    + repeat split; try discriminate;
        unfold sphere_accept; destruct (get_sphere_uv _); reflexivity.
    + repeat split; discriminate.
  - cbn [hit_runs] in R1, R2. subst res1 res2.
    rewrite !moving_sphere_hit_root. unfold same_run.
    destruct (accepted_root _ _ _) as [root|]; cbn [fst snd];
      repeat split; discriminate.
  - cbn [hit_runs] in R1, R2.
    destruct R1 as (g1 & ok1 & ra1 & wa1 & _ & B1 & R1).
    destruct R2 as (g2 & ok2 & ra2 & wa2 & _ & B2 & R2).
    destruct (IH r _ _ g1 g2 w _ _ B1 B2) as (A1 & A2 & A3 & _).
    cbn [fst snd] in A1, A2, A3. subst wa2 ok2.
    destruct ok1; cbn [negb] in R1, R2.
    + assert (t ra2 = t ra1) as Et by (symmetry; apply (A3 eq_refl)).
      destruct R1 as (h1 & okb1 & rb1 & wb1 & _ & C1 & R1).
      destruct R2 as (h2 & okb2 & rb2 & wb2 & _ & C2 & R2).
      rewrite Et in C2.
      destruct (IH r _ _ h1 h2 wa1 _ _ C1 C2) as (D1 & D2 & D3 & _).
      cbn [fst snd] in D1, D2, D3. subst wb2 okb2.
      destruct okb1; cbn [negb] in R1, R2.
      * assert (t rb2 = t rb1) as Eb by (symmetry; apply (D3 eq_refl)).
        subst res1 res2. rewrite Et, Eb. apply medium_sample_same.
      * subst res1 res2. unfold same_run. cbn [fst snd].
        repeat split; discriminate.
    + subst res1 res2. unfold same_run. cbn [fst snd].
      repeat split; discriminate.
  - cbn [hit_runs] in R1, R2.
    destruct R1 as (temp1 & _ & R1). destruct R2 as (temp2 & _ & R2).
    destruct (scan_runs_same (fun o c => hit_runs o r t_min c) objects)
      with (temp1 := temp1) (temp2 := temp2) (ha := false) (c := t_max)
           (rec1 := rec1) (rec2 := rec2) (w := w) (res1 := res1)
           (res2 := res2) as (B1 & B2 & B3 & B4); auto.
    { rewrite Forall_forall in *. intros o Hin c ra rb w' resa resb Ra Rb.
      apply (IH o Hin r t_min c ra rb w' resa resb Ra Rb). }
    { discriminate. }
    unfold same_run.
    split; [exact B1|]. split; [exact B2|]. split; [exact B3|].
    intros E. apply (B4 E).
  - cbn [hit_runs] in R1, R2.
    destruct (negb (aabb_hit box r t_min t_max)).
    { subst res1 res2. unfold same_run. cbn [fst snd].
      repeat split; discriminate. }
    destruct R1 as (okl1 & ra1 & wa1 & okr1 & rb1 & wb1 & L1 & Rt1 & ->).
    destruct R2 as (okl2 & ra2 & wa2 & okr2 & rb2 & wb2 & L2 & Rt2 & ->).
    destruct (IHl r t_min t_max rec1 rec2 w _ _ L1 L2)
      as (A1 & A2 & A3 & A4).
    cbn [fst snd] in A1, A2, A3, A4. subst wa2 okl2.
    assert ((if okl1 then t ra2 else t_max) =
            (if okl1 then t ra1 else t_max)) as Eb.
    { destruct okl1; [|reflexivity]. symmetry. apply (A3 eq_refl). }
    rewrite Eb in Rt2.
    destruct (IHr r t_min _ ra1 ra2 wa1 _ _ Rt1 Rt2)
      as (B1 & B2 & B3 & B4).
    cbn [fst snd] in B1, B2, B3, B4. subst wb2 okr2.
    unfold same_run. cbn [fst snd].
    split; [reflexivity|]. split; [reflexivity|]. split.
    + intros Hok. destruct okr1.
      * apply B3. reflexivity.
      * destruct (B4 eq_refl) as [-> ->]. rewrite orb_false_r in Hok.
        apply A3. exact Hok.
    + intros Hok. apply orb_false_iff in Hok. destruct Hok as [-> ->].
      destruct (B4 eq_refl) as [-> ->]. apply A4. reflexivity.
Qed.

(** X29. Whatever the local records declared without initialiser hold
    ([temp_rec] in [hittable_list::hit], [rec1] and [rec2] in
    [constant_medium::hit]), a query made in a given world ends in the
    same world, with the same outcome and the same point, normal,
    material, parameter and [front_face] as [hit], the run in which they
    hold the platform's values: that memory can show in [u] and [v]
    only.  This holds for every hittable, media included. *)
Theorem uninitialised_memory_shows_in_uv_only (h : hittable) (r : ray)
  (t_min t_max : float) (rec : hit_record) (w : world)
  (res : (bool * hit_record) * world) :
  hit_runs h r t_min t_max rec w res ->
  snd res = snd (hit h r t_min t_max rec w) /\
  fst (fst res) = fst (fst (hit h r t_min t_max rec w)) /\
  same_but_uv (snd (fst res)) (snd (fst (hit h r t_min t_max rec w))).
Proof.
  intros R.
  destruct (hit_runs_same h r t_min t_max rec rec w res
              (hit h r t_min t_max rec w) R (hit_is_a_run h r _ _ _ _))
    as (A1 & A2 & A3 & A4).
  split; [exact A1|]. split; [exact A2|].
  destruct (fst (fst res)) eqn:E.
  - apply A3. reflexivity.
  - destruct (A4 eq_refl) as [E1 E2]. rewrite E1, E2.
    apply same_but_uv_refl.
Qed.
End Repeats.


Section Range.
Context {P : Platform}.

(** *** The parameter of a hit lies in the interval *)

Lemma inside_interval t_min t_max root :
  is_nan t_min = false -> is_nan t_max = false -> is_nan root = false ->
  outside t_min t_max root = false ->
  (t_min <=? root) = true /\ (root <=? t_max) = true.
Proof.
  intros Na Nb Nr H. unfold outside in H. apply orb_false_iff in H.
  destruct H as [H1 H2]. split; apply fle_total; auto.
Qed.

Lemma accepted_root_numeric q t_min t_max root :
  numeric q = true ->
  is_nan t_min = false -> is_nan t_max = false ->
  accepted_root q t_min t_max = Some root ->
  (t_min <=? root) = true /\ (root <=? t_max) = true.
Proof.
  destruct q as [[d r1] r2]. intros Hq Na Nb H.
  unfold accepted_root in H. unfold numeric in Hq.
  destruct (d <? 0); [discriminate|]. simpl in Hq.
  apply andb_true_iff in Hq. destruct Hq as [N1 N2].
  apply negb_true_iff in N1, N2.
  destruct (outside t_min t_max r1) eqn:O1; simpl in H.
  - destruct (outside t_min t_max r2) eqn:O2; simpl in H; [discriminate|].
    inversion H; subst. apply inside_interval; auto.
  - inversion H; subst. apply inside_interval; auto.
Qed.

Lemma scan_in_range
  (f : hittable -> float -> hit_record -> world -> (bool * hit_record) * world)
  t_min objects :
  is_nan t_min = false ->
  Forall (fun o => forall c rec w,
              is_nan c = false ->
              fst (fst (f o c rec w)) = true ->
              (t_min <=? t (snd (fst (f o c rec w)))) = true /\
              (t (snd (fst (f o c rec w))) <=? c) = true) objects ->
  forall temp ha c rec w,
    is_nan c = false ->
    (ha = true -> (t_min <=? t rec) = true /\ (t rec <=? c) = true) ->
    fst (fst (scan f objects temp ha c rec w)) = true ->
    (t_min <=? t (snd (fst (scan f objects temp ha c rec w)))) = true /\
    (t (snd (fst (scan f objects temp ha c rec w))) <=? c) = true.
Proof.
  intros Na. induction 1 as [|o rest Ho Hrest IH]; intros temp ha c rec w Nc Hinv Hok.
  - simpl in *. auto.
  - cbn [scan] in *. specialize (Ho c temp w Nc).
    destruct (f o c temp w) as [[ok temp'] w']. simpl in Ho. destruct ok.
    + destruct (Ho eq_refl) as [L U].
      destruct (fle_nonnan _ _ L) as [_ Nt].
      destruct (IH temp' true (t temp') temp' w' Nt) as [L' U']; auto.
      { intros _. split; [exact L|apply fle_refl; exact Nt]. }
      split; [exact L'|]. eapply fle_trans; eauto.
    + apply IH; auto.
Qed.

(** C3 (amended).  For a hittable made of spheres, moving spheres, lists
    and [bvh_node]s (no [constant_medium]), a ray for which every sphere
    met is missed or has two roots that are numbers, and an interval whose
    ends are numbers: whenever [hit] returns true the parameter of the
    record satisfies [tMin <= parameterT <= tMax]. *)
Theorem hit_parameter_in_interval (h : hittable) (r : ray)
  (t_min t_max : float) (rec : hit_record) (w : world) :
  numeric_roots r h = true ->
  is_nan t_min = false -> is_nan t_max = false ->
  fst (fst (hit h r t_min t_max rec w)) = true ->
  (t_min <=? t (snd (fst (hit h r t_min t_max rec w)))) = true /\
  (t (snd (fst (hit h r t_min t_max rec w))) <=? t_max) = true.
Proof.
  intros Hnum Na. revert Hnum t_max rec w.
  induction h as [c rad m|c0 c1 t0 t1 rad m|bd ph d IH|objects IH|l rt box IHl IHr]
    using hittable_induction; intros Hnum t_max rec w Nb Hok.
  - cbn [hit fst snd] in *. rewrite sphere_hit_root in *.
    destruct (accepted_root _ _ _) as [root|] eqn:E; [|discriminate].
    cbn [fst snd]. rewrite sphere_accept_t.
    exact (accepted_root_numeric (quadratic c rad r) _ _ _ Hnum Na Nb E).
  - cbn [hit fst snd] in *. rewrite moving_sphere_hit_root in *.
    destruct (accepted_root _ _ _) as [root|] eqn:E; [|discriminate].
    cbn [fst snd]. rewrite moving_sphere_accept_t.
    exact (accepted_root_numeric
             (quadratic (moving_center c0 c1 t0 t1 (time r)) rad r)
             _ _ _ Hnum Na Nb E).
  - discriminate.
  - cbn [hit] in *. simpl in Hnum. rewrite forallb_forall in Hnum.
    apply scan_in_range; auto.
    + rewrite Forall_forall in *. intros o Hin c rec' w' Nc Hok'.
      apply IH; auto.
    + discriminate.
  - cbn [hit] in *. simpl in Hnum. apply andb_true_iff in Hnum.
    destruct Hnum as [Hl Hr].
    destruct (negb (aabb_hit box r t_min t_max)); [discriminate|].
    pose proof (IHl Hl t_max rec w Nb) as Il.
    pose proof (hit_false_keeps l r t_min t_max rec w) as Kl.
    destruct (hit l r t_min t_max rec w) as [[okl rec1] w1].
    simpl in Il, Kl.
    assert (is_nan (if okl then t rec1 else t_max) = false) as Nb'.
    { destruct okl; auto. destruct (Il eq_refl) as [L _].
      apply (fle_nonnan _ _ L). }
    pose proof (IHr Hr (if okl then t rec1 else t_max) rec1 w1 Nb') as Ir.
    pose proof (hit_false_keeps rt r t_min (if okl then t rec1 else t_max)
                                rec1 w1) as Kr.
    destruct (hit rt r t_min _ rec1 w1) as [[okr rec2] w2].
    simpl in *. destruct okr.
    + destruct (Ir eq_refl) as [L U]. split; [exact L|].
      destruct okl; auto.
      destruct (Il eq_refl) as [_ U']. eapply fle_trans; eauto.
    + rewrite (Kr eq_refl). rewrite orb_false_r in Hok. subst okl.
      apply Il. reflexivity.
Qed.
End Range.

(** ** Spheres *)

Section SphereHit.
  Context {P : Platform}.

(** The record [sphere::hit] writes is the one the spec describes,
    whatever the caller's record held. *)
Lemma sphere_accept_in_words center radius m r root rec :
  sphere_accept center radius m r root rec =
  sphere_record_spec center radius m r root.
Proof. reflexivity. Qed.

(** Among numbers, to lie in the interval is to pass the root test. *)
Lemma lies_in_not_outside t_min t_max root :
  is_nan t_min = false -> is_nan t_max = false -> is_nan root = false ->
  lies_in t_min t_max root = negb (outside t_min t_max root).
Proof.
  intros Na Nb Nr. unfold lies_in, outside.
  destruct (root <? t_min) eqn:E1.
  - rewrite (flt_not_fle _ _ E1). reflexivity.
  - rewrite (fle_total _ _ Nr Na E1).
    destruct (t_max <? root) eqn:E2.
    + rewrite (flt_not_fle _ _ E2). reflexivity.
    + rewrite (fle_total _ _ Nb Nr E2). reflexivity.
Qed.

Lemma spec_accepts_root center radius m r t_min t_max :
  numeric (quadratic center radius r) = true ->
  is_nan t_min = false -> is_nan t_max = false ->
  sphere_hit_spec center radius m r t_min t_max =
  match accepted_root (quadratic center radius r) t_min t_max with
  | Some root => Some (sphere_record_spec center radius m r root)
  | None => None
  end.
Proof.
  unfold sphere_hit_spec, accepted_root, numeric.
  destruct (quadratic center radius r) as [[d r1] r2].
  intros Hq Na Nb. destruct (d <? 0); [reflexivity|]. simpl in Hq.
  apply andb_true_iff in Hq. destruct Hq as [N1 N2].
  apply negb_true_iff in N1, N2.
  rewrite (lies_in_not_outside t_min t_max r1 Na Nb N1).
  rewrite (lies_in_not_outside t_min t_max r2 Na Nb N2).
  destruct (negb (outside t_min t_max r1)); [reflexivity|].
  destruct (negb (outside t_min t_max r2)); reflexivity.
Qed.

(** C7 (amended).  When the two roots are numbers (or the discriminant
    is negative) and the ends of the interval are numbers, [sphere::hit]
    is the algorithm of the spec: with [discriminant = halfB^2 - a*c]
    negative there is no hit; otherwise the smaller root is accepted when
    it lies in [[tMin, tMax]], else the larger root when it does, and
    there is no hit when neither does; the record is the one the spec
    describes.  Scenario 1: the unit sphere at the origin, the ray from
    [(0,0,-5)] toward [(0,0,1)], [tMin = 0], [tMax] infinite: a hit with
    [t = 4], point [(0,0,-1)], normal [(0,0,-1)], front face. *)
Theorem sphere_hit_smaller_root_first :
  (forall center radius m r t_min t_max rec,
      numeric (quadratic center radius r) = true ->
      is_nan t_min = false -> is_nan t_max = false ->
      sphere_hit center radius m r t_min t_max rec =
      match sphere_hit_spec center radius m r t_min t_max with
      | Some rec' => (true, rec')
      | None => (false, rec)
      end) /\
  (forall rec,
      exists rec',
        sphere_hit (mkVec3 0 0 0) 1 None ray_z 0 infinity rec = (true, rec') /\
        t rec' = 4 /\
        p rec' = mkVec3 0 0 (-1) /\
        normal rec' = mkVec3 0 0 (-1) /\
        front_face rec' = true).
Proof.
  split.
  - intros center radius m r t_min t_max rec Hq Na Nb.
    rewrite sphere_hit_root, (spec_accepts_root _ _ _ _ _ _ Hq Na Nb).
    destruct (accepted_root _ _ _) as [root|]; [|reflexivity].
    rewrite sphere_accept_in_words. reflexivity.
  - intros rec. eexists. split; [reflexivity|].
    repeat split; reflexivity.
Qed.
End SphereHit.

Section Nearest.
Context {P : Platform}.

(** *** What a sphere answers when the interval shrinks *)

Lemma accepted_root_range q t_min t_max root :
  ordered q = true ->
  is_nan t_min = false -> is_nan t_max = false ->
  accepted_root q t_min t_max = Some root ->
  (t_min <=? root) = true /\ (root <=? t_max) = true.
Proof.
  destruct q as [[d r1] r2]. intros Hq Na Nb H.
  apply (accepted_root_numeric (d, r1, r2) t_min t_max root); auto.
  unfold ordered in Hq. unfold numeric. apply orb_true_iff in Hq.
  destruct Hq as [->|Hq]; [reflexivity|].
  destruct (fle_nonnan _ _ Hq) as [-> ->]. apply orb_true_r.
Qed.

Lemma outside_shrunk t_min c root :
  is_nan c = false -> is_nan root = false ->
  outside t_min c root = outside t_min infinity root || negb (root <=? c).
Proof.
  intros Nc Nr. unfold outside. rewrite infinity_not_flt, orb_false_r.
  destruct (root <? t_min); [reflexivity|]. simpl.
  destruct (c <? root) eqn:E.
  - rewrite (flt_not_fle _ _ E). reflexivity.
  - rewrite (fle_total _ _ Nc Nr E). reflexivity.
Qed.

Lemma accepted_root_shrink q t_min t_max c :
  ordered q = true ->
  is_nan t_min = false -> is_nan t_max = false -> is_nan c = false ->
  (c <=? t_max) = true ->
  accepted_root q t_min c =
  match accepted_root q t_min t_max with
  | Some root => if root <=? c then Some root else None
  | None => None
  end.
Proof.
  destruct q as [[d r1] r2]. intros Hq Na Nb Nc Hc.
  unfold ordered in Hq. unfold accepted_root.
  destruct (d <? 0); [reflexivity|]. simpl in Hq.
  destruct (fle_nonnan _ _ Hq) as [N1 N2].
  rewrite (outside_shrunk t_min c r1), (outside_shrunk t_min c r2),
    (outside_shrunk t_min t_max r1), (outside_shrunk t_min t_max r2); auto.
  unfold outside. rewrite !infinity_not_flt, !orb_false_r.
  assert ((r1 <=? c) = true -> (r1 <=? t_max) = true) as I1
      by (intros; eapply fle_trans; eauto).
  assert ((r2 <=? c) = true -> (r2 <=? t_max) = true) as I2
      by (intros; eapply fle_trans; eauto).
  assert ((r2 <=? c) = true -> (r1 <=? c) = true) as I3
      by (intros; eapply fle_trans; eauto).
  assert ((r2 <=? t_max) = true -> (r1 <=? t_max) = true) as I4
      by (intros; eapply fle_trans; eauto).
  destruct (r1 <? t_min), (r2 <? t_min),
    (r1 <=? c) eqn:C1, (r2 <=? c) eqn:C2,
    (r1 <=? t_max) eqn:B1, (r2 <=? t_max) eqn:B2;
    simpl; rewrite ?C1, ?C2; try reflexivity;
    try (specialize (I1 eq_refl); discriminate);
    try (specialize (I2 eq_refl); discriminate);
    try (specialize (I3 eq_refl); discriminate);
    try (specialize (I4 eq_refl); discriminate).
Qed.

Lemma hit_param_primitive h r q t_min t_max :
  primitive_quadratic h r = Some q ->
  hit_param h r t_min t_max = accepted_root q t_min t_max.
Proof.
  destruct h as [c rad m|c0 c1 t0 t1 rad m| | |]; simpl; intros H;
    try discriminate; inversion H; subst; unfold hit_param; cbn [hit].
  - rewrite sphere_hit_root.
    destruct (accepted_root _ _ _); [|reflexivity].
    rewrite sphere_accept_t. reflexivity.
  - rewrite moving_sphere_hit_root.
    destruct (accepted_root _ _ _); reflexivity.
Qed.

Lemma ordered_roots_quadratic r m :
  ordered_roots r m = true ->
  exists q, primitive_quadratic m r = Some q /\ ordered q = true.
Proof.
  unfold ordered_roots. destruct (primitive_quadratic m r) as [q|];
    [|discriminate].
  intros H. exists q. split; [reflexivity|exact H].
Qed.

(** An answer lies in the interval. *)
Lemma answer_in_range r m t_min t_max tx :
  ordered_roots r m = true ->
  is_nan t_min = false -> is_nan t_max = false ->
  hit_param m r t_min t_max = Some tx ->
  (t_min <=? tx) = true /\ (tx <=? t_max) = true.
Proof.
  intros Ho Na Nb H. destruct (ordered_roots_quadratic r m Ho) as (q & Eq & Oq).
  rewrite (hit_param_primitive m r q t_min t_max Eq) in H.
  eapply accepted_root_range; eauto.
Qed.

(** Asked over a shorter interval, a sphere gives the same answer if it
    still fits and none otherwise. *)
Lemma answer_shrink r m t_min t_max c :
  ordered_roots r m = true ->
  is_nan t_min = false -> is_nan t_max = false -> is_nan c = false ->
  (c <=? t_max) = true ->
  hit_param m r t_min c =
  match hit_param m r t_min t_max with
  | Some tx => if tx <=? c then Some tx else None
  | None => None
  end.
Proof.
  intros Ho Na Nb Nc Hc.
  destruct (ordered_roots_quadratic r m Ho) as (q & Eq & Oq).
  rewrite !(hit_param_primitive m r q _ _ Eq).
  apply accepted_root_shrink; auto.
Qed.
End Nearest.

Section NearestOf.
Context {P : Platform}.
Variable r : ray.
Variable t_min : float.
Hypothesis Na : is_nan t_min = false.

(** *** The nearest answer of a set of spheres *)

Lemma nearest_single m t_max :
  ordered_roots r m = true -> is_nan t_max = false ->
  nearest_of [m] r t_min t_max (hit_param m r t_min t_max).
Proof.
  intros Ho Nb. destruct (hit_param m r t_min t_max) as [tx|] eqn:E; simpl.
  - split.
    + exists m. split; [left; reflexivity|exact E].
    + intros m' tm [<-|[]] E'. rewrite E in E'. inversion E'; subst.
      destruct (answer_in_range r m t_min t_max tm Ho Na Nb E) as [L _].
      apply fle_refl. apply (fle_nonnan _ _ L).
  - intros m' [<-|[]]. exact E.
Qed.

Lemma nearest_range objects t_max best :
  (forall m, In m objects -> ordered_roots r m = true) ->
  is_nan t_max = false ->
  nearest_of objects r t_min t_max (Some best) ->
  (t_min <=? best) = true /\ (best <=? t_max) = true.
Proof.
  intros Ho Nb [(m & Hin & E) _].
  apply (answer_in_range r m t_min t_max best); auto.
Qed.

Lemma nearest_combine l1 l2 t_max o1 o2 :
  (forall m, In m l1 -> ordered_roots r m = true) ->
  (forall m, In m l2 -> ordered_roots r m = true) ->
  is_nan t_max = false ->
  nearest_of l1 r t_min t_max o1 ->
  nearest_of l2 r t_min (upper_bound o1 t_max) o2 ->
  nearest_of (l1 ++ l2) r t_min t_max
             (match o2 with Some t2 => Some t2 | None => o1 end).
Proof.
  intros H1 H2 Nb N1 N2. destruct o1 as [t1|]; simpl in N2.
  - destruct (nearest_range l1 t_max t1 H1 Nb N1) as [L1 U1].
    destruct (fle_nonnan _ _ L1) as [_ Nt1].
    destruct N1 as [(m1 & In1 & E1) Low1].
    assert (forall m tm, In m l2 -> hit_param m r t_min t_max = Some tm ->
                         hit_param m r t_min t1 =
                         (if tm <=? t1 then Some tm else None)) as Shr.
    { intros m tm Hin E.
      rewrite (answer_shrink r m t_min t_max t1); auto. rewrite E. reflexivity. }
    destruct o2 as [t2|].
    + destruct N2 as [(m2 & In2 & E2) Low2].
      destruct (answer_in_range r m2 t_min t1 t2 (H2 m2 In2) Na Nt1 E2)
        as [_ U2].
      split.
      * exists m2. split; [apply in_or_app; right; exact In2|].
        rewrite (answer_shrink r m2 t_min t_max t1) in E2; auto.
        destruct (hit_param m2 r t_min t_max) as [tx|]; [|discriminate].
        destruct (tx <=? t1); [exact E2|discriminate].
      * intros m tm Hin E. apply in_app_or in Hin. destruct Hin as [Hin|Hin].
        -- eapply fle_trans; [exact U2|]. eapply Low1; eauto.
        -- pose proof (Shr m tm Hin E) as S.
           destruct (tm <=? t1) eqn:C.
           ++ eapply Low2; eauto.
           ++ destruct (answer_in_range r m t_min t_max tm (H2 m Hin) Na Nb E)
                as [Ltm _].
              destruct (fle_nonnan _ _ Ltm) as [_ Ntm].
              eapply fle_trans; [exact U2|]. apply not_fle_flt; auto.
    + split.
      * exists m1. split; [apply in_or_app; left; exact In1|exact E1].
      * intros m tm Hin E. apply in_app_or in Hin. destruct Hin as [Hin|Hin].
        -- eapply Low1; eauto.
        -- pose proof (Shr m tm Hin E) as S. rewrite (N2 m Hin) in S.
           destruct (tm <=? t1) eqn:C; [discriminate|].
           destruct (answer_in_range r m t_min t_max tm (H2 m Hin) Na Nb E)
             as [Ltm _].
           destruct (fle_nonnan _ _ Ltm) as [_ Ntm].
           apply not_fle_flt; auto.
  - destruct o2 as [t2|].
    + destruct N2 as [(m2 & In2 & E2) Low2]. split.
      * exists m2. split; [apply in_or_app; right; exact In2|exact E2].
      * intros m tm Hin E. apply in_app_or in Hin. destruct Hin as [Hin|Hin].
        -- rewrite (N1 m Hin) in E. discriminate.
        -- eapply Low2; eauto.
    + intros m Hin. apply in_app_or in Hin. destruct Hin as [Hin|Hin]; auto.
Qed.

Lemma sweep_nearest t_max : is_nan t_max = false ->
  forall objects seen o,
    (forall m, In m (seen ++ objects) -> ordered_roots r m = true) ->
    nearest_of seen r t_min t_max o ->
    nearest_of (seen ++ objects) r t_min t_max (sweep objects r t_min t_max o).
Proof.
  intros Nb. induction objects as [|m rest IH]; intros seen o Ho N.
  - simpl. rewrite app_nil_r. exact N.
  - simpl.
    assert (seen ++ m :: rest = (seen ++ [m]) ++ rest) as Eapp
        by (rewrite <- app_assoc; reflexivity).
    rewrite Eapp in *. apply IH; [exact Ho|].
    assert (forall m', In m' seen -> ordered_roots r m' = true) as Hs.
    { intros m' Hin. apply Ho. apply in_or_app. left. apply in_or_app. auto. }
    assert (ordered_roots r m = true) as Hm.
    { apply Ho. apply in_or_app. left. apply in_or_app. right. left. reflexivity. }
    unfold sweep_step. apply nearest_combine; auto.
    + intros m' [<-|[]]. exact Hm.
    + apply nearest_single; auto.
      destruct o as [tx|]; simpl; auto.
      destruct (nearest_range seen t_max tx Hs Nb N) as [L _].
      apply (fle_nonnan _ _ L).
Qed.

(** Two lists with the same members have the same nearest answer. *)
Lemma nearest_same l1 l2 t_max o1 o2 :
  (forall m, In m l1 <-> In m l2) ->
  nearest_of l1 r t_min t_max o1 ->
  nearest_of l2 r t_min t_max o2 ->
  same_answer o1 o2.
Proof.
  intros Hsame N1 N2. destruct o1 as [t1|], o2 as [t2|]; simpl.
  - destruct N1 as [(m1 & In1 & E1) Low1]. destruct N2 as [(m2 & In2 & E2) Low2].
    apply fle_antisym.
    + eapply Low1; [apply Hsame; exact In2|exact E2].
    + eapply Low2; [apply Hsame; exact In1|exact E1].
  - destruct N1 as [(m1 & In1 & E1) _]. simpl in N2.
    rewrite (N2 m1) in E1; [discriminate|apply Hsame; exact In1].
  - destruct N2 as [(m2 & In2 & E2) _]. simpl in N1.
    rewrite (N1 m2) in E2; [discriminate|apply Hsame; exact In2].
  - exact I.
Qed.
End NearestOf.

Section Sweeps.
Context {P : Platform}.

(** *** The scan and the traversal as sweeps *)

Lemma scan_sweep r t_min t_max objects :
  forallb medium_free objects = true ->
  forall temp ha c rec w o,
    c = upper_bound o t_max ->
    ha = (match o with Some _ => true | None => false end) ->
    (forall tx, o = Some tx -> t rec = tx) ->
    exists rec',
      scan (fun m c' => hit m r t_min c') objects temp ha c rec w =
      ((match sweep objects r t_min t_max o with
        | Some _ => true
        | None => false
        end, rec'), w) /\
      (forall tx, sweep objects r t_min t_max o = Some tx -> t rec' = tx).
Proof.
  induction objects as [|m rest IH]; intros Hfree temp ha c rec w o Hc Hha Ht.
  - simpl. exists rec. subst ha. split; [reflexivity|exact Ht].
  - simpl in Hfree. apply andb_true_iff in Hfree. destruct Hfree as [Fm Fr].
    cbn [scan].
    change (sweep (m :: rest) r t_min t_max o)
      with (sweep rest r t_min t_max (sweep_step r t_min t_max o m)).
    unfold sweep_step. rewrite <- Hc.
    destruct (hit_answer m r t_min c temp w Fm) as (temp' & E & T & _).
    rewrite E.
    destruct (hit_param m r t_min c) as [tm|].
    + apply IH; auto.
    + apply IH; auto.
Qed.

Lemma hit_param_list r t_min t_max objects :
  forallb medium_free objects = true ->
  hit_param (hittable_list objects) r t_min t_max =
  sweep objects r t_min t_max None.
Proof.
  intros Hfree. unfold hit_param at 1. cbn [hit].
  destruct (scan_sweep r t_min t_max objects Hfree hit_record_default false
              t_max hit_record_default (mkWorld 0 []) None
              eq_refl eq_refl) as (rec' & E & T); [discriminate|].
  rewrite E. destruct (sweep objects r t_min t_max None) as [tx|];
    [|reflexivity].
  rewrite (T tx eq_refl). reflexivity.
Qed.

Lemma hit_param_node r t_min t_max l rt box :
  medium_free l = true -> medium_free rt = true ->
  hit_param (bvh_node l rt box) r t_min t_max =
  if aabb_hit box r t_min t_max
  then sweep_step r t_min t_max (hit_param l r t_min t_max) rt
  else None.
Proof.
  intros Fl Fr. unfold hit_param at 1. cbn [hit].
  destruct (aabb_hit box r t_min t_max); [|reflexivity]. cbn [negb].
  destruct (hit_answer l r t_min t_max hit_record_default (mkWorld 0 []) Fl)
    as (rec1 & E1 & T1 & K1).
  rewrite E1. unfold sweep_step.
  destruct (hit_param l r t_min t_max) as [tl|] eqn:El.
  - rewrite (T1 tl eq_refl). simpl upper_bound.
    destruct (hit_answer rt r t_min tl rec1 (mkWorld 0 []) Fr)
      as (rec2 & E2 & T2 & K2).
    rewrite E2. destruct (hit_param rt r t_min tl) as [tr|].
    + simpl. rewrite (T2 tr eq_refl). reflexivity.
    + simpl. rewrite (K2 eq_refl), (T1 tl eq_refl). reflexivity.
  - simpl upper_bound.
    destruct (hit_answer rt r t_min t_max rec1 (mkWorld 0 []) Fr)
      as (rec2 & E2 & T2 & K2).
    rewrite E2. destruct (hit_param rt r t_min t_max) as [tr|].
    + simpl. rewrite (T2 tr eq_refl). reflexivity.
    + reflexivity.
Qed.

Lemma ordered_roots_leaf r m : ordered_roots r m = true ->
  leaves m = [m] /\ medium_free m = true.
Proof.
  destruct m; simpl; try discriminate; auto.
Qed.

Lemma ordered_leaves_medium_free r h :
  (forall m, In m (leaves h) -> ordered_roots r m = true) ->
  medium_free h = true.
Proof.
  induction h as [c rad m|c0 c1 t0 t1 rad m|bd ph d IH|objects IH|l rt box IHl IHr]
    using hittable_induction; intros H; try reflexivity.
  - specialize (H _ (or_introl eq_refl)). discriminate.
  - specialize (H _ (or_introl eq_refl)). discriminate.
  - simpl in *. rewrite IHl, IHr; auto; intros m Hin; apply H;
      apply in_or_app; auto.
Qed.

(** Where every box test that rejects does so rightly, the traversal
    gives the nearest answer of the leaves. *)
Lemma tree_nearest r t_min : is_nan t_min = false ->
  forall h t_max,
    (forall m, In m (leaves h) -> ordered_roots r m = true) ->
    is_nan t_max = false ->
    boxes_sound r t_min t_max h = true ->
    nearest_of (leaves h) r t_min t_max (hit_param h r t_min t_max).
Proof.
  intros Na.
  induction h as [c rad m|c0 c1 t0 t1 rad m|bd ph d IH|objects IH|l rt box IHl IHr]
    using hittable_induction; intros t_max Ho Nb Hs;
    try (apply nearest_single; auto; apply Ho; left; reflexivity).
  assert (forall m, In m (leaves l) -> ordered_roots r m = true) as Hl
      by (intros; apply Ho; simpl; apply in_or_app; auto).
  assert (forall m, In m (leaves rt) -> ordered_roots r m = true) as Hr
      by (intros; apply Ho; simpl; apply in_or_app; auto).
  rewrite hit_param_node by (eapply ordered_leaves_medium_free; eauto).
  cbn [boxes_sound] in Hs. cbn [leaves].
  destruct (aabb_hit box r t_min t_max).
  - apply andb_true_iff in Hs. destruct Hs as [Sl Sr].
    unfold sweep_step. apply nearest_combine; auto.
    apply IHr; auto.
    destruct (hit_param l r t_min t_max) as [tl|] eqn:El; simpl; auto.
    pose proof (IHl t_max Hl Nb Sl) as Nl. rewrite El in Nl.
    destruct (nearest_range r t_min Na (leaves l) t_max tl Hl Nb Nl) as [L _].
    apply (fle_nonnan _ _ L).
  - simpl. rewrite forallb_forall in Hs. intros m Hin.
    specialize (Hs m Hin). unfold misses in Hs.
    destruct (hit_param m r t_min t_max); [discriminate|reflexivity].
Qed.
(** What the traversal answers is the answer of one of the leaves to the
    query as it was asked at the root. *)
Lemma tree_answer_of_leaf r t_min : is_nan t_min = false ->
  forall h t_max tx,
    (forall m, In m (leaves h) -> ordered_roots r m = true) ->
    is_nan t_max = false ->
    hit_param h r t_min t_max = Some tx ->
    exists m, In m (leaves h) /\ hit_param m r t_min t_max = Some tx.
Proof.
  intros Na.
  induction h as [c rad m|c0 c1 t0 t1 rad m|bd ph d IH|objects IH|l rt box IHl IHr]
    using hittable_induction; intros t_max tx Ho Nb H;
    try (eexists; split; [left; reflexivity|exact H]).
  assert (forall m, In m (leaves l) -> ordered_roots r m = true) as Hl
      by (intros; apply Ho; simpl; apply in_or_app; auto).
  assert (forall m, In m (leaves rt) -> ordered_roots r m = true) as Hr
      by (intros; apply Ho; simpl; apply in_or_app; auto).
  rewrite hit_param_node in H by (eapply ordered_leaves_medium_free; eauto).
  cbn [leaves].
  destruct (aabb_hit box r t_min t_max); [|discriminate].
  unfold sweep_step in H.
  destruct (hit_param l r t_min t_max) as [tl|] eqn:El.
  - destruct (IHl t_max tl Hl Nb El) as (ml & Inl & Al).
    destruct (answer_in_range r ml t_min t_max tl (Hl ml Inl) Na Nb Al)
      as [Ll Ul].
    destruct (fle_nonnan _ _ Ll) as [_ Ntl].
    cbn [upper_bound] in H.
    destruct (hit_param rt r t_min tl) as [tr|] eqn:Er.
    + inversion H; subst tr.
      destruct (IHr tl tx Hr Ntl Er) as (mr & Inr & Ar).
      exists mr. split; [apply in_or_app; right; exact Inr|].
      rewrite (answer_shrink r mr t_min t_max tl (Hr mr Inr) Na Nb Ntl Ul)
        in Ar.
      destruct (hit_param mr r t_min t_max) as [ty|]; [|discriminate].
      destruct (ty <=? tl); [exact Ar|discriminate].
    + inversion H; subst tl.
      exists ml. split; [apply in_or_app; left; exact Inl|exact Al].
  - cbn [upper_bound] in H.
    destruct (hit_param rt r t_min t_max) as [tr|] eqn:Er; [|discriminate].
    inversion H; subst tr.
    destruct (IHr t_max tx Hr Nb Er) as (mr & Inr & Ar).
    exists mr. split; [apply in_or_app; right; exact Inr|exact Ar].
Qed.

End Sweeps.

(** *** The leaves of a built tree *)

Lemma slice_rebuilt (objects sorted : list hittable) start end_ k :
  (start <= end_)%nat -> (end_ <= List.length objects)%nat ->
  List.length sorted = (end_ - start)%nat -> (k <= end_ - start)%nat ->
  firstn k (skipn start (firstn start objects ++ sorted ++ skipn end_ objects))
  = firstn k sorted /\
  firstn (end_ - (start + k))
         (skipn (start + k)
                (firstn start objects ++ sorted ++ skipn end_ objects))
  = skipn k sorted.
Proof.
  intros H1 H2 Hlen Hk.
  assert (List.length (firstn start objects) = start) as Lf
      by (rewrite length_firstn; lia).
  split.
  - rewrite skipn_app, Lf, Nat.sub_diag, skipn_all2 by lia. simpl.
    rewrite firstn_app.
    replace (k - List.length sorted)%nat with 0%nat by lia.
    simpl. apply app_nil_r.
  - rewrite skipn_app, Lf, skipn_all2 by lia. simpl.
    replace (start + k - start)%nat with k by lia.
    rewrite skipn_app, firstn_app, length_skipn.
    replace (end_ - (start + k) - (List.length sorted - k))%nat with 0%nat
      by lia.
    rewrite firstn_all2 by (rewrite length_skipn; lia).
    simpl. apply app_nil_r.
Qed.

Lemma in_firstn (n : nat) (l : list hittable) o :
  In o (firstn n l) -> In o l.
Proof.
  intros H. rewrite <- (firstn_skipn n l). apply in_or_app. left. exact H.
Qed.

Lemma in_skipn (n : nat) (l : list hittable) o :
  In o (skipn n l) -> In o l.
Proof.
  intros H. rewrite <- (firstn_skipn n l). apply in_or_app. right. exact H.
Qed.

Lemma slice_one (objects : list hittable) start o :
  nth_error objects start = Some o ->
  firstn 1 (skipn start objects) = [o].
Proof.
  revert start. induction objects as [|a rest IH]; intros [|start] H;
    simpl in *; try discriminate.
  - inversion H. reflexivity.
  - apply IH. exact H.
Qed.

Lemma slice_two (objects : list hittable) start o0 o1 :
  nth_error objects start = Some o0 ->
  nth_error objects (start + 1) = Some o1 ->
  firstn 2 (skipn start objects) = [o0; o1].
Proof.
  revert start. induction objects as [|a rest IH]; intros [|start] H0 H1;
    simpl in *; try discriminate.
  - inversion H0; subst. destruct rest; simpl in *; [discriminate|].
    inversion H1. reflexivity.
  - apply IH; assumption.
Qed.

Section Leaves.
Context {P : Platform}.

Lemma finish_node_leaves l r time0 time1 w :
  leaves (fst (finish_node l r time0 time1 w)) = leaves l ++ leaves r.
Proof. rewrite finish_node_spec. reflexivity. Qed.

(** The leaves of the tree built over a range are the objects of the
    range (an only child appears twice). *)
Lemma bvh_node_ctor_leaves time0 time1 : forall fuel objects start end_ w node w',
  (forall o, In o objects -> leaves o = [o]) ->
  (end_ <= List.length objects)%nat ->
  bvh_node_ctor fuel objects start end_ time0 time1 w = Built node w' ->
  forall m, In m (leaves node) <->
            In m (firstn (end_ - start) (skipn start objects)).
Proof.
  induction fuel as [|fuel IH]; intros objects start end_ w node w' Hleaf Hle H;
    [discriminate|].
  cbn [bvh_node_ctor] in H.
  destruct (random_int 0 2 w) as [axis w0].
  set (comparator := if (axis =? 0)%Z then box_x_compare
                     else if (axis =? 1)%Z then box_y_compare
                     else box_z_compare) in H.
  destruct (Nat.ltb_spec end_ start) as [?|Hse]; [discriminate|].
  destruct ((end_ - start =? 1)%nat || (end_ - start =? 2)%nat) eqn:Small.
  - unfold leaf_children in H.
    destruct (Nat.eqb_spec (end_ - start) 1) as [S1|S1].
    + destruct (nth_error objects start) as [o0|] eqn:E0; [|discriminate].
      pose proof (finish_node_leaves o0 o0 time0 time1 w0) as L.
      destruct (finish_node o0 o0 time0 time1 w0) as [n w5].
      inversion H; subst. simpl in L. intros m. rewrite L, S1.
      rewrite (slice_one objects start o0 E0).
      rewrite (Hleaf o0 (nth_error_In _ _ E0)). simpl. tauto.
    + assert (end_ - start = 2)%nat as S2.
      { rewrite orb_true_iff, !Nat.eqb_eq in Small. lia. }
      destruct (nth_error objects start) as [o0|] eqn:E0; [|discriminate].
      destruct (nth_error objects (start + 1)) as [o1|] eqn:E1;
        [|discriminate].
      pose proof (Hleaf o0 (nth_error_In _ _ E0)) as L0.
      pose proof (Hleaf o1 (nth_error_In _ _ E1)) as L1.
      rewrite S2, (slice_two objects start o0 o1 E0 E1).
      destruct (comparator o0 o1 w0) as [lt w1]. destruct lt.
      * pose proof (finish_node_leaves o0 o1 time0 time1 w1) as L.
        destruct (finish_node o0 o1 time0 time1 w1) as [n w5].
        inversion H; subst. simpl in L. intros m. rewrite L, L0, L1.
        simpl. tauto.
      * pose proof (finish_node_leaves o1 o0 time0 time1 w1) as L.
        destruct (finish_node o1 o0 time0 time1 w1) as [n w5].
        inversion H; subst. simpl in L. intros m. rewrite L, L0, L1.
        simpl. tauto.
  - rewrite orb_false_iff, !Nat.eqb_neq in Small.
    destruct (Nat.ltb_spec (List.length objects) end_) as [?|_]; [lia|].
    pose proof (std_sort_perm comparator
                  (firstn (end_ - start) (skipn start objects)) w0) as Hperm.
    destruct (std_sort comparator _ w0) as [sorted w1]. simpl in Hperm.
    pose proof (Permutation_length Hperm) as Hlen.
    rewrite length_firstn, length_skipn in Hlen.
    set (objects' := firstn start objects ++ sorted ++ skipn end_ objects) in *.
    set (k := ((end_ - start) / 2)%nat) in *.
    assert (k <= end_ - start)%nat as Hk
        by (apply Nat.Div0.div_le_upper_bound; lia).
    assert (List.length objects' = List.length objects) as Hlen'.
    { unfold objects'. rewrite !length_app, length_firstn, length_skipn. lia. }
    assert (forall o, In o objects' -> leaves o = [o]) as Hleaf'.
    { intros o Hin. apply Hleaf. unfold objects' in Hin.
      apply in_app_or in Hin. destruct Hin as [Hin|Hin].
      - eapply in_firstn; eauto.
      - apply in_app_or in Hin. destruct Hin as [Hin|Hin].
        + apply (Permutation_in _ Hperm) in Hin.
          eapply in_skipn. eapply in_firstn. exact Hin.
        + eapply in_skipn; eauto. }
    destruct (slice_rebuilt objects sorted start end_ k) as [R1 R2];
      try lia.
    fold objects' in R1, R2.
    destruct (bvh_node_ctor fuel objects' start (start + k) time0 time1 w1)
      as [l w2| |] eqn:El; try discriminate.
    destruct (bvh_node_ctor fuel objects' (start + k) end_ time0 time1 w2)
      as [rt w3| |] eqn:Er; try discriminate.
    pose proof (IH objects' start (start + k)%nat w1 l w2 Hleaf'
                   ltac:(lia) El) as Il.
    pose proof (IH objects' (start + k)%nat end_ w2 rt w3 Hleaf'
                   ltac:(lia) Er) as Ir.
    replace (start + k - start)%nat with k in Il by lia.
    rewrite R1 in Il. rewrite R2 in Ir.
    pose proof (finish_node_leaves l rt time0 time1 w3) as L.
    destruct (finish_node l rt time0 time1 w3) as [n w5].
    inversion H; subst. simpl in L. intros m. rewrite L, in_app_iff, Il, Ir.
    rewrite <- in_app_iff, firstn_skipn.
    split; apply Permutation_in; [exact Hperm|symmetry; exact Hperm].
Qed.
End Leaves.

Section Nearest_hits.
Context {P : Platform}.

Lemma ordered_list_medium_free r objects :
  forallb (ordered_roots r) objects = true ->
  forallb medium_free objects = true.
Proof.
  rewrite !forallb_forall. intros H m Hin.
  apply (ordered_roots_leaf r m). auto.
Qed.

Lemma list_nearest r t_min t_max objects :
  forallb (ordered_roots r) objects = true ->
  is_nan t_min = false -> is_nan t_max = false ->
  nearest_of objects r t_min t_max
             (hit_param (hittable_list objects) r t_min t_max).
Proof.
  intros Ho Na Nb.
  rewrite hit_param_list by (eapply ordered_list_medium_free; eauto).
  rewrite forallb_forall in Ho.
  apply (sweep_nearest r t_min Na t_max Nb objects [] None); auto.
  simpl. intros m [].
Qed.

(** C2 (amended).  For a list of spheres and moving spheres whose roots
    for the ray are ordered numbers and an interval whose ends are
    numbers: when [hittable_list::hit] returns true, the parameter of the
    record is the answer of one of the members to the same query and no
    member's answer is below it; and in whatever order the members were
    inserted the scan is a hit with the same parameter. *)
Theorem list_hit_is_nearest (objects : list hittable) (r : ray)
  (t_min t_max : float) (rec : hit_record) (w : world) :
  forallb (ordered_roots r) objects = true ->
  is_nan t_min = false -> is_nan t_max = false ->
  fst (fst (hit (hittable_list objects) r t_min t_max rec w)) = true ->
  let best := t (snd (fst (hit (hittable_list objects) r t_min t_max rec w))) in
  (exists m, In m objects /\ hit_param m r t_min t_max = Some best) /\
  (forall m tm, In m objects -> hit_param m r t_min t_max = Some tm ->
                (best <=? tm) = true) /\
  (forall objects' rec2 w2,
      Permutation objects objects' ->
      fst (fst (hit (hittable_list objects') r t_min t_max rec2 w2)) = true /\
      (t (snd (fst (hit (hittable_list objects') r t_min t_max rec2 w2))) =?
       best) = true).
Proof.
  intros Ho Na Nb Hok best.
  assert (medium_free (hittable_list objects) = true) as Fr
      by (simpl; eapply ordered_list_medium_free; eauto).
  pose proof (list_nearest r t_min t_max objects Ho Na Nb) as N.
  destruct (hit_answer (hittable_list objects) r t_min t_max rec w Fr)
    as (rec' & E & T & _).
  subst best. rewrite E in *. cbn [fst snd] in *.
  destruct (hit_param (hittable_list objects) r t_min t_max) as [tx|] eqn:Hp;
    [|discriminate].
  rewrite (T tx eq_refl). destruct N as [Nex Nlow].
  split; [exact Nex|]. split; [exact Nlow|].
  intros objects' rec2 w2 Hperm.
  assert (forallb (ordered_roots r) objects' = true) as Ho'.
  { rewrite forallb_forall in *. intros m Hin. apply Ho.
    apply (Permutation_in _ (Permutation_sym Hperm)). exact Hin. }
  assert (medium_free (hittable_list objects') = true) as Fr'
      by (simpl; eapply ordered_list_medium_free; eauto).
  pose proof (list_nearest r t_min t_max objects' Ho' Na Nb) as N'.
  assert (same_answer (hit_param (hittable_list objects') r t_min t_max)
                      (Some tx)) as S.
  { apply (nearest_same r t_min objects' objects t_max); auto.
    - intros m. split; apply Permutation_in;
        [symmetry; exact Hperm|exact Hperm].
    - simpl. split; assumption. }
  destruct (hit_answer (hittable_list objects') r t_min t_max rec2 w2 Fr')
    as (rec2' & E2 & T2 & _).
  rewrite E2. cbn [fst snd].
  destruct (hit_param (hittable_list objects') r t_min t_max) as [ty|];
    [|contradiction].
  rewrite (T2 ty eq_refl). split; [reflexivity|exact S].
Qed.

(** C1 (amended).  Over a list, not empty, of spheres and moving spheres
    whose roots for the ray are ordered numbers, and an interval whose
    ends are numbers, the constructor returns a tree whatever axes it
    draws.  [bvh_node::hit] on the tree finds nothing that
    [hittable_list::hit] on the list does not: when the tree reports a
    hit so does the list, at a parameter that is not greater, and the
    tree's parameter is the answer of one of the objects to the same
    query.  The two agree on hit or miss and on the parameter unless some
    box test of the traversal rejected the ray although an object under
    it answers in the interval that node was asked for. *)
Theorem bvh_hit_against_list_hit (objects : list hittable) (r : ray)
  (t_min t_max time0 time1 : float) (w : world) :
  objects <> [] ->
  forallb (ordered_roots r) objects = true ->
  is_nan t_min = false -> is_nan t_max = false ->
  (exists node w1,
      new_bvh_node (List.length objects) objects time0 time1 w =
      Built node w1) /\
  (forall fuel node w1 rec1 w2 rec2 w3,
      new_bvh_node fuel objects time0 time1 w = Built node w1 ->
      let by_tree := hit node r t_min t_max rec1 w2 in
      let by_list := hit (hittable_list objects) r t_min t_max rec2 w3 in
      (fst (fst by_tree) = true ->
       fst (fst by_list) = true /\
       (t (snd (fst by_list)) <=? t (snd (fst by_tree))) = true /\
       exists m, In m objects /\
                 hit_param m r t_min t_max = Some (t (snd (fst by_tree)))) /\
      ((fst (fst by_tree) = fst (fst by_list) /\
        (fst (fst by_tree) = true ->
         (t (snd (fst by_tree)) =? t (snd (fst by_list))) = true)) \/
       boxes_sound r t_min t_max node = false)).
Proof.
  intros Hne Ho Na Nb. split.
  - unfold new_bvh_node.
    destruct (bvh_node_ctor_total time0 time1 (List.length objects) objects 0
                (List.length objects) w) as (l & rt & w4 & E);
      [destruct objects; [congruence|simpl; lia]|lia|lia|].
    rewrite E. eauto.
  - intros fuel node w1 rec1 w2 rec2 w3 Hb by_tree by_list.
    assert (forall o, In o objects -> ordered_roots r o = true) as Ho'
        by (rewrite forallb_forall in Ho; exact Ho).
    assert (forall m, In m (leaves node) <-> In m objects) as Hleaves.
    { intros m. unfold new_bvh_node in Hb.
      rewrite (bvh_node_ctor_leaves time0 time1 fuel objects 0
                 (List.length objects) w node w1); auto.
      - rewrite Nat.sub_0_r. simpl. rewrite firstn_all. tauto.
      - intros o Hin. apply (ordered_roots_leaf r o). auto. }
    assert (forall m, In m (leaves node) -> ordered_roots r m = true) as Hol
        by (intros m Hin; apply Ho', Hleaves, Hin).
    pose proof (list_nearest r t_min t_max objects Ho Na Nb) as Nl.
    assert (medium_free node = true) as Fn
        by (eapply ordered_leaves_medium_free; eauto).
    assert (medium_free (hittable_list objects) = true) as Fl
        by (simpl; eapply ordered_list_medium_free; eauto).
    destruct (hit_answer node r t_min t_max rec1 w2 Fn) as (r1 & E1 & T1 & _).
    destruct (hit_answer (hittable_list objects) r t_min t_max rec2 w3 Fl)
      as (r2 & E2 & T2 & _).
    subst by_tree by_list. rewrite E1, E2. cbn [fst snd]. split.
    + destruct (hit_param node r t_min t_max) as [tx|] eqn:Et;
        [|discriminate].
      intros _. rewrite (T1 tx eq_refl).
      destruct (tree_answer_of_leaf r t_min Na node t_max tx Hol Nb Et)
        as (m & Inm & Am).
      apply Hleaves in Inm.
      destruct (hit_param (hittable_list objects) r t_min t_max) as [ty|].
      * destruct Nl as [_ Low]. rewrite (T2 ty eq_refl).
        split; [reflexivity|]. split; [exact (Low m tx Inm Am)|].
        exists m. split; assumption.
      * simpl in Nl. rewrite (Nl m Inm) in Am. discriminate.
    + destruct (boxes_sound r t_min t_max node) eqn:Hs; [left|right; reflexivity].
      pose proof (tree_nearest r t_min Na node t_max Hol Nb Hs) as Nt.
      pose proof (nearest_same r t_min (leaves node) objects t_max _ _
                               Hleaves Nt Nl) as S.
      destruct (hit_param node r t_min t_max) as [tx|],
               (hit_param (hittable_list objects) r t_min t_max) as [ty|];
        simpl in S; try contradiction.
      * split; [reflexivity|]. intros _.
        rewrite (T1 tx eq_refl), (T2 ty eq_refl). exact S.
      * split; [reflexivity|discriminate].
Qed.
End Nearest_hits.

(** ** The worked scenes

    From here on the platform is [example_platform]. *)

(** * More properties *)

(** ** More on the order of doubles *)

Lemma flt_trans a b c :
  (a <? b) = true -> (b <? c) = true -> (a <? c) = true.
Proof.
  intros H1 H2. eapply flt_fle_trans; [exact H1|apply flt_fle; exact H2].
Qed.

Lemma flt_irrefl a : (a <? a) = false.
Proof.
  destruct (a <? a) eqn:E; [|reflexivity].
  pose proof (flt_not_fle _ _ E) as H.
  rewrite (flt_fle _ _ E) in H. discriminate.
Qed.

Lemma flt_asym a b : (a <? b) = true -> (b <? a) = false.
Proof. intros H. apply fle_not_flt. apply flt_fle. exact H. Qed.

(** ** utility.h: [clamp] *)

(** X1. [clamp] with [min <= max]: a number is brought into
    [[min, max]], a number already there is left as it is, clamping twice
    is clamping once; a NaN comes back as it went in. *)
Theorem clamp_within (x min max : float) :
  (min <=? max) = true ->
  (is_nan x = false ->
   (min <=? clamp x min max) = true /\ (clamp x min max <=? max) = true) /\
  ((min <=? x) = true -> (x <=? max) = true -> clamp x min max = x) /\
  clamp (clamp x min max) min max = clamp x min max /\
  (is_nan x = true -> clamp x min max = x).
Proof.
  intros Hmm. destruct (fle_nonnan _ _ Hmm) as [Nmin Nmax].
  assert (A : is_nan x = false ->
              (min <=? clamp x min max) = true /\
              (clamp x min max <=? max) = true).
  { intros Nx. unfold clamp.
    destruct (x <? min) eqn:E1.
    - split; [apply fle_refl; exact Nmin|exact Hmm].
    - destruct (max <? x) eqn:E2.
      + split; [exact Hmm|apply fle_refl; exact Nmax].
      + split; apply fle_total; assumption. }
  assert (B : forall y, (min <=? y) = true -> (y <=? max) = true ->
                        clamp y min max = y).
  { intros y H1 H2. unfold clamp.
    rewrite (fle_not_flt _ _ H1), (fle_not_flt _ _ H2). reflexivity. }
  assert (C : is_nan x = true -> clamp x min max = x).
  { intros Nx. unfold clamp.
    rewrite (nan_flt_l x min Nx), (nan_flt_r max x Nx). reflexivity. }
  split; [exact A|]. split; [apply B|]. split; [|exact C].
  destruct (is_nan x) eqn:Nx.
  - rewrite (C eq_refl). apply C. reflexivity.
  - destruct (A eq_refl) as [L U]. apply B; assumption.
Qed.

(** ** aabb.h: the ends of the interval *)

(** The two planes of an axis give two parameters, whatever the interval;
    the interval is then cut by them. *)
Lemma slab_shape b r a :
  exists t0 t1, forall t_min t_max,
    slab b r a t_min t_max =
    (if t_min <? t0 then t0 else t_min, if t1 <? t_max then t1 else t_max).
Proof.
  unfold slab. eexists. eexists. intros t_min t_max. reflexivity.
Qed.

Lemma cut_low_ge t_min t0 :
  is_nan t_min = false ->
  (t_min <=? (if t_min <? t0 then t0 else t_min)) = true.
Proof.
  intros N. destruct (t_min <? t0) eqn:E.
  - apply flt_fle. exact E.
  - apply fle_refl. exact N.
Qed.

Lemma cut_high_le t_max t1 :
  is_nan t_max = false ->
  ((if t1 <? t_max then t1 else t_max) <=? t_max) = true.
Proof.
  intros N. destruct (t1 <? t_max) eqn:E.
  - apply flt_fle. exact E.
  - apply fle_refl. exact N.
Qed.

Lemma cut_low_mono lo t_min t0 :
  (lo <=? t_min) = true ->
  ((if lo <? t0 then t0 else lo) <=? (if t_min <? t0 then t0 else t_min))
  = true.
Proof.
  intros H. destruct (fle_nonnan _ _ H) as [Nl Nt].
  destruct (lo <? t0) eqn:E1; destruct (t_min <? t0) eqn:E2.
  - apply fle_refl. apply (flt_nonnan _ _ E1).
  - apply fle_total; [exact Nt|apply (flt_nonnan _ _ E1)|exact E2].
  - apply flt_fle. eapply fle_flt_trans; eauto.
  - exact H.
Qed.

Lemma cut_high_mono hi t_max t1 :
  (t_max <=? hi) = true ->
  ((if t1 <? t_max then t1 else t_max) <=? (if t1 <? hi then t1 else hi))
  = true.
Proof.
  intros H. destruct (fle_nonnan _ _ H) as [Nt Nh].
  destruct (t1 <? t_max) eqn:E1; destruct (t1 <? hi) eqn:E2.
  - apply fle_refl. apply (flt_nonnan _ _ E1).
  - rewrite (flt_fle_trans _ _ _ E1 H) in E2. discriminate.
  - apply fle_total; [apply (flt_nonnan _ _ E2)|exact Nt|exact E1].
  - exact H.
Qed.

(** X2. When an end of the interval is NaN, [aabb::hit] answers true
    for every box and every ray: no comparison with NaN holds, so no slab
    cuts the interval and the test [t_max <= t_min] never fires. *)
Theorem aabb_hit_nan_interval (b : aabb) (r : ray) (t_min t_max : float) :
  is_nan t_min = true \/ is_nan t_max = true ->
  aabb_hit b r t_min t_max = true.
Proof.
  unfold aabb_hit. generalize [0; 1; 2]%Z as axes. intros axes.
  revert t_min t_max.
  induction axes as [|a rest IH]; intros t_min t_max N; [reflexivity|].
  cbn [aabb_hit_from].
  destruct (slab_shape b r a) as (t0 & t1 & E). rewrite E.
  destruct N as [N|N].
  - rewrite (nan_flt_l t_min t0 N), (nan_fle_r _ t_min N).
    apply IH. left. exact N.
  - rewrite (nan_flt_r t1 t_max N), (nan_fle_l t_max _ N).
    apply IH. right. exact N.
Qed.

(** X3. Over an interval that is empty or a single point
    ([t_max <= t_min]) [aabb::hit] answers false for every box and every
    ray: the first slab can only shrink it. *)
Theorem aabb_hit_empty_interval (b : aabb) (r : ray) (t_min t_max : float) :
  (t_max <=? t_min) = true -> aabb_hit b r t_min t_max = false.
Proof.
  intros H. destruct (fle_nonnan _ _ H) as [Nmax Nmin].
  unfold aabb_hit. cbn [aabb_hit_from].
  destruct (slab_shape b r 0%Z) as (t0 & t1 & E). rewrite E.
  rewrite (fle_trans _ _ _ (cut_high_le t_max t1 Nmax)
             (fle_trans _ _ _ H (cut_low_ge t_min t0 Nmin))).
  reflexivity.
Qed.

(** X4. A box that is hit over an interval is hit over every wider
    one. *)
Theorem aabb_hit_wider_interval (b : aabb) (r : ray)
  (t_min t_max lo hi : float) :
  (lo <=? t_min) = true -> (t_max <=? hi) = true ->
  aabb_hit b r t_min t_max = true -> aabb_hit b r lo hi = true.
Proof.
  unfold aabb_hit. generalize [0; 1; 2]%Z as axes. intros axes.
  revert lo hi t_min t_max.
  induction axes as [|a rest IH]; intros lo hi t_min t_max L U H;
    [reflexivity|].
  cbn [aabb_hit_from] in *.
  destruct (slab_shape b r a) as (t0 & t1 & E). rewrite E in *.
  pose proof (cut_low_mono lo t_min t0 L) as L'.
  pose proof (cut_high_mono hi t_max t1 U) as U'.
  destruct ((if t1 <? t_max then t1 else t_max) <=?
            (if t_min <? t0 then t0 else t_min)) eqn:T; [discriminate|].
  destruct ((if t1 <? hi then t1 else hi) <=?
            (if lo <? t0 then t0 else lo)) eqn:T'.
  - rewrite (fle_trans _ _ _ U' (fle_trans _ _ _ T' L')) in T. discriminate.
  - eapply IH; eauto.
Qed.

(** ** aabb.h: [surrounding_box] *)

Lemma fmin_idem a : fmin a a = a.
Proof.
  unfold fmin. destruct (is_nan a); [|rewrite flt_irrefl]; reflexivity.
Qed.

Lemma fmax_idem a : fmax a a = a.
Proof.
  unfold fmax. destruct (is_nan a); [|rewrite flt_irrefl]; reflexivity.
Qed.

Lemma fmin_nan a b :
  is_nan (fmin a b) = is_nan a && is_nan b.
Proof.
  unfold fmin. destruct (is_nan a) eqn:Na; [reflexivity|].
  destruct (is_nan b) eqn:Nb; [exact Na|].
  destruct (b <? a); assumption.
Qed.

Lemma fmax_nan a b :
  is_nan (fmax a b) = is_nan a && is_nan b.
Proof.
  unfold fmax. destruct (is_nan a) eqn:Na; [reflexivity|].
  destruct (is_nan b) eqn:Nb; [exact Na|].
  destruct (a <? b); assumption.
Qed.

Lemma fmin_assoc a b c : fmin (fmin a b) c = fmin a (fmin b c).
Proof.
  destruct (is_nan a) eqn:Na.
  { unfold fmin at 2 3. rewrite Na. reflexivity. }
  destruct (is_nan b) eqn:Nb.
  { unfold fmin at 2 4. rewrite Na, Nb. reflexivity. }
  destruct (is_nan c) eqn:Nc.
  { unfold fmin at 1 4. rewrite fmin_nan, Na, Nb, Nc. reflexivity. }
  unfold fmin. rewrite Na, Nb, Nc.
  destruct (b <? a) eqn:Eba; destruct (c <? b) eqn:Ecb;
    destruct (c <? a) eqn:Eca;
    rewrite ?Na, ?Nb, ?Nc, ?Eba, ?Ecb, ?Eca; try reflexivity.
  - rewrite (flt_trans _ _ _ Ecb Eba) in Eca. discriminate.
  - pose proof (fle_total b a Nb Na Eba) as Hab.
    rewrite (flt_fle_trans _ _ _ Eca Hab) in Ecb. discriminate.
Qed.

Lemma fmax_assoc a b c : fmax (fmax a b) c = fmax a (fmax b c).
Proof.
  destruct (is_nan a) eqn:Na.
  { unfold fmax at 2 3. rewrite Na. reflexivity. }
  destruct (is_nan b) eqn:Nb.
  { unfold fmax at 2 4. rewrite Na, Nb. reflexivity. }
  destruct (is_nan c) eqn:Nc.
  { unfold fmax at 1 4. rewrite fmax_nan, Na, Nb, Nc. reflexivity. }
  unfold fmax. rewrite Na, Nb, Nc.
  destruct (a <? b) eqn:Eab; destruct (b <? c) eqn:Ebc;
    destruct (a <? c) eqn:Eac;
    rewrite ?Na, ?Nb, ?Nc, ?Eab, ?Ebc, ?Eac; try reflexivity.
  - rewrite (flt_trans _ _ _ Eab Ebc) in Eac. discriminate.
  - pose proof (fle_total a b Na Nb Eab) as Hba.
    rewrite (fle_flt_trans _ _ _ Hba Eac) in Ebc. discriminate.
Qed.

Lemma fmin_swap_le a b q : (fmin b a <=? q) = true -> (fmin a b <=? q) = true.
Proof.
  destruct (fmin_either b a) as [-> | ->]; intros H;
    [apply fmin_le_r|apply fmin_le_l]; exact H.
Qed.

Lemma fmax_swap_ge a b q : (q <=? fmax b a) = true -> (q <=? fmax a b) = true.
Proof.
  destruct (fmax_either b a) as [-> | ->]; intros H;
    [apply fmax_ge_r|apply fmax_ge_l]; exact H.
Qed.

Lemma surrounding_box_assoc_l a b c :
  surrounding_box (surrounding_box a b) c =
  surrounding_box a (surrounding_box b c).
Proof.
  destruct a as [[a0 a1 a2] [a3 a4 a5]].
  destruct b as [[b0 b1 b2] [b3 b4 b5]].
  destruct c as [[c0 c1 c2] [c3 c4 c5]].
  unfold surrounding_box, x, y, z; cbn [minimum maximum e0 e1 e2].
  rewrite !fmin_assoc, !fmax_assoc. reflexivity.
Qed.

(** X5. [surrounding_box] is associative and idempotent, to the bit, NaN
    coordinates and zeros of either sign included; swapping its
    arguments gives a box with the same points. *)
Theorem surrounding_box_algebra (a b c : aabb) :
  surrounding_box (surrounding_box a b) c =
  surrounding_box a (surrounding_box b c) /\
  surrounding_box a a = a /\
  contains (surrounding_box a b) (surrounding_box b a).
Proof.
  split; [apply surrounding_box_assoc_l|]. split.
  - destruct a as [[a0 a1 a2] [a3 a4 a5]].
    unfold surrounding_box, x, y, z; cbn [minimum maximum e0 e1 e2].
    rewrite !fmin_idem, !fmax_idem. reflexivity.
  - intros q. unfold inside, between, surrounding_box, x, y, z.
    cbn [minimum maximum e0 e1 e2].
    intros [[L0 U0] [[L1 U1] [L2 U2]]].
    repeat split; first [apply fmin_swap_le|apply fmax_swap_ge]; assumption.
Qed.

(** ** Which objects have a box *)

Lemma merge_boxes_boxed time0 time1 objects :
  Forall (fun o => forall b,
              fst (bounding_box o time0 time1 b) = boxed o) objects ->
  forall temp first out,
    fst (merge_boxes (fun o b => bounding_box o time0 time1 b)
                     objects temp first out) = forallb boxed objects.
Proof.
  induction 1 as [|o rest Ho Hrest IH]; intros temp first out; [reflexivity|].
  cbn [merge_boxes forallb].
  specialize (Ho temp).
  destruct (bounding_box o time0 time1 temp) as [ok tb]. simpl in Ho.
  rewrite <- Ho. destruct ok; simpl; [apply IH|reflexivity].
Qed.

Lemma bounding_box_boxed time0 time1 h : forall b,
  fst (bounding_box h time0 time1 b) = boxed h.
Proof.
  induction h as [c rad m|c0 c1 t0 t1 rad m|bd ph d IH|objects IH|l r box _ _]
    using hittable_induction; intros b; try reflexivity.
  - simpl. apply IH.
  - destruct objects as [|o rest]; [reflexivity|].
    change (boxed (hittable_list (o :: rest)))
      with (forallb boxed (o :: rest)).
    cbn [bounding_box]. apply merge_boxes_boxed. exact IH.
Qed.

Lemma box_of_boxed h time0 time1 :
  box_of h time0 time1 =
  if boxed h then Some (snd (bounding_box h time0 time1 aabb_default))
  else None.
Proof.
  unfold box_of. rewrite <- (bounding_box_boxed time0 time1 h aabb_default).
  destruct (bounding_box h time0 time1 aabb_default) as [ok b]. reflexivity.
Qed.

Lemma bounding_box_of_boxed h time0 time1 b :
  boxed h = true ->
  bounding_box h time0 time1 b =
  (true, snd (bounding_box h time0 time1 aabb_default)).
Proof.
  intros B. destruct (bounding_box_answer time0 time1 h b) as [_ A].
  pose proof (bounding_box_boxed time0 time1 h b) as F.
  rewrite box_of_boxed, B in A. specialize (A _ eq_refl).
  destruct (bounding_box h time0 time1 b) as [ok bx]. simpl in *.
  rewrite F, B, A. reflexivity.
Qed.

(** X6. Whether [bounding_box] succeeds depends on the shape of the
    object alone, not on the times nor on what the caller's box held:
    it fails exactly when an empty list is met through lists and media.
    When it succeeds the box does not depend on what the caller's box
    held either. *)
Theorem bounding_box_succeeds_by_shape (h : hittable)
  (time0 time1 : float) (output_box : aabb) :
  fst (bounding_box h time0 time1 output_box) = boxed h /\
  (boxed h = true ->
   forall other_box,
     bounding_box h time0 time1 output_box =
     bounding_box h time0 time1 other_box).
Proof.
  split; [apply bounding_box_boxed|].
  intros B other_box.
  rewrite (bounding_box_of_boxed h time0 time1 output_box B).
  rewrite (bounding_box_of_boxed h time0 time1 other_box B).
  reflexivity.
Qed.

(** X7. On objects that have a box, [box_compare] is the order [<] of
    the boxes' minima along the axis and writes nothing: it is
    irreflexive, asymmetric and transitive, and where the minima are
    numbers being neither below the other is transitive too, which is
    what [std::sort] asks of its comparator. *)
Theorem box_compare_orders (axis : Z) (a b c : hittable) (w : world) :
  boxed a = true -> boxed b = true -> boxed c = true ->
  let key o := e (minimum (snd (bounding_box o 0 0 aabb_default))) axis in
  let less o o' := fst (box_compare o o' axis w) in
  box_compare a b axis w = (key a <? key b, w) /\
  less a a = false /\
  (less a b = true -> less b a = false) /\
  (less a b = true -> less b c = true -> less a c = true) /\
  (is_nan (key a) = false -> is_nan (key b) = false ->
   is_nan (key c) = false ->
   less a b = false -> less b a = false ->
   less b c = false -> less c b = false ->
   less a c = false /\ less c a = false).
Proof.
  intros Ba Bb Bc key less.
  assert (forall o o', boxed o = true -> boxed o' = true ->
                       box_compare o o' axis w = (key o <? key o', w)) as E.
  { intros o o' Bo Bo'. unfold box_compare, key.
    pose proof (bounding_box_boxed 0 0 o aabb_default) as Ho.
    pose proof (bounding_box_boxed 0 0 o' aabb_default) as Ho'.
    destruct (bounding_box o 0 0 aabb_default) as [ok bo].
    destruct (bounding_box o' 0 0 aabb_default) as [ok' bo'].
    simpl in Ho, Ho'. rewrite Bo in Ho. rewrite Bo' in Ho'. subst ok ok'.
    reflexivity. }
  unfold less. rewrite !E by assumption. cbn [fst].
  split; [reflexivity|]. split; [apply flt_irrefl|].
  split; [apply flt_asym|]. split; [apply flt_trans|].
  intros Na Nb Nc H1 H2 H3 H4.
  pose proof (fle_total _ _ Na Nb H1) as L1.
  pose proof (fle_total _ _ Nb Na H2) as L2.
  pose proof (fle_total _ _ Nb Nc H3) as L3.
  pose proof (fle_total _ _ Nc Nb H4) as L4.
  split; apply fle_not_flt; eapply fle_trans; eauto.
Qed.

(** ** The constructor of [bvh_node] *)

(** A rule for proofs about the constructor: what holds of a node over
    one object, of a node over two, and of a node whose halves it holds
    of, holds of every tree built. *)
Section Rule.
Context {P : Platform}.
Variables time0 time1 : float.

(** What a run of the constructor is shown to satisfy: a relation between
    the objects of the range, the world before, the node and the world
    after. *)
Variable Q : list hittable -> world -> hittable -> world -> Prop.

Hypothesis one : forall o w,
  Q [o] w
    (fst (finish_node o o time0 time1 (snd (random_int 0 2 w))))
    (snd (finish_node o o time0 time1 (snd (random_int 0 2 w)))).

Hypothesis two : forall o0 o1 w,
  let c :=
    axis_comparator (fst (random_int 0 2 w)) o0 o1 (snd (random_int 0 2 w))
  in
  let l := if fst c then o0 else o1 in
  let r := if fst c then o1 else o0 in
  Q [o0; o1] w
    (fst (finish_node l r time0 time1 (snd c)))
    (snd (finish_node l r time0 time1 (snd c))).

Hypothesis more : forall slice w l w2 r w3,
  (3 <= List.length slice)%nat ->
  let s :=
    std_sort (axis_comparator (fst (random_int 0 2 w))) slice
             (snd (random_int 0 2 w)) in
  let k := (List.length slice / 2)%nat in
  Q (firstn k (fst s)) (snd s) l w2 ->
  Q (skipn k (fst s)) w2 r w3 ->
  Q slice w
    (fst (finish_node l r time0 time1 w3))
    (snd (finish_node l r time0 time1 w3)).

Lemma bvh_node_ctor_rule : forall fuel objects start end_ w node w',
  (end_ <= List.length objects)%nat ->
  bvh_node_ctor fuel objects start end_ time0 time1 w = Built node w' ->
  Q (firstn (end_ - start) (skipn start objects)) w node w'.
Proof.
  induction fuel as [|fuel IH]; intros objects start end_ w node w' Hle H;
    [discriminate|].
  destruct (Nat.eq_dec start end_) as [Heq|Hne].
  { subst end_. rewrite bvh_node_ctor_empty in H by exact Hle. discriminate. }
  cbn [bvh_node_ctor] in H.
  pose proof (one) as One. pose proof (two) as Two. pose proof (more) as More.
  destruct (random_int 0 2 w) as [axis w0] eqn:Ea.
  fold (axis_comparator axis) in H.
  destruct (Nat.ltb_spec end_ start) as [?|Hse]; [discriminate|].
  destruct ((end_ - start =? 1)%nat || (end_ - start =? 2)%nat) eqn:Small.
  - unfold leaf_children in H.
    destruct (Nat.eqb_spec (end_ - start) 1) as [S1|S1].
    + destruct (nth_error objects start) as [o0|] eqn:E0; [|discriminate].
      rewrite S1, (slice_one objects start o0 E0).
      specialize (One o0 w). rewrite Ea in One. simpl in One.
      destruct (finish_node o0 o0 time0 time1 w0) as [n w5].
      inversion H; subst. exact One.
    + assert (end_ - start = 2)%nat as S2.
      { rewrite orb_true_iff, !Nat.eqb_eq in Small. lia. }
      destruct (nth_error objects start) as [o0|] eqn:E0; [|discriminate].
      destruct (nth_error objects (start + 1)) as [o1|] eqn:E1;
        [|discriminate].
      rewrite S2, (slice_two objects start o0 o1 E0 E1).
      specialize (Two o0 o1 w). rewrite Ea in Two. cbn [fst snd] in Two.
      destruct (axis_comparator axis o0 o1 w0) as [lt w1]. cbn [fst snd] in Two.
      destruct lt.
      * destruct (finish_node o0 o1 time0 time1 w1) as [n w5].
        inversion H; subst. exact Two.
      * destruct (finish_node o1 o0 time0 time1 w1) as [n w5].
        inversion H; subst. exact Two.
  - rewrite orb_false_iff, !Nat.eqb_neq in Small.
    destruct (Nat.ltb_spec (List.length objects) end_) as [?|_]; [lia|].
    set (slice := firstn (end_ - start) (skipn start objects)) in *.
    assert (List.length slice = (end_ - start)%nat) as Hslice.
    { unfold slice. rewrite length_firstn, length_skipn. lia. }
    specialize (More slice w). rewrite Ea in More. cbn [fst snd] in More.
    pose proof (std_sort_length (axis_comparator axis) slice w0) as Hlen.
    destruct (std_sort (axis_comparator axis) slice w0) as [sorted w1].
    cbn [fst snd] in More, Hlen. rewrite Hslice in Hlen, More.
    set (objects' := firstn start objects ++ sorted ++ skipn end_ objects) in *.
    set (k := ((end_ - start) / 2)%nat) in *.
    assert (k <= end_ - start)%nat as Hk
        by (apply Nat.Div0.div_le_upper_bound; lia).
    assert (List.length objects' = List.length objects) as Hlen'.
    { unfold objects'. rewrite !length_app, length_firstn, length_skipn. lia. }
    destruct (slice_rebuilt objects sorted start end_ k) as [R1 R2];
      try lia.
    fold objects' in R1, R2.
    destruct (bvh_node_ctor fuel objects' start (start + k) time0 time1 w1)
      as [l w2| |] eqn:El; try discriminate.
    destruct (bvh_node_ctor fuel objects' (start + k) end_ time0 time1 w2)
      as [rt w3| |] eqn:Er; try discriminate.
    pose proof (IH objects' start (start + k)%nat w1 l w2 ltac:(lia) El) as Il.
    pose proof (IH objects' (start + k)%nat end_ w2 rt w3 ltac:(lia) Er) as Ir.
    replace (start + k - start)%nat with k in Il by lia.
    rewrite R1 in Il. rewrite R2 in Ir.
    specialize (More l w2 rt w3 ltac:(lia) Il Ir).
    destruct (finish_node l rt time0 time1 w3) as [n w5].
    inversion H; subst. exact More.
Qed.
End Rule.

Section Enclosing.
Context {P : Platform}.

Lemma finish_node_boxed l r time0 time1 w :
  boxed l = true -> boxed r = true ->
  finish_node l r time0 time1 w =
  (bvh_node l r
     (surrounding_box (snd (bounding_box l time0 time1 aabb_default))
                      (snd (bounding_box r time0 time1 aabb_default))), w).
Proof.
  intros Bl Br. rewrite finish_node_spec, !bounding_box_boxed, Bl, Br.
  reflexivity.
Qed.

Lemma finish_node_encloses l r time0 time1 w :
  boxed l = true -> boxed r = true ->
  enclosed time0 time1 l -> enclosed time0 time1 r ->
  enclosed time0 time1 (fst (finish_node l r time0 time1 w)) /\
  boxed (fst (finish_node l r time0 time1 w)) = true /\
  contains
    (snd (bounding_box (fst (finish_node l r time0 time1 w)) time0 time1
                       aabb_default))
    (snd (bounding_box l time0 time1 aabb_default)) /\
  contains
    (snd (bounding_box (fst (finish_node l r time0 time1 w)) time0 time1
                       aabb_default))
    (snd (bounding_box r time0 time1 aabb_default)).
Proof.
  intros Bl Br El Er. rewrite finish_node_boxed by assumption.
  cbn [fst snd enclosed bounding_box boxed].
  rewrite !box_of_boxed, Bl, Br.
  split; [|split; [reflexivity|split]].
  - split; [|split; [|split; assumption]].
    + intros bx E. inversion E; subst. apply surrounding_box_contains_l.
    + intros bx E. inversion E; subst. apply surrounding_box_contains_r.
  - apply surrounding_box_contains_l.
  - apply surrounding_box_contains_r.
Qed.

Lemma bvh_node_ctor_encloses time0 time1 :
  forall fuel objects start end_ w node w',
  (end_ <= List.length objects)%nat ->
  bvh_node_ctor fuel objects start end_ time0 time1 w = Built node w' ->
  (forall o, In o (firstn (end_ - start) (skipn start objects)) ->
             boxed o = true /\ enclosed time0 time1 o) ->
  enclosed time0 time1 node /\ boxed node = true /\
  forall o, In o (firstn (end_ - start) (skipn start objects)) ->
    contains (snd (bounding_box node time0 time1 aabb_default))
             (snd (bounding_box o time0 time1 aabb_default)).
Proof.
  apply (bvh_node_ctor_rule time0 time1
           (fun slice w node w' =>
              (forall o, In o slice ->
                         boxed o = true /\ enclosed time0 time1 o) ->
              enclosed time0 time1 node /\ boxed node = true /\
              forall o, In o slice ->
                contains (snd (bounding_box node time0 time1 aabb_default))
                         (snd (bounding_box o time0 time1 aabb_default)))).
  - intros o w H. destruct (H o (or_introl eq_refl)) as [B E].
    destruct (finish_node_encloses o o time0 time1
                (snd (random_int 0 2 w)) B B E E) as (A1 & A2 & A3 & _).
    split; [exact A1|]. split; [exact A2|].
    intros o' [<-|[]]. exact A3.
  - intros o0 o1 w c l r H.
    destruct (H o0 (or_introl eq_refl)) as [B0 E0].
    destruct (H o1 (or_intror (or_introl eq_refl))) as [B1 E1].
    subst l r. destruct (fst c).
    + destruct (finish_node_encloses o0 o1 time0 time1 (snd c) B0 B1 E0 E1)
        as (A1 & A2 & A3 & A4).
      split; [exact A1|]. split; [exact A2|].
      intros o' [<-|[<-|[]]]; assumption.
    + destruct (finish_node_encloses o1 o0 time0 time1 (snd c) B1 B0 E1 E0)
        as (A1 & A2 & A3 & A4).
      split; [exact A1|]. split; [exact A2|].
      intros o' [<-|[<-|[]]]; assumption.
  - intros slice w l w2 r w3 Hlen s k Il Ir H.
    pose proof (std_sort_perm (axis_comparator (fst (random_int 0 2 w)))
                  slice (snd (random_int 0 2 w))) as Hperm.
    fold s in Hperm.
    assert (forall o, In o (fst s) ->
                      boxed o = true /\ enclosed time0 time1 o) as Hs.
    { intros o Hin. apply H. apply (Permutation_in _ Hperm). exact Hin. }
    destruct Il as (El & Bl & Cl).
    { intros o Hin. apply Hs. eapply in_firstn; eauto. }
    destruct Ir as (Er & Br & Cr).
    { intros o Hin. apply Hs. eapply in_skipn; eauto. }
    destruct (finish_node_encloses l r time0 time1 w3 Bl Br El Er)
      as (A1 & A2 & A3 & A4).
    split; [exact A1|]. split; [exact A2|].
    intros o Hin. apply (Permutation_in _ (Permutation_sym Hperm)) in Hin.
    rewrite <- (firstn_skipn k (fst s)) in Hin.
    apply in_app_or in Hin. destruct Hin as [Hin|Hin].
    + eapply contains_trans; [exact A3|apply Cl; exact Hin].
    + eapply contains_trans; [exact A4|apply Cr; exact Hin].
Qed.

(** X8. Over objects that all have a box, every node of the tree built
    holds a box that contains the boxes of its two children, and the box
    of the root contains the box of every object of the list. *)
Theorem bvh_boxes_enclose (objects : list hittable) (time0 time1 : float)
  (w : world) :
  objects <> [] ->
  (forall o, In o objects -> boxed o = true /\ enclosed time0 time1 o) ->
  exists node w',
    new_bvh_node (List.length objects) objects time0 time1 w = Built node w' /\
    enclosed time0 time1 node /\
    forall o bx, In o objects -> box_of o time0 time1 = Some bx ->
                 exists box, box_of node time0 time1 = Some box /\
                             contains box bx.
Proof.
  intros Hne H.
  assert (0 < List.length objects)%nat as Hpos.
  { destruct objects; [contradiction|simpl; lia]. }
  destruct (bvh_node_ctor_total time0 time1 (List.length objects) objects 0
              (List.length objects) w) as (l & r & w4 & E); try lia.
  unfold new_bvh_node. rewrite E. eexists. eexists. split; [reflexivity|].
  assert (firstn (List.length objects - 0) (skipn 0 objects) = objects) as S.
  { rewrite Nat.sub_0_r. simpl. apply firstn_all. }
  destruct (bvh_node_ctor_encloses time0 time1 _ _ _ _ _ _ _
              (Nat.le_refl _) E) as (A1 & A2 & A3).
  { rewrite S. exact H. }
  split; [exact A1|].
  intros o bx Hin Hb. rewrite S in A3.
  rewrite box_of_boxed, A2. eexists. split; [reflexivity|].
  rewrite box_of_boxed in Hb. destruct (boxed o); [|discriminate].
  inversion Hb; subst. apply A3. exact Hin.
Qed.
End Enclosing.










Section Diagnostics.
Context {P : Platform}.



End Diagnostics.

Section Effects.
Context {P : Platform}.



Lemma scan_effects
  (f : hittable -> float -> hit_record -> world -> (bool * hit_record) * world)
  objects :
  Forall (fun o => forall c rec w,
              stderr (snd (f o c rec w)) = stderr w /\
              (rng_pos w <= rng_pos (snd (f o c rec w)))%nat) objects ->
  forall temp ha c rec w,
    stderr (snd (scan f objects temp ha c rec w)) = stderr w /\
    (rng_pos w <= rng_pos (snd (scan f objects temp ha c rec w)))%nat.
Proof.
  induction 1 as [|o rest Ho Hrest IH]; intros temp ha c rec w.
  - simpl. split; [reflexivity|lia].
  - cbn [scan]. destruct (Ho c temp w) as [S1 R1].
    destruct (f o c temp w) as [[ok temp'] w']. simpl in S1, R1.
    destruct ok.
    + destruct (IH temp' true (t temp') temp' w') as [S2 R2].
      split; [congruence|lia].
    + destruct (IH temp' ha c rec w') as [S2 R2].
      split; [congruence|lia].
Qed.

Lemma medium_sample_effects ph d r t_min t_max t1 t2 rec w :
  stderr (snd (medium_sample ph d r t_min t_max t1 t2 rec w)) = stderr w /\
  (rng_pos w <= rng_pos (snd (medium_sample ph d r t_min t_max t1 t2 rec w))
   <= rng_pos w + 1)%nat.
Proof.
  unfold medium_sample, random_double.
  destruct (_ <=? _); [simpl; split; [reflexivity|lia]|].
  destruct (_ <? _); simpl; split; try reflexivity; lia.
Qed.

Lemma hit_world h : forall r t_min t_max rec w,
  stderr (snd (hit h r t_min t_max rec w)) = stderr w /\
  (rng_pos w <= rng_pos (snd (hit h r t_min t_max rec w)))%nat.
Proof.
  induction h as [c rad m|c0 c1 t0 t1 rad m|bd ph d IH|objects IH
                 |l rt box IHl IHr]
    using hittable_induction; intros r t_min t_max rec w.
  - simpl. split; [reflexivity|lia].
  - simpl. split; [reflexivity|lia].
  - cbn [hit].
    destruct (IH r neg_infinity infinity hit_record_default w) as [S1 R1].
    destruct (hit bd r neg_infinity infinity hit_record_default w)
      as [[ok1 rec1] w1]. simpl in S1, R1.
    destruct ok1; simpl; [|split; [exact S1|exact R1]].
    destruct (IH r (t rec1 + 0x1.a36e2eb1c432dp-14) infinity
                 hit_record_default w1) as [S2 R2].
    destruct (hit bd r (t rec1 + 0x1.a36e2eb1c432dp-14) infinity
                  hit_record_default w1) as [[ok2 rec2] w2]. simpl in S2, R2.
    destruct ok2; simpl; [|split; [congruence|lia]].
    destruct (medium_sample_effects ph d r t_min t_max (t rec1) (t rec2)
                rec w2) as [S3 R3].
    split; [congruence|lia].
  - cbn [hit]. apply scan_effects.
    revert IH. apply Forall_impl. intros o Ho c rec' w'. apply Ho.
  - cbn [hit]. destruct (aabb_hit box r t_min t_max); simpl;
      [|split; [reflexivity|lia]].
    destruct (IHl r t_min t_max rec w) as [S1 R1].
    destruct (hit l r t_min t_max rec w) as [[hl rec1] w1]. simpl in S1, R1.
    destruct (IHr r t_min (if hl then t rec1 else t_max) rec1 w1) as [S2 R2].
    destruct (hit rt r t_min (if hl then t rec1 else t_max) rec1 w1)
      as [[hr rec2] w2]. simpl in *.
    split; [congruence|lia].
Qed.

(** X11. Whatever the object, a query writes nothing to [std::cerr], the
    generator only moves forward, and on a miss the caller's record is
    left as it was. *)
Theorem hit_leaves_no_trace (h : hittable) (r : ray) (t_min t_max : float)
  (rec : hit_record) (w : world) :
  stderr (snd (hit h r t_min t_max rec w)) = stderr w /\
  (rng_pos w <= rng_pos (snd (hit h r t_min t_max rec w)))%nat /\
  (fst (fst (hit h r t_min t_max rec w)) = false ->
   snd (fst (hit h r t_min t_max rec w)) = rec).
Proof.
  destruct (hit_world h r t_min t_max rec w) as [S R].
  split; [exact S|]. split; [exact R|]. apply hit_false_keeps.
Qed.
End Effects.

Section Records.
Context {P : Platform}.

Lemma scan_on_ray
  (f : hittable -> float -> hit_record -> world -> (bool * hit_record) * world)
  (r : ray) objects :
  Forall (fun o => forall c rec w,
              fst (fst (f o c rec w)) = true ->
              p (snd (fst (f o c rec w))) =
              at_ r (t (snd (fst (f o c rec w))))) objects ->
  forall temp ha c rec w,
    (ha = true -> p rec = at_ r (t rec)) ->
    fst (fst (scan f objects temp ha c rec w)) = true ->
    p (snd (fst (scan f objects temp ha c rec w))) =
    at_ r (t (snd (fst (scan f objects temp ha c rec w)))).
Proof.
  induction 1 as [|o rest Ho Hrest IH]; intros temp ha c rec w Hrec.
  - simpl. exact Hrec.
  - cbn [scan]. specialize (Ho c temp w).
    destruct (f o c temp w) as [[ok temp'] w']. simpl in Ho.
    destruct ok.
    + apply IH. intros _. apply Ho. reflexivity.
    + apply IH. exact Hrec.
Qed.

(** X12. Whatever the object, the point of a hit is the point of the ray
    at the parameter of the hit: [rec.p = r.at(rec.t)]. *)
Theorem hit_point_on_ray (h : hittable) (r : ray) (t_min t_max : float)
  (rec : hit_record) (w : world) :
  fst (fst (hit h r t_min t_max rec w)) = true ->
  p (snd (fst (hit h r t_min t_max rec w))) =
  at_ r (t (snd (fst (hit h r t_min t_max rec w)))).
Proof.
  revert r t_min t_max rec w.
  induction h as [c rad m|c0 c1 t0 t1 rad m|bd ph d IH|objects IH
                 |l rt box IHl IHr]
    using hittable_induction; intros r t_min t_max rec w.
  - cbn [hit fst snd]. rewrite sphere_hit_root.
    destruct (accepted_root _ t_min t_max); [|discriminate].
    intros _. reflexivity.
  - cbn [hit fst snd]. rewrite moving_sphere_hit_root.
    destruct (accepted_root _ t_min t_max); [|discriminate].
    intros _. reflexivity.
  - cbn [hit].
    destruct (hit bd r neg_infinity infinity hit_record_default w)
      as [[ok1 rec1] w1].
    destruct ok1; [|discriminate]. cbn [negb].
    destruct (hit bd r (t rec1 + 0x1.a36e2eb1c432dp-14) infinity
                  hit_record_default w1) as [[ok2 rec2] w2].
    destruct ok2; [|discriminate]. cbn [negb].
    unfold medium_sample.
    destruct (_ <=? _); [discriminate|].
    destruct (random_double w2) as [rnd w3].
    destruct (_ <? _); [discriminate|]. intros _. reflexivity.
  - cbn [hit]. apply scan_on_ray; [|discriminate].
    revert IH. apply Forall_impl. intros o Ho c rec' w'. apply Ho.
  - cbn [hit]. destruct (aabb_hit box r t_min t_max); [|discriminate].
    cbn [negb].
    pose proof (IHl r t_min t_max rec w) as Hl.
    destruct (hit l r t_min t_max rec w) as [[hl rec1] w1].
    pose proof (IHr r t_min (if hl then t rec1 else t_max) rec1 w1) as Hr.
    pose proof (hit_false_keeps rt r t_min (if hl then t rec1 else t_max)
                  rec1 w1) as Hk.
    destruct (hit rt r t_min (if hl then t rec1 else t_max) rec1 w1)
      as [[hr rec2] w2].
    cbn [fst snd] in *. destruct hr.
    + intros _. apply Hr. reflexivity.
    + rewrite (Hk eq_refl). rewrite orb_false_r. exact Hl.
Qed.

(** X13. A query of a medium whose boundary holds no medium writes
    nothing and draws at most one random number: exactly one for a hit,
    and none when the ray misses the boundary, which is then a miss that
    leaves the record as it was. *)
Theorem medium_draws_at_most_once (boundary : hittable)
  (phase_function : material) (neg_inv_density : float) (r : ray)
  (t_min t_max : float) (rec : hit_record) (w : world) :
  medium_free boundary = true ->
  let res := hit (constant_medium boundary phase_function neg_inv_density)
                 r t_min t_max rec w in
  stderr (snd res) = stderr w /\
  (rng_pos (snd res) = rng_pos w \/ rng_pos (snd res) = S (rng_pos w)) /\
  (fst (fst res) = true -> rng_pos (snd res) = S (rng_pos w)) /\
  (hit_param boundary r neg_infinity infinity = None ->
   res = ((false, rec), w)).
Proof.
  intros F res. unfold res. cbn [hit].
  destruct (hit_answer boundary r neg_infinity infinity hit_record_default
              w F) as (rec1 & E1 & _ & _).
  rewrite E1.
  destruct (hit_param boundary r neg_infinity infinity) as [t1|];
    cbn [negb];
    [|repeat split; auto; discriminate].
  destruct (hit_answer boundary r (t rec1 + 0x1.a36e2eb1c432dp-14) infinity
              hit_record_default w F) as (rec2 & E2 & _ & _).
  rewrite E2.
  destruct (hit_param boundary r (t rec1 + 0x1.a36e2eb1c432dp-14) infinity);
    cbn [negb];
    [|repeat split; auto; discriminate].
  unfold medium_sample, random_double.
  destruct (_ <=? _); [repeat split; auto; discriminate|].
  destruct (_ <? _); cbn [fst snd rng_pos stderr];
    repeat split; auto; discriminate.
Qed.
End Records.

Section OpenEnds.
Context {P : Platform}.

Lemma outside_nan_max t_min root :
  outside t_min nan root = outside t_min infinity root.
Proof.
  unfold outside. rewrite (nan_flt_l nan root eq_refl), infinity_not_flt.
  reflexivity.
Qed.

Lemma outside_nan_min t_max root :
  outside nan t_max root = outside neg_infinity t_max root.
Proof.
  unfold outside. rewrite (nan_flt_r root nan eq_refl), not_flt_neg_infinity.
  reflexivity.
Qed.

Lemma accepted_root_nan_max q t_min :
  accepted_root q t_min nan = accepted_root q t_min infinity.
Proof.
  destruct q as [[d s] l]. unfold accepted_root.
  rewrite !outside_nan_max. reflexivity.
Qed.

Lemma accepted_root_nan_min q t_max :
  accepted_root q nan t_max = accepted_root q neg_infinity t_max.
Proof.
  destruct q as [[d s] l]. unfold accepted_root.
  rewrite !outside_nan_min. reflexivity.
Qed.

Lemma medium_sample_nan_max ph d r t_min t1 t2 rec w :
  medium_sample ph d r t_min nan t1 t2 rec w =
  medium_sample ph d r t_min infinity t1 t2 rec w.
Proof.
  unfold medium_sample.
  rewrite (nan_flt_l nan t2 eq_refl), infinity_not_flt. reflexivity.
Qed.

Lemma medium_sample_nan_min ph d r t_max t1 t2 rec w :
  medium_sample ph d r nan t_max t1 t2 rec w =
  medium_sample ph d r neg_infinity t_max t1 t2 rec w.
Proof.
  unfold medium_sample.
  rewrite (nan_flt_r t1 nan eq_refl), not_flt_neg_infinity. reflexivity.
Qed.

Lemma scan_same
  (f g : hittable -> float -> hit_record -> world ->
         (bool * hit_record) * world) objects :
  Forall (fun o => (forall c rec w, f o c rec w = g o c rec w) /\
                   (forall rec w, f o nan rec w = g o infinity rec w)) objects ->
  forall temp ha c c' rec w,
    c = c' \/ (c = nan /\ c' = infinity) ->
    scan f objects temp ha c rec w = scan g objects temp ha c' rec w.
Proof.
  induction 1 as [|o rest [Ho1 Ho2] Hrest IH]; intros temp ha c c' rec w Hc;
    [reflexivity|].
  cbn [scan].
  assert (f o c temp w = g o c' temp w) as E.
  { destruct Hc as [->|[-> ->]]; [apply Ho1|apply Ho2]. }
  rewrite E. destruct (g o c' temp w) as [[ok temp'] w'].
  destruct ok; apply IH; auto.
Qed.

Lemma hit_nan_max h : bvh_free h = true ->
  forall r t_min rec w,
    hit h r t_min nan rec w = hit h r t_min infinity rec w.
Proof.
  induction h as [c rad m|c0 c1 t0 t1 rad m|bd ph d IH|objects IH
                 |l rt box IHl IHr]
    using hittable_induction; intros F r t_min rec w.
  - cbn [hit]. rewrite !sphere_hit_root, accepted_root_nan_max. reflexivity.
  - cbn [hit]. rewrite !moving_sphere_hit_root, accepted_root_nan_max.
    reflexivity.
  - cbn [hit].
    destruct (hit bd r neg_infinity infinity hit_record_default w)
      as [[[] rec1] w1]; [|reflexivity]. cbn [negb].
    destruct (hit bd r (t rec1 + 0x1.a36e2eb1c432dp-14) infinity
                  hit_record_default w1) as [[[] rec2] w2]; [|reflexivity].
    apply medium_sample_nan_max.
  - cbn [hit]. apply scan_same; [|right; split; reflexivity].
    simpl in F. rewrite forallb_forall in F.
    rewrite Forall_forall in IH. apply Forall_forall. intros o Hin.
    split; [reflexivity|]. intros rec' w'. apply IH; auto.
  - discriminate.
Qed.

Lemma scan_ext
  (f g : hittable -> float -> hit_record -> world ->
         (bool * hit_record) * world) objects :
  Forall (fun o => forall c rec w, f o c rec w = g o c rec w) objects ->
  forall temp ha c rec w,
    scan f objects temp ha c rec w = scan g objects temp ha c rec w.
Proof.
  induction 1 as [|o rest Ho Hrest IH]; intros temp ha c rec w;
    [reflexivity|].
  cbn [scan]. rewrite Ho. destruct (g o c temp w) as [[ok temp'] w'].
  destruct ok; apply IH.
Qed.

Lemma hit_nan_min h : bvh_free h = true ->
  forall r t_max rec w,
    hit h r nan t_max rec w = hit h r neg_infinity t_max rec w.
Proof.
  induction h as [c rad m|c0 c1 t0 t1 rad m|bd ph d IH|objects IH
                 |l rt box IHl IHr]
    using hittable_induction; intros F r t_max rec w.
  - cbn [hit]. rewrite !sphere_hit_root, accepted_root_nan_min. reflexivity.
  - cbn [hit]. rewrite !moving_sphere_hit_root, accepted_root_nan_min.
    reflexivity.
  - cbn [hit].
    destruct (hit bd r neg_infinity infinity hit_record_default w)
      as [[[] rec1] w1]; [|reflexivity]. cbn [negb].
    destruct (hit bd r (t rec1 + 0x1.a36e2eb1c432dp-14) infinity
                  hit_record_default w1) as [[[] rec2] w2]; [|reflexivity].
    apply medium_sample_nan_min.
  - cbn [hit]. apply scan_ext.
    simpl in F. rewrite forallb_forall in F.
    rewrite Forall_forall in IH. apply Forall_forall. intros o Hin.
    intros c rec' w'. apply IH; auto.
  - discriminate.
Qed.

(** X14. For an object that holds no [bvh_node], an end of the interval
    that is NaN is no end at all: the query answers as with [tMax]
    infinite, or with [tMin] minus infinity, record and world alike. *)
Theorem nan_end_is_no_end (h : hittable) (r : ray) (t_min t_max : float)
  (rec : hit_record) (w : world) :
  bvh_free h = true ->
  hit h r t_min nan rec w = hit h r t_min infinity rec w /\
  hit h r nan t_max rec w = hit h r neg_infinity t_max rec w.
Proof.
  intros F. split; [apply hit_nan_max|apply hit_nan_min]; exact F.
Qed.
End OpenEnds.

Section Depth.
Context {P : Platform}.


End Depth.


(** ** Lists within lists *)

Section Lists.
Context {P : Platform}.

Lemma sweep_app l1 l2 r t_min t_max o :
  sweep (l1 ++ l2) r t_min t_max o =
  sweep l2 r t_min t_max (sweep l1 r t_min t_max o).
Proof. unfold sweep. apply fold_left_app. Qed.

(** A sweep that starts with an answer in hand is the sweep over the
    interval that ends at that answer. *)
Lemma sweep_from r t_min l : forall t_max o,
  sweep l r t_min t_max o =
  match sweep l r t_min (upper_bound o t_max) None with
  | Some tx => Some tx
  | None => o
  end.
Proof.
  induction l as [|m rest IH]; intros t_max o; [reflexivity|].
  change (sweep (m :: rest) r t_min t_max o)
    with (sweep rest r t_min t_max (sweep_step r t_min t_max o m)).
  change (sweep (m :: rest) r t_min (upper_bound o t_max) None)
    with (sweep rest r t_min (upper_bound o t_max)
                (sweep_step r t_min (upper_bound o t_max) None m)).
  unfold sweep_step. cbn [upper_bound].
  destruct (hit_param m r t_min (upper_bound o t_max)) as [tm|].
  - rewrite (IH t_max (Some tm)), (IH (upper_bound o t_max) (Some tm)).
    cbn [upper_bound].
    destruct (sweep rest r t_min tm None); reflexivity.
  - apply IH.
Qed.

Lemma hit_as_param h r t_min t_max rec w :
  medium_free h = true ->
  fst (fst (hit h r t_min t_max rec w)) =
  (match hit_param h r t_min t_max with Some _ => true | None => false end)
  /\
  forall tx, hit_param h r t_min t_max = Some tx ->
             t (snd (fst (hit h r t_min t_max rec w))) = tx.
Proof.
  intros F. destruct (hit_answer h r t_min t_max rec w F) as (rec' & E & T & _).
  rewrite E. split; [reflexivity|exact T].
Qed.

Lemma hit_param_add objects o r t_min t_max :
  forallb medium_free objects = true -> medium_free o = true ->
  hit_param (hittable_list (hittable_list_add objects o)) r t_min t_max =
  sweep_step r t_min t_max (hit_param (hittable_list objects) r t_min t_max) o.
Proof.
  intros Fo Fm. unfold hittable_list_add. rewrite !hit_param_list.
  - rewrite sweep_app. reflexivity.
  - exact Fo.
  - rewrite forallb_app, Fo. simpl. rewrite Fm. reflexivity.
Qed.

Lemma hit_param_nested before inner after r t_min t_max :
  forallb medium_free (before ++ inner ++ after) = true ->
  medium_free (hittable_list (before ++ hittable_list inner :: after)) = true
  /\
  hit_param (hittable_list (before ++ hittable_list inner :: after))
            r t_min t_max =
  hit_param (hittable_list (before ++ inner ++ after)) r t_min t_max.
Proof.
  intros F. pose proof F as F'.
  rewrite !forallb_app in F'.
  apply andb_prop in F'. destruct F' as [Fb F'].
  apply andb_prop in F'. destruct F' as [Fi Fa].
  assert (forallb medium_free (before ++ hittable_list inner :: after) = true)
    as Fn.
  { rewrite forallb_app. simpl. rewrite Fb, Fa.
    change (medium_free (hittable_list inner)) with (forallb medium_free inner).
    rewrite Fi. reflexivity. }
  split; [exact Fn|].
  rewrite !hit_param_list by assumption.
  rewrite !sweep_app.
  change (sweep (hittable_list inner :: after) r t_min t_max
                (sweep before r t_min t_max None))
    with (sweep after r t_min t_max
                (sweep_step r t_min t_max
                            (sweep before r t_min t_max None)
                            (hittable_list inner))).
  f_equal. unfold sweep_step.
  rewrite (hit_param_list _ _ _ inner Fi). symmetry. apply sweep_from.
Qed.

(** X16. After [add], the list answers as before unless the new member
    answers over the interval that ends at the list's former answer: a
    hit of either is a hit, and the parameter is the new member's when
    it hits. *)
Theorem hittable_list_add_hit (objects : list hittable) (o : hittable)
  (r : ray) (t_min t_max : float) (rec : hit_record) (w : world) :
  forallb medium_free objects = true -> medium_free o = true ->
  let old := hit (hittable_list objects) r t_min t_max rec w in
  let asked :=
    hit o r t_min (if fst (fst old) then t (snd (fst old)) else t_max)
        hit_record_default w in
  let new :=
    hit (hittable_list (hittable_list_add objects o)) r t_min t_max rec w in
  fst (fst new) = fst (fst old) || fst (fst asked) /\
  (fst (fst new) = true ->
   t (snd (fst new)) =
   if fst (fst asked) then t (snd (fst asked)) else t (snd (fst old))).
Proof.
  intros Fo Fm old asked new.
  assert (medium_free (hittable_list (hittable_list_add objects o)) = true)
    as Fn.
  { unfold hittable_list_add. simpl. rewrite forallb_app, Fo. simpl.
    rewrite Fm. reflexivity. }
  destruct (hit_as_param (hittable_list objects) r t_min t_max rec w Fo)
    as [O1 O2]. fold old in O1, O2.
  destruct (hit_as_param _ r t_min t_max rec w Fn) as [N1 N2].
  fold new in N1, N2.
  rewrite (hit_param_add objects o r t_min t_max Fo Fm) in N1, N2.
  unfold sweep_step in N1, N2.
  set (pl := hit_param (hittable_list objects) r t_min t_max) in *.
  set (c := if fst (fst old) then t (snd (fst old)) else t_max) in *.
  assert (upper_bound pl t_max = c) as U.
  { unfold c. rewrite O1. destruct pl as [tx|]; [|reflexivity].
    simpl. symmetry. apply O2. reflexivity. }
  rewrite U in N1, N2.
  destruct (hit_as_param o r t_min c hit_record_default w Fm) as [A1 A2].
  fold asked in A1, A2.
  split.
  - rewrite N1, A1, O1.
    destruct (hit_param o r t_min c), pl; reflexivity.
  - intros Hn. rewrite A1.
    destruct (hit_param o r t_min c) as [ta|] eqn:Ea.
    + rewrite (A2 ta eq_refl). apply N2. reflexivity.
    + destruct pl as [tx|] eqn:Ep.
      * rewrite (O2 tx eq_refl). apply N2. reflexivity.
      * rewrite N1 in Hn. discriminate.
Qed.

(** X17. A list within a list answers as its members would in its
    place: the same hit or miss, the same parameter. *)
Theorem nested_list_answers_as_flat (before inner after : list hittable)
  (r : ray) (t_min t_max : float) (rec rec' : hit_record) (w w' : world) :
  forallb medium_free (before ++ inner ++ after) = true ->
  let nested :=
    hit (hittable_list (before ++ hittable_list inner :: after))
        r t_min t_max rec w in
  let flat :=
    hit (hittable_list (before ++ inner ++ after)) r t_min t_max rec' w' in
  fst (fst nested) = fst (fst flat) /\
  (fst (fst nested) = true -> t (snd (fst nested)) = t (snd (fst flat))).
Proof.
  intros F nested flat.
  destruct (hit_param_nested before inner after r t_min t_max F) as [Fn E].
  destruct (hit_as_param _ r t_min t_max rec w Fn) as [N1 N2].
  destruct (hit_as_param (hittable_list (before ++ inner ++ after))
              r t_min t_max rec' w' F) as [L1 L2].
  fold nested in N1, N2. fold flat in L1, L2.
  rewrite E in N1, N2. rewrite N1, L1. split; [reflexivity|].
  destruct (hit_param (hittable_list (before ++ inner ++ after)) r t_min t_max)
    as [tx|]; [|discriminate].
  intros _. rewrite (N2 tx eq_refl), (L2 tx eq_refl). reflexivity.
Qed.
End Lists.

Lemma merge_boxes_of_boxed time0 time1 objects :
  forallb boxed objects = true ->
  forall temp out,
    merge_boxes (fun o b => bounding_box o time0 time1 b) objects temp
                false out =
    (true,
     fold_left surrounding_box
       (map (fun o => snd (bounding_box o time0 time1 aabb_default)) objects)
       out).
Proof.
  induction objects as [|o rest IH]; intros B temp out; [reflexivity|].
  simpl in B. apply andb_prop in B. destruct B as [Bo Br].
  cbn [merge_boxes map fold_left].
  rewrite (bounding_box_of_boxed o time0 time1 temp Bo). simpl.
  apply IH. exact Br.
Qed.

Lemma list_box_of_boxed time0 time1 o rest out :
  forallb boxed (o :: rest) = true ->
  bounding_box (hittable_list (o :: rest)) time0 time1 out =
  (true,
   fold_left surrounding_box
     (map (fun o => snd (bounding_box o time0 time1 aabb_default)) rest)
     (snd (bounding_box o time0 time1 aabb_default))).
Proof.
  intros B. simpl in B. apply andb_prop in B. destruct B as [Bo Br].
  cbn [bounding_box merge_boxes].
  rewrite (bounding_box_of_boxed o time0 time1 aabb_default Bo). simpl.
  apply merge_boxes_of_boxed. exact Br.
Qed.

Lemma fold_surrounding_assoc boxes : forall a b,
  fold_left surrounding_box boxes (surrounding_box a b) =
  surrounding_box a (fold_left surrounding_box boxes b).
Proof.
  induction boxes as [|c rest IH]; intros a b; [reflexivity|].
  simpl. rewrite <- IH. f_equal. apply surrounding_box_assoc_l.
Qed.

(** X18. A list within a list, not empty, has the box its members would
    give in its place, to the bit. *)
Theorem nested_list_box_as_flat (before inner after : list hittable)
  (time0 time1 : float) (out out' : aabb) :
  inner <> [] ->
  forallb boxed (before ++ inner ++ after) = true ->
  exists box,
    bounding_box (hittable_list (before ++ hittable_list inner :: after))
                 time0 time1 out = (true, box) /\
    bounding_box (hittable_list (before ++ inner ++ after))
                 time0 time1 out' = (true, box).
Proof.
  intros Hne F. pose proof F as F'.
  rewrite !forallb_app in F'.
  apply andb_prop in F'. destruct F' as [Fb F'].
  apply andb_prop in F'. destruct F' as [Fi Fa].
  destruct inner as [|i0 irest]; [contradiction|].
  assert (boxed (hittable_list (i0 :: irest)) = true) as Bi by exact Fi.
  assert (forallb boxed (before ++ hittable_list (i0 :: irest) :: after)
          = true) as Fn.
  { rewrite forallb_app. cbn [forallb]. rewrite Fb, Bi, Fa. reflexivity. }
  assert (snd (bounding_box (hittable_list (i0 :: irest)) time0 time1
                            aabb_default) =
          fold_left surrounding_box
            (map (fun o => snd (bounding_box o time0 time1 aabb_default))
                 irest)
            (snd (bounding_box i0 time0 time1 aabb_default))) as Ei.
  { rewrite (list_box_of_boxed _ _ _ _ _ Fi). reflexivity. }
  destruct before as [|b0 brest].
  - cbn [app] in *. eexists. split.
    + rewrite (list_box_of_boxed _ _ _ _ _ Fn). reflexivity.
    + rewrite (list_box_of_boxed _ _ _ _ _ F).
      rewrite Ei, map_app, fold_left_app. reflexivity.
  - cbn [app] in *. eexists. split.
    + rewrite (list_box_of_boxed _ _ _ _ _ Fn). reflexivity.
    + rewrite (list_box_of_boxed _ _ _ _ _ F).
      rewrite !map_app, !fold_left_app. cbn [map fold_left].
      rewrite map_app, fold_left_app, Ei. do 2 f_equal.
      apply fold_surrounding_assoc.
Qed.

(** ** Special values of doubles *)

Lemma is_nan_spec x :
  is_nan x = match Prim2SF x with S754_nan => true | _ => false end.
Proof.
  unfold is_nan. rewrite eqb_spec. unfold SFeqb.
  destruct (Prim2SF x) as [s|s| |s m ex]; simpl; try reflexivity.
  - destruct s; reflexivity.
  - rewrite Z.compare_refl, Pos.compare_cont_refl. destruct s; reflexivity.
Qed.

Lemma is_finite_spec x :
  is_finite x =
  match Prim2SF x with
  | S754_nan | S754_infinity _ => false
  | _ => true
  end.
Proof.
  unfold is_finite, is_infinity. rewrite is_nan_spec, eqb_spec, abs_spec.
  destruct (Prim2SF x) as [s|s| |s m ex]; reflexivity.
Qed.

(** The sign a rounded result carries is the one it was given. *)
Lemma binary_round_aux_sign s m ex l :
  match binary_round_aux prec emax s m ex l with
  | S754_zero s' | S754_infinity s' | S754_finite s' _ _ => s' = s
  | S754_nan => True
  end.
Proof.
  unfold binary_round_aux.
  destruct (shr_fexp prec emax m ex l) as [mrs' e'].
  destruct (shr_fexp prec emax _ e' loc_Exact) as [mrs'' e''].
  destruct (shr_m mrs''); try exact I; try reflexivity.
  destruct (e'' <=? emax - prec)%Z; reflexivity.
Qed.

Lemma binary_round_aux_opp s m ex l :
  binary_round_aux prec emax (negb s) m ex l =
  SFopp (binary_round_aux prec emax s m ex l).
Proof.
  unfold binary_round_aux.
  destruct (shr_fexp prec emax m ex l) as [mrs' e'].
  destruct (shr_fexp prec emax _ e' loc_Exact) as [mrs'' e''].
  destruct (shr_m mrs''); try reflexivity.
  destruct (e'' <=? emax - prec)%Z; reflexivity.
Qed.

Lemma overflown_spec x :
  overflown x =
  match Prim2SF x with
  | S754_nan | S754_infinity false => true
  | _ => false
  end.
Proof.
  unfold overflown. rewrite is_nan_spec, eqb_spec.
  destruct (Prim2SF x) as [s|s| |s m ex]; try reflexivity;
    destruct s; reflexivity.
Qed.

Lemma negative_spec x :
  (x <? 0) =
  match Prim2SF x with
  | S754_finite true _ _ | S754_infinity true => true
  | _ => false
  end.
Proof.
  rewrite ltb_spec.
  destruct (Prim2SF x) as [s|s| |s m ex]; try reflexivity;
    destruct s; reflexivity.
Qed.

Ltac sf_ops :=
  rewrite ?is_nan_spec, ?is_finite_spec, ?overflown_spec, ?negative_spec in *;
  rewrite ?mul_spec, ?add_spec, ?sub_spec, ?div_spec, ?sqrt_spec, ?opp_spec
    in *;
  unfold SF64mul, SF64add, SF64sub, SF64div, SF64sqrt in *.

(** *** NaN goes through every operation *)

Lemma nan_add a b :
  is_nan a = true \/ is_nan b = true -> is_nan (a + b) = true.
Proof.
  sf_ops. destruct (Prim2SF a), (Prim2SF b); simpl; intros [H|H];
    try discriminate; reflexivity.
Qed.

Lemma nan_sub a b :
  is_nan a = true \/ is_nan b = true -> is_nan (a - b) = true.
Proof.
  sf_ops. destruct (Prim2SF a), (Prim2SF b); simpl; intros [H|H];
    try discriminate; reflexivity.
Qed.

Lemma nan_mul a b :
  is_nan a = true \/ is_nan b = true -> is_nan (a * b) = true.
Proof.
  sf_ops. destruct (Prim2SF a), (Prim2SF b); simpl; intros [H|H];
    try discriminate; reflexivity.
Qed.

Lemma nan_div a b :
  is_nan a = true \/ is_nan b = true -> is_nan (a / b) = true.
Proof.
  sf_ops. destruct (Prim2SF a), (Prim2SF b); simpl; intros [H|H];
    try discriminate; reflexivity.
Qed.

Lemma nan_sqrt a : is_nan a = true -> is_nan (sqrt a) = true.
Proof.
  sf_ops. destruct (Prim2SF a); simpl; intros H; try discriminate;
    reflexivity.
Qed.

Lemma nan_opp a : is_nan (- a) = is_nan a.
Proof. sf_ops. destruct (Prim2SF a); reflexivity. Qed.

(** *** What is not finite stays so *)

Lemma wild_mul a b :
  is_finite a = false \/ is_finite b = false -> is_finite (a * b) = false.
Proof.
  sf_ops. destruct (Prim2SF a), (Prim2SF b); simpl; intros [H|H];
    try discriminate; reflexivity.
Qed.

Lemma wild_add a b :
  is_finite a = false \/ is_finite b = false -> is_finite (a + b) = false.
Proof.
  sf_ops.
  destruct (Prim2SF a) as [[]|[]| |], (Prim2SF b) as [[]|[]| |]; simpl;
    intros [H|H]; try discriminate; reflexivity.
Qed.

Lemma wild_sub a b :
  is_finite a = false \/ is_finite b = false -> is_finite (a - b) = false.
Proof.
  sf_ops.
  destruct (Prim2SF a) as [[]|[]| |], (Prim2SF b) as [[]|[]| |]; simpl;
    intros [H|H]; try discriminate; reflexivity.
Qed.

(** [x - x] is [+0], or NaN when [x] is not finite. *)
Lemma sub_self a : a - a = 0 \/ is_nan (a - a) = true.
Proof.
  destruct (is_nan (a - a)) eqn:N; [right; reflexivity|left].
  apply Prim2SF_inj. revert N. sf_ops.
  destruct (Prim2SF a) as [[]|[]| |s m ex]; simpl; try discriminate;
    try reflexivity.
  rewrite Z.sub_diag. reflexivity.
Qed.

(** A division by zero, or by NaN, has no finite result. *)
Lemma div_by_zero a b :
  b = 0 \/ is_nan b = true -> is_finite (a / b) = false.
Proof.
  intros [->|H].
  - sf_ops. change (Prim2SF 0) with (S754_zero false).
    destruct (Prim2SF a); reflexivity.
  - revert H. sf_ops. destruct (Prim2SF a), (Prim2SF b); simpl;
      try discriminate; reflexivity.
Qed.

(** *** Squares and their sums *)

Lemma square_not_negative a : (a * a <? 0) = false.
Proof.
  sf_ops. destruct (Prim2SF a) as [[]|[]| |s m ex]; simpl; try reflexivity.
  pose proof (binary_round_aux_sign (xorb s s) (Z.pos (m * m)) (ex + ex)
                loc_Exact) as H.
  destruct (binary_round_aux prec emax (xorb s s) (Z.pos (m * m)) (ex + ex)
              loc_Exact) as [s'|s'| |s' m' e']; try reflexivity;
    rewrite H; destruct s; reflexivity.
Qed.

Lemma add_not_negative a b :
  (a <? 0) = false -> (b <? 0) = false -> (a + b <? 0) = false.
Proof.
  sf_ops.
  destruct (Prim2SF a) as [[]|[]| |[] ma ea], (Prim2SF b) as [[]|[]| |[] mb eb];
    simpl; try discriminate; try reflexivity.
  intros _ _. unfold binary_round.
  match goal with
  | |- context [let '(_, _) := ?X in _] => destruct X as [mz ez]
  end.
  pose proof (binary_round_aux_sign false (Z.pos mz) ez loc_Exact) as H.
  destruct (binary_round_aux prec emax false (Z.pos mz) ez loc_Exact)
    as [s'|s'| |s' m' e']; try reflexivity; rewrite H; reflexivity.
Qed.

Lemma square_overflown a : is_finite a = false -> overflown (a * a) = true.
Proof.
  sf_ops. destruct (Prim2SF a) as [[]|[]| |]; simpl; try discriminate;
    reflexivity.
Qed.

Lemma add_overflown a b :
  overflown a = true -> overflown b = true -> overflown (a + b) = true.
Proof.
  sf_ops. destruct (Prim2SF a) as [[]|[]| |], (Prim2SF b) as [[]|[]| |];
    simpl; try discriminate; reflexivity.
Qed.

Lemma sub_overflown a b : overflown a = true -> overflown (a - b) = true.
Proof.
  sf_ops. destruct (Prim2SF a) as [[]|[]| |], (Prim2SF b) as [[]|[]| |];
    simpl; try discriminate; reflexivity.
Qed.

Lemma mul_overflown a b :
  (a <? 0) = false -> overflown b = true -> overflown (a * b) = true.
Proof.
  sf_ops. destruct (Prim2SF a) as [[]|[]| |[]], (Prim2SF b) as [[]|[]| |];
    simpl; try discriminate; reflexivity.
Qed.

Lemma sub_overflown_nan a b :
  overflown a = true -> overflown b = true -> is_nan (a - b) = true.
Proof.
  sf_ops. destruct (Prim2SF a) as [[]|[]| |], (Prim2SF b) as [[]|[]| |];
    simpl; try discriminate; reflexivity.
Qed.

Lemma overflown_add_l a b :
  overflown a = true -> (b <? 0) = false -> overflown (a + b) = true.
Proof.
  sf_ops. destruct (Prim2SF a) as [[]|[]| |], (Prim2SF b) as [[]|[]| |[]];
    simpl; try discriminate; reflexivity.
Qed.

Lemma overflown_add_r a b :
  (a <? 0) = false -> overflown b = true -> overflown (a + b) = true.
Proof.
  sf_ops. destruct (Prim2SF a) as [[]|[]| |[]], (Prim2SF b) as [[]|[]| |];
    simpl; try discriminate; reflexivity.
Qed.

Lemma length_squared_not_negative v : (length_squared v <? 0) = false.
Proof.
  unfold length_squared.
  repeat apply add_not_negative; apply square_not_negative.
Qed.

Lemma length_squared_overflown v :
  finite_vec v = false -> overflown (length_squared v) = true.
Proof.
  unfold finite_vec, length_squared. intros H.
  destruct (is_finite (e0 v)) eqn:F0.
  - destruct (is_finite (e1 v)) eqn:F1.
    + simpl in H. apply overflown_add_r.
      * apply add_not_negative; apply square_not_negative.
      * apply square_overflown. exact H.
    + apply overflown_add_l; [|apply square_not_negative].
      apply overflown_add_r; [apply square_not_negative|].
      apply square_overflown. exact F1.
  - apply overflown_add_l; [|apply square_not_negative].
    apply overflown_add_l; [|apply square_not_negative].
    apply square_overflown. exact F0.
Qed.

Lemma dot_wild a b :
  finite_vec b = false -> is_finite (dot a b) = false.
Proof.
  unfold finite_vec, dot. intros H.
  destruct (is_finite (e0 b)) eqn:F0.
  - destruct (is_finite (e1 b)) eqn:F1.
    + simpl in H. apply wild_add. right. apply wild_mul. right. exact H.
    + apply wild_add. left. apply wild_add. right. apply wild_mul.
      right. exact F1.
  - apply wild_add. left. apply wild_add. left. apply wild_mul.
    right. exact F0.
Qed.

Lemma vsub_wild a b :
  finite_vec a = false \/ finite_vec b = false ->
  finite_vec (vsub a b) = false.
Proof.
  unfold finite_vec, vsub. cbn [e0 e1 e2]. intros H.
  rewrite !andb_false_iff in *.
  destruct H as [[[H|H]|H]|[[H|H]|H]].
  - left. left. apply wild_sub. left. exact H.
  - left. right. apply wild_sub. left. exact H.
  - right. apply wild_sub. left. exact H.
  - left. left. apply wild_sub. right. exact H.
  - left. right. apply wild_sub. right. exact H.
  - right. apply wild_sub. right. exact H.
Qed.

(** When the sphere or the ray is not where a number can say, the
    discriminant is NaN. *)
Lemma quadratic_lost center radius r :
  finite_vec center = false \/ finite_vec (origin r) = false \/
  is_nan radius = true ->
  is_nan (fst (fst (quadratic center radius r))) = true.
Proof.
  intros H. unfold quadratic. cbn [fst].
  destruct H as [H|[H|H]].
  - assert (finite_vec (vsub (origin r) center) = false) as W
        by (apply vsub_wild; right; exact H).
    apply sub_overflown_nan.
    + apply square_overflown. apply dot_wild. exact W.
    + apply mul_overflown; [apply length_squared_not_negative|].
      apply sub_overflown. apply length_squared_overflown. exact W.
  - assert (finite_vec (vsub (origin r) center) = false) as W
        by (apply vsub_wild; left; exact H).
    apply sub_overflown_nan.
    + apply square_overflown. apply dot_wild. exact W.
    + apply mul_overflown; [apply length_squared_not_negative|].
      apply sub_overflown. apply length_squared_overflown. exact W.
  - apply nan_sub. right. apply nan_mul. right. apply nan_sub. right.
    apply nan_mul. left. exact H.
Qed.

Lemma accepted_root_nan center radius r t_min t_max :
  is_nan (fst (fst (quadratic center radius r))) = true ->
  exists root,
    accepted_root (quadratic center radius r) t_min t_max = Some root /\
    is_nan root = true.
Proof.
  unfold quadratic. cbn [fst]. intros N.
  match goal with
  | |- context [accepted_root (?d, ?s, ?l)] =>
      assert (is_nan s = true) as Ns
  end.
  { apply nan_div. left. apply nan_sub. right. apply nan_sqrt. exact N. }
  eexists. split; [|exact Ns].
  unfold accepted_root, outside.
  rewrite (nan_flt_l _ 0 N), (nan_flt_l _ t_min Ns), (nan_flt_r t_max _ Ns).
  reflexivity.
Qed.

(** *** Negation goes through products and, up to the sign of a zero,
    through sums *)

Lemma mul_opp_l a b : (- a) * b = - (a * b).
Proof.
  apply Prim2SF_inj. rewrite opp_spec, !mul_spec, opp_spec.
  unfold SF64mul.
  destruct (Prim2SF a) as [sa|sa| |sa ma ea],
           (Prim2SF b) as [sb|sb| |sb mb eb]; simpl; try reflexivity;
    try (destruct sa, sb; reflexivity).
  rewrite <- binary_round_aux_opp. destruct sa, sb; reflexivity.
Qed.

Lemma zero_spec a :
  (a =? 0) = match Prim2SF a with S754_zero _ => true | _ => false end.
Proof.
  rewrite eqb_spec. change (Prim2SF 0) with (S754_zero false).
  destruct (Prim2SF a) as [s|s| |s m ex]; try reflexivity;
    destruct s; reflexivity.
Qed.

Lemma same_number_refl a : same_number a a.
Proof. left. reflexivity. Qed.

Lemma same_number_trans a b c :
  same_number a b -> same_number b c -> same_number a c.
Proof.
  intros [->|[Za Zb]] [->|[Zb' Zc]]; unfold same_number; auto.
Qed.

Lemma binary_normalize_opp m ex :
  m <> 0%Z ->
  binary_normalize prec emax (- m) ex false =
  SFopp (binary_normalize prec emax m ex false).
Proof.
  intros H. destruct m as [|q|q]; [contradiction| |]; simpl;
    unfold binary_round;
    match goal with
    | |- context [let '(_, _) := ?X in _] => destruct X as [mz ez]
    end.
  - apply (binary_round_aux_opp false).
  - rewrite <- (binary_round_aux_opp true). reflexivity.
Qed.

Lemma cond_Zopp_sum sa sb (u v : Z) :
  (cond_Zopp (negb sa) u + cond_Zopp (negb sb) v =
   - (cond_Zopp sa u + cond_Zopp sb v))%Z.
Proof. destruct sa, sb; unfold cond_Zopp; cbn [negb]; lia. Qed.

Lemma add_opp a b : same_number ((- a) + (- b)) (- (a + b)).
Proof.
  destruct (Prim2SF a) as [sa|sa| |sa ma ea] eqn:Ea;
    destruct (Prim2SF b) as [sb|sb| |sb mb eb] eqn:Eb.
  16: {
    set (z := (cond_Zopp sa (Z.pos (fst (shl_align ma ea (Z.min ea eb)))) +
               cond_Zopp sb (Z.pos (fst (shl_align mb eb (Z.min ea eb)))))%Z).
    assert (Prim2SF (a + b) = binary_normalize prec emax z (Z.min ea eb) false)
      as E1.
    { rewrite add_spec, Ea, Eb. reflexivity. }
    assert (Prim2SF (- a + - b) =
            binary_normalize prec emax (- z) (Z.min ea eb) false) as E2.
    { rewrite add_spec, !opp_spec, Ea, Eb. unfold z.
      rewrite <- cond_Zopp_sum. reflexivity. }
    destruct (Z.eq_dec z 0) as [Z0|Z0].
    - right. rewrite !zero_spec, opp_spec, E1, E2, Z0. split; reflexivity.
    - left. apply Prim2SF_inj.
      rewrite opp_spec, E1, E2. apply binary_normalize_opp. exact Z0. }
  all: try (left; apply Prim2SF_inj;
            rewrite opp_spec, !add_spec, !opp_spec, Ea, Eb;
            destruct sa, sb; reflexivity).
  all: try (left; apply Prim2SF_inj;
            rewrite opp_spec, !add_spec, !opp_spec, Ea, Eb;
            try destruct sa; try destruct sb; reflexivity).
  all: right; rewrite !zero_spec, opp_spec, !add_spec, !opp_spec, Ea, Eb;
    destruct sa, sb; split; reflexivity.
Qed.

Lemma add_same a a' b : same_number a a' -> same_number (a + b) (a' + b).
Proof.
  intros [->|[Z1 Z2]]; [left; reflexivity|].
  rewrite zero_spec in Z1, Z2.
  destruct (Prim2SF a) as [sa|sa| |sa ma ea] eqn:Ea; try discriminate.
  destruct (Prim2SF a') as [sa'|sa'| |sa' ma' ea'] eqn:Ea'; try discriminate.
  destruct (Prim2SF b) as [sb|sb| |sb mb eb] eqn:Eb.
  - right. rewrite !zero_spec, !add_spec, Ea, Ea', Eb.
    destruct sa, sa', sb; split; reflexivity.
  - left. apply Prim2SF_inj. rewrite !add_spec, Ea, Ea', Eb. reflexivity.
  - left. apply Prim2SF_inj. rewrite !add_spec, Ea, Ea', Eb. reflexivity.
  - left. apply Prim2SF_inj. rewrite !add_spec, Ea, Ea', Eb. reflexivity.
Qed.

Lemma opp_involutive a : - (- a) = a.
Proof.
  apply Prim2SF_inj. rewrite !opp_spec.
  destruct (Prim2SF a) as [[]|[]| |[] m ex]; reflexivity.
Qed.

Lemma opp_negative a : (- a <? 0) = (0 <? a).
Proof.
  rewrite !ltb_spec, opp_spec. change (Prim2SF 0) with (S754_zero false).
  destruct (Prim2SF a) as [[]|[]| |[]]; reflexivity.
Qed.

Lemma same_negative a b : same_number a b -> (a <? 0) = (b <? 0).
Proof.
  intros [->|[Za Zb]]; [reflexivity|].
  rewrite zero_spec in Za, Zb. rewrite !negative_spec.
  destruct (Prim2SF a); try discriminate.
  destruct (Prim2SF b); try discriminate. reflexivity.
Qed.

Lemma dot_vneg a b : same_number (dot (vneg a) b) (- dot a b).
Proof.
  unfold dot, vneg. cbn [e0 e1 e2]. rewrite !mul_opp_l.
  eapply same_number_trans; [|apply add_opp].
  apply add_same. apply add_opp.
Qed.

Lemma dot_vneg_not_negative a b :
  (0 <? dot a b) = false -> (dot (vneg a) b <? 0) = false.
Proof.
  intros H. rewrite (same_negative _ _ (dot_vneg a b)), opp_negative.
  exact H.
Qed.

Lemma nan_eq a : is_nan a = true -> a = nan.
Proof.
  intros H. apply Prim2SF_inj. rewrite is_nan_spec in H.
  change (Prim2SF nan) with S754_nan.
  destruct (Prim2SF a); try discriminate. reflexivity.
Qed.

Lemma mul_nan_r a : a * nan = nan.
Proof. apply nan_eq, nan_mul. right. reflexivity. Qed.

Lemma mul_nan_l a : nan * a = nan.
Proof. apply nan_eq, nan_mul. left. reflexivity. Qed.

Lemma add_nan_l a : nan + a = nan.
Proof. apply nan_eq, nan_add. left. reflexivity. Qed.

Lemma sub_nan_l a : nan - a = nan.
Proof. apply nan_eq, nan_sub. left. reflexivity. Qed.

Lemma sub_nan_r a : a - nan = nan.
Proof. apply nan_eq, nan_sub. right. reflexivity. Qed.

Lemma div_by_nothing a b :
  (b =? 0) = true \/ is_nan b = true -> is_finite (a / b) = false.
Proof.
  rewrite zero_spec. sf_ops.
  destruct (Prim2SF a), (Prim2SF b); simpl; intros [H|H];
    try discriminate; reflexivity.
Qed.

Lemma sub_self_finite a : is_finite a = true -> a - a = 0.
Proof.
  intros F. apply Prim2SF_inj. revert F. sf_ops.
  destruct (Prim2SF a) as [[]|[]| |s m ex]; simpl; try discriminate;
    try reflexivity.
  rewrite Z.sub_diag. reflexivity.
Qed.

Lemma finite_number a : is_finite a = true -> is_nan a = false.
Proof. sf_ops. destruct (Prim2SF a); try discriminate; reflexivity. Qed.

Lemma zero_div b :
  is_nan b = false -> (b =? 0) = false -> (0 / b =? 0) = true.
Proof.
  rewrite !zero_spec. sf_ops. change (Prim2SF 0) with (S754_zero false).
  destruct (Prim2SF b); simpl; try discriminate; reflexivity.
Qed.

Lemma zero_mul z d :
  (z =? 0) = true -> is_finite d = true -> (z * d =? 0) = true.
Proof.
  rewrite !zero_spec. sf_ops.
  destruct (Prim2SF z), (Prim2SF d); simpl; try discriminate; reflexivity.
Qed.

Lemma add_zero_r c z :
  (z =? 0) = true -> is_nan c = false -> (c + z =? c) = true.
Proof.
  rewrite zero_spec, eqb_spec. sf_ops.
  destruct (Prim2SF z) as [sz|sz| |sz mz ez]; try discriminate.
  destruct (Prim2SF c) as [[]|[]| |[] m ex]; simpl; try discriminate;
    intros _ _; try reflexivity; try (destruct sz; reflexivity);
    unfold SFeqb; simpl;
    rewrite Z.compare_refl, Pos.compare_cont_refl; reflexivity.
Qed.

Lemma finite_sub_r a b : is_finite (a - b) = true -> is_finite b = true.
Proof.
  intros H. destruct (is_finite b) eqn:F; [reflexivity|].
  rewrite (wild_sub a b) in H; [discriminate|right; exact F].
Qed.

(** ** The record of a hit *)

Lemma opp_positive a : (0 <? - a) = (a <? 0).
Proof.
  rewrite <- (opp_involutive a) at 2. symmetry. apply opp_negative.
Qed.

Lemma same_positive a b : same_number a b -> (0 <? a) = (0 <? b).
Proof.
  intros [->|[Za Zb]]; [reflexivity|].
  rewrite zero_spec in Za, Zb. rewrite !ltb_spec.
  change (Prim2SF 0) with (S754_zero false).
  destruct (Prim2SF a); try discriminate.
  destruct (Prim2SF b); try discriminate. reflexivity.
Qed.

Lemma dot_vneg_r_not_positive a b :
  (dot a b <? 0) = false -> (0 <? dot a (vneg b)) = false.
Proof.
  intros H. rewrite (dot_comm a (vneg b)).
  rewrite (same_positive _ _ (dot_vneg b a)), opp_positive.
  rewrite (dot_comm b a). exact H.
Qed.

Lemma oriented_faces_the_ray center radius r rec outward :
  outward = vdiv (vsub (p rec) center) radius ->
  front_face rec = (dot (direction r) outward <? 0) ->
  normal rec = (if front_face rec then outward else vneg outward) ->
  faces_the_ray center radius r rec.
Proof.
  intros -> F N. unfold faces_the_ray. cbv zeta. split; [|split].
  - rewrite F. tauto.
  - exact N.
  - rewrite N, F.
    destruct (dot (direction r) (vdiv (vsub (p rec) center) radius) <? 0)
      eqn:E.
    + apply flt_asym. exact E.
    + apply dot_vneg_r_not_positive. exact E.
Qed.

Section Faces.
Context {P : Platform}.

Lemma scan_keeps (Q : hit_record -> Prop)
  (f : hittable -> float -> hit_record -> world -> (bool * hit_record) * world)
  objects :
  Forall (fun o => forall c rec w,
              fst (fst (f o c rec w)) = true -> Q (snd (fst (f o c rec w))))
         objects ->
  forall temp ha c rec w,
    (ha = true -> Q rec) ->
    fst (fst (scan f objects temp ha c rec w)) = true ->
    Q (snd (fst (scan f objects temp ha c rec w))).
Proof.
  induction 1 as [|o rest Ho Hrest IH]; intros temp ha c rec w Hrec.
  - simpl. exact Hrec.
  - cbn [scan]. specialize (Ho c temp w).
    destruct (f o c temp w) as [[ok temp'] w']. simpl in Ho.
    destruct ok.
    + apply IH. intros _. apply Ho. reflexivity.
    + apply IH. exact Hrec.
Qed.

(** C4 (amended).  The record of a hit, whatever the hittable, was
    written by a sphere, a moving sphere or a medium inside it.  Written
    by a sphere or moving sphere, [front_face] is true exactly when the
    dot product of the ray direction and the outward normal
    [(p - center) / radius] is negative, the stored normal is the outward
    normal then and its negation otherwise, and it never points along the
    ray.  Written by a [constant_medium], the normal is [(1, 0, 0)], of
    length exactly 1, and [front_face] is true, whatever the ray. *)
Theorem face_normal_of_hits (h : hittable) (r : ray) (t_min t_max : float)
  (rec : hit_record) (w : world) :
  fst (fst (hit h r t_min t_max rec w)) = true ->
  exists m, In m (sources h) /\
            record_rule r m (snd (fst (hit h r t_min t_max rec w))).
Proof.
  revert r t_min t_max rec w.
  induction h as [c rad m|c0 c1 t0 t1 rad m|bd ph d IH|objects IH
                 |l rt box IHl IHr]
    using hittable_induction; intros r t_min t_max rec w.
  - cbn [hit fst snd]. rewrite sphere_hit_root.
    destruct (accepted_root _ t_min t_max) as [root|]; [|discriminate].
    intros _. eexists. split; [left; reflexivity|]. cbn [record_rule fst snd].
    unfold sphere_accept. destruct (get_sphere_uv _) as [u' v'].
    eapply oriented_faces_the_ray; reflexivity.
  - cbn [hit fst snd]. rewrite moving_sphere_hit_root.
    destruct (accepted_root _ t_min t_max) as [root|]; [|discriminate].
    intros _. eexists. split; [left; reflexivity|]. cbn [record_rule fst snd].
    eapply oriented_faces_the_ray; reflexivity.
  - cbn [hit].
    destruct (hit bd r neg_infinity infinity hit_record_default w)
      as [[ok1 rec1] w1].
    destruct ok1; [|discriminate]. cbn [negb].
    destruct (hit bd r (t rec1 + 0x1.a36e2eb1c432dp-14) infinity
                  hit_record_default w1) as [[ok2 rec2] w2].
    destruct ok2; [|discriminate]. cbn [negb].
    unfold medium_sample.
    destruct (_ <=? _); [discriminate|].
    destruct (random_double w2) as [rnd w3].
    destruct (_ <? _); [discriminate|]. intros _.
    eexists. split; [left; reflexivity|]. cbn [record_rule fst snd normal front_face].
    repeat split; reflexivity.
  - cbn [hit sources].
    apply (scan_keeps
             (fun rec' => exists m, In m (flat_map sources objects) /\
                                    record_rule r m rec'));
      [|discriminate].
    rewrite Forall_forall in *. intros o Hin c rec' w' Hok.
    destruct (IH o Hin r t_min c rec' w' Hok) as (m & Hm & Hr).
    exists m. split; [|exact Hr]. apply in_flat_map. exists o. auto.
  - cbn [hit sources].
    destruct (negb (aabb_hit box r t_min t_max)); [discriminate|].
    pose proof (IHl r t_min t_max rec w) as Hl.
    destruct (hit l r t_min t_max rec w) as [[okl rec1] w1].
    pose proof (IHr r t_min (if okl then t rec1 else t_max) rec1 w1) as Hr.
    pose proof (hit_false_keeps rt r t_min (if okl then t rec1 else t_max)
                                rec1 w1) as Kr.
    destruct (hit rt r t_min _ rec1 w1) as [[okr rec2] w2].
    cbn [fst snd] in *. intros Hok. destruct okr.
    + destruct (Hr eq_refl) as (m & Hm & Hrule).
      exists m. split; [apply in_or_app; right; exact Hm|exact Hrule].
    + rewrite (Kr eq_refl). rewrite orb_false_r in Hok.
      destruct (Hl Hok) as (m & Hm & Hrule).
      exists m. split; [apply in_or_app; left; exact Hm|exact Hrule].
Qed.
End Faces.

(** ** Spheres that are nowhere *)

Section Lost.
Context {P : Platform}.

(** X19. A sphere whose centre has a coordinate that is not finite, or
    whose radius is NaN, or a ray whose origin has such a coordinate:
    the discriminant is NaN, and [sphere::hit] reports a hit, with
    parameter NaN, whatever the interval. *)
Theorem sphere_hit_when_not_finite (center : point3) (radius : float)
  (m : option material) (r : ray) (t_min t_max : float) (rec : hit_record) :
  finite_vec center = false \/ finite_vec (origin r) = false \/
  is_nan radius = true ->
  fst (sphere_hit center radius m r t_min t_max rec) = true /\
  is_nan (t (snd (sphere_hit center radius m r t_min t_max rec))) = true.
Proof.
  intros H. rewrite sphere_hit_root.
  destruct (accepted_root_nan center radius r t_min t_max
              (quadratic_lost center radius r H)) as (root & E & N).
  rewrite E. cbn [fst snd]. rewrite sphere_accept_t.
  split; [reflexivity|exact N].
Qed.

Lemma moving_center_same_times c0 c1 tm time :
  finite_vec (moving_center c0 c1 tm tm time) = false.
Proof.
  unfold finite_vec, moving_center, vadd, vscale. cbn [e0 e1 e2].
  assert (is_finite ((time - tm) / (tm - tm)) = false) as W.
  { apply div_by_zero. apply sub_self. }
  rewrite !andb_false_iff. left. left.
  apply wild_add. right. apply wild_mul. left. exact W.
Qed.

(** X20. A moving sphere whose [time0] and [time1] are the same: its
    centre is a division by zero, and [moving_sphere::hit] reports a
    hit, with parameter NaN, for every ray and every interval. *)
Theorem moving_sphere_hit_same_times (center0 center1 : point3)
  (tm radius : float) (m : option material) (r : ray)
  (t_min t_max : float) (rec : hit_record) :
  fst (moving_sphere_hit center0 center1 tm tm radius m r t_min t_max rec)
  = true /\
  is_nan (t (snd (moving_sphere_hit center0 center1 tm tm radius m r
                                    t_min t_max rec))) = true.
Proof.
  rewrite moving_sphere_hit_root.
  destruct (accepted_root_nan
              (moving_center center0 center1 tm tm (time r)) radius r
              t_min t_max) as (root & E & N).
  { apply quadratic_lost. left. apply moving_center_same_times. }
  rewrite E. cbn [fst snd]. rewrite moving_sphere_accept_t.
  split; [reflexivity|exact N].
Qed.
End Lost.

(** X21. At [time0] a moving sphere is at [center0], coordinate by
    coordinate as numbers, when [time0] is finite, [time1 - time0] is a
    number other than zero and [center1 - center0] is finite. *)
Theorem moving_sphere_starts_at_center0 (center0 center1 : point3)
  (time0 time1 : float) :
  is_finite time0 = true ->
  is_nan (time1 - time0) = false -> (time1 - time0 =? 0) = false ->
  finite_vec (vsub center1 center0) = true ->
  let c := moving_center center0 center1 time0 time1 time0 in
  (e0 c =? e0 center0) = true /\
  (e1 c =? e1 center0) = true /\
  (e2 c =? e2 center0) = true.
Proof.
  intros Ft Nd Zd Fv c.
  unfold finite_vec, vsub in Fv. cbn [e0 e1 e2] in Fv.
  apply andb_prop in Fv. destruct Fv as [Fv F2].
  apply andb_prop in Fv. destruct Fv as [F0 F1].
  unfold c, moving_center, vadd, vscale, vsub. cbn [e0 e1 e2].
  rewrite (sub_self_finite time0 Ft).
  pose proof (zero_div _ Nd Zd) as Q.
  repeat split; apply add_zero_r;
    try (apply zero_mul; assumption);
    apply finite_number; eapply finite_sub_r; eassumption.
Qed.

(** ** vec3.h: [unit_vector] and the random vectors *)

(** X22. [unit_vector] of a vector whose length is computed as zero (the
    zero vector, or one so short that its squares underflow): no
    coordinate of the result is finite. *)
Theorem unit_vector_of_zero_length (v : vec3) :
  (length v =? 0) = true ->
  is_finite (e0 (unit_vector v)) = false /\
  is_finite (e1 (unit_vector v)) = false /\
  is_finite (e2 (unit_vector v)) = false.
Proof.
  intros H. unfold unit_vector, vdiv, vscale. cbn [e0 e1 e2].
  assert (is_finite (1 / length v) = false) as W
      by (apply div_by_nothing; left; exact H).
  repeat split; apply wild_mul; left; exact W.
Qed.

Section Samples.
Context {P : Platform}.

Lemma after_candidates_zero w : after_candidates 0 w = w.
Proof.
  unfold after_candidates. destruct w as [n err]. simpl.
  rewrite Nat.add_0_r. reflexivity.
Qed.

Lemma after_candidates_next j w :
  after_candidates j (snd (vec3_random (-1) 1 w)) = after_candidates (S j) w.
Proof. unfold after_candidates. simpl. f_equal. lia. Qed.

Lemma vec3_random_world w :
  snd (vec3_random (-1) 1 w) = after_candidates 1 w.
Proof.
  rewrite <- (after_candidates_zero (snd _)). apply after_candidates_next.
Qed.

(** X23. [random_in_unit_sphere] returns exactly when, within its fuel,
    some candidate is not rejected: it returns the first such candidate,
    having drawn three numbers for it and for each one rejected, and
    written nothing. *)
Theorem random_in_unit_sphere_returns (fuel : nat) (w : world)
  (q : vec3) (w' : world) :
  random_in_unit_sphere fuel w = Built q w' <->
  exists k,
    (k < fuel)%nat /\
    (forall j, (j < k)%nat ->
               (1 <=? length_squared (candidate j w)) = true) /\
    (1 <=? length_squared (candidate k w)) = false /\
    q = candidate k w /\
    w' = after_candidates (S k) w.
Proof.
  unfold candidate. revert w. induction fuel as [|fuel IH]; intros w.
  - split; [discriminate|]. intros (k & Hk & _). lia.
  - cbn [random_in_unit_sphere].
    destruct (vec3_random (-1) 1 w) as [c w1] eqn:E.
    assert (forall j, after_candidates (S j) w = after_candidates j w1) as N.
    { intros j. rewrite <- after_candidates_next, E. reflexivity. }
    assert (fst (vec3_random (-1) 1 (after_candidates 0 w)) = c) as Z.
    { rewrite after_candidates_zero, E. reflexivity. }
    destruct (1 <=? length_squared c) eqn:T.
    + rewrite IH. split.
      * intros (k & Hk & Hrej & Hacc & Hq & Hw). exists (S k).
        rewrite !N. split; [lia|]. split; [|auto].
        intros [|j] Hj.
        -- rewrite Z. exact T.
        -- rewrite N. apply Hrej. lia.
      * intros (k & Hk & Hrej & Hacc & Hq & Hw).
        destruct k as [|k]; [rewrite Z in Hacc; congruence|].
        exists k. rewrite !N in *. split; [lia|]. split; [|auto].
        intros j Hj. specialize (Hrej (S j) ltac:(lia)).
        rewrite N in Hrej. exact Hrej.
    + split.
      * intros H. inversion H; subst q w'. exists 0%nat.
        rewrite Z, N, after_candidates_zero.
        split; [lia|]. split; [intros j Hj; lia|]. auto.
      * intros (k & Hk & Hrej & Hacc & Hq & Hw).
        destruct k as [|k].
        -- rewrite Z in Hq. rewrite N, after_candidates_zero in Hw.
           subst. reflexivity.
        -- specialize (Hrej 0%nat ltac:(lia)). rewrite Z in Hrej.
           congruence.
Qed.

(** X24. Whenever [random_in_unit_sphere] returns, so does
    [random_in_hemisphere], with that vector or its negation, and the
    dot product of its answer and the normal is never negative. *)
Theorem random_in_hemisphere_side (fuel : nat) (normal : vec3) (w : world)
  (q : vec3) (w1 : world) :
  random_in_unit_sphere fuel w = Built q w1 ->
  exists v,
    random_in_hemisphere fuel normal w = Built v w1 /\
    (v = q \/ v = vneg q) /\
    (dot v normal <? 0) = false.
Proof.
  intros E. unfold random_in_hemisphere. rewrite E.
  destruct (0 <? dot q normal) eqn:S.
  - exists q. split; [reflexivity|]. split; [left; reflexivity|].
    apply flt_asym. exact S.
  - exists (vneg q). split; [reflexivity|]. split; [right; reflexivity|].
    apply dot_vneg_not_negative. exact S.
Qed.
End Samples.

(** ** camera.h *)

Lemma unit_vector_of_difference (q : point3) :
  unit_vector (vsub q q) = mkVec3 nan nan nan.
Proof.
  unfold vsub.
  destruct (sub_self (e0 q)) as [-> | N0];
    [|rewrite (nan_eq _ N0)];
    (destruct (sub_self (e1 q)) as [-> | N1];
     [|rewrite (nan_eq _ N1)]);
    (destruct (sub_self (e2 q)) as [-> | N2];
     [|rewrite (nan_eq _ N2)]);
    vm_compute; reflexivity.
Qed.

Lemma cross_nan_r a : cross a (mkVec3 nan nan nan) = mkVec3 nan nan nan.
Proof.
  unfold cross. cbn [e0 e1 e2]. rewrite !mul_nan_r, !sub_nan_r.
  reflexivity.
Qed.

Lemma vscale_nan k : vscale k (mkVec3 nan nan nan) = mkVec3 nan nan nan.
Proof. unfold vscale. cbn [e0 e1 e2]. rewrite !mul_nan_r. reflexivity. Qed.

Lemma vsub_nan_r a : vsub a (mkVec3 nan nan nan) = mkVec3 nan nan nan.
Proof. unfold vsub. cbn [e0 e1 e2]. rewrite !sub_nan_r. reflexivity. Qed.

Lemma vsub_nan_l a : vsub (mkVec3 nan nan nan) a = mkVec3 nan nan nan.
Proof. unfold vsub. cbn [e0 e1 e2]. rewrite !sub_nan_l. reflexivity. Qed.

Lemma vadd_nan_l a : vadd (mkVec3 nan nan nan) a = mkVec3 nan nan nan.
Proof. unfold vadd. cbn [e0 e1 e2]. rewrite !add_nan_l. reflexivity. Qed.

Section Degenerate.
Context {P : Platform} {T : Trigonometry}.

(** X25. A camera whose [lookat] is its [lookfrom]: [w] is the unit
    vector of a zero vector, so [u], [v], [w], [horizontal], [vertical]
    and [lower_left_corner] are NaN in every coordinate, and so is the
    direction of every ray [get_ray] returns. *)
Theorem camera_looking_at_itself (lookfrom : point3) (vup : vec3)
  (vfov aspect_ratio aperture focus_dist _time0 _time1 : float) :
  let c := new_camera lookfrom lookfrom vup vfov aspect_ratio aperture
                      focus_dist _time0 _time1 in
  let lost := mkVec3 nan nan nan in
  cam_w c = lost /\ cam_u c = lost /\ cam_v c = lost /\
  horizontal c = lost /\ vertical c = lost /\ lower_left_corner c = lost /\
  forall fuel s t w q w1,
    random_in_unit_disk fuel w = Built q w1 ->
    exists r w2, get_ray fuel c s t w = Built r w2 /\ direction r = lost.
Proof.
  intros c lost.
  assert (cam_w c = lost) as Hw by apply unit_vector_of_difference.
  assert (cam_u c = lost) as Hu.
  { unfold c, new_camera. cbn [cam_u].
    rewrite unit_vector_of_difference, cross_nan_r. reflexivity. }
  assert (cam_v c = lost) as Hv.
  { unfold c, new_camera. cbn [cam_v].
    rewrite unit_vector_of_difference, cross_nan_r. reflexivity. }
  assert (horizontal c = lost) as Hh.
  { unfold c, new_camera. cbn [horizontal].
    rewrite unit_vector_of_difference, cross_nan_r.
    change (unit_vector (mkVec3 nan nan nan)) with lost.
    apply vscale_nan. }
  assert (vertical c = lost) as Hvt.
  { unfold c, new_camera. cbn [vertical].
    rewrite unit_vector_of_difference, cross_nan_r.
    change (cross (mkVec3 nan nan nan) (unit_vector (mkVec3 nan nan nan)))
      with lost.
    apply vscale_nan. }
  assert (lower_left_corner c = lost) as Hl.
  { unfold c, new_camera. cbn [lower_left_corner].
    rewrite unit_vector_of_difference, vscale_nan. apply vsub_nan_r. }
  repeat (split; [assumption|]).
  intros fuel s t w q w1 E. unfold get_ray. rewrite E.
  destruct (random_double_range (cam_time0 c) (cam_time1 c) w1) as [tm' w2].
  eexists. eexists. split; [reflexivity|].
  unfold direction. cbn [dir]. rewrite Hl.
  rewrite !vadd_nan_l, !vsub_nan_l. reflexivity.
Qed.
End Degenerate.

Section Shutter.
Context {P : Platform}.

(** X26. A camera whose shutter opens and closes at the same finite
    time gives every ray that time, as a number, when the generator
    yields finite numbers. *)
Theorem get_ray_still_shutter (c : camera) (fuel : nat) (s t : float)
  (w : world) (q : vec3) (w1 : world) :
  cam_time0 c = cam_time1 c -> is_finite (cam_time0 c) = true ->
  (forall n, is_finite (generator n) = true) ->
  random_in_unit_disk fuel w = Built q w1 ->
  exists r w2,
    get_ray fuel c s t w = Built r w2 /\
    (time r =? cam_time0 c) = true.
Proof.
  intros Et Ft Fg E. unfold get_ray. rewrite E, <- Et.
  unfold random_double_range, random_double.
  eexists. eexists. split; [reflexivity|].
  unfold time. cbn [tm]. rewrite (sub_self_finite _ Ft).
  apply add_zero_r; [|apply finite_number; exact Ft].
  apply zero_mul; [reflexivity|apply Fg].
Qed.
End Shutter.

(** ** Rounding *)

(** *** Rounding a sum of two positive doubles *)

Lemma digits2_pos_bounds m :
  (2 ^ (Z.pos (digits2_pos m) - 1) <= Z.pos m < 2 ^ Z.pos (digits2_pos m))%Z.
Proof.
  induction m as [m IH|m IH|]; simpl digits2_pos.
  - rewrite Pos2Z.inj_succ.
    replace (Z.succ (Z.pos (digits2_pos m)) - 1)%Z
      with (Z.succ (Z.pos (digits2_pos m) - 1)) by lia.
    rewrite !Z.pow_succ_r by lia. lia.
  - rewrite Pos2Z.inj_succ.
    replace (Z.succ (Z.pos (digits2_pos m)) - 1)%Z
      with (Z.succ (Z.pos (digits2_pos m) - 1)) by lia.
    rewrite !Z.pow_succ_r by lia. lia.
  - simpl. lia.
Qed.

Lemma iter_xO_value m d : Z.pos (Pos.iter xO m d) = (Z.pos m * 2 ^ Z.pos d)%Z.
Proof.
  induction d as [|d IH] using Pos.peano_ind.
  - simpl. lia.
  - rewrite Pos.iter_succ, Pos2Z.inj_succ, Z.pow_succ_r by lia.
    rewrite Pos2Z.inj_xO, IH. lia.
Qed.

Lemma shl_align_value m ex ex' :
  (ex' <= ex)%Z ->
  Z.pos (fst (shl_align m ex ex')) = (Z.pos m * 2 ^ (ex - ex'))%Z /\
  snd (shl_align m ex ex') = ex'.
Proof.
  intros H. unfold shl_align.
  destruct (ex' - ex)%Z as [|d|d] eqn:E; try lia.
  - assert (ex = ex') as -> by lia. rewrite Z.sub_diag. cbn [fst snd].
    split; [change (2 ^ 0)%Z with 1%Z; lia|reflexivity].
  - cbn [fst snd]. rewrite iter_xO_value. split; [|reflexivity].
    f_equal. f_equal. lia.
Qed.

Lemma shl_align_keep m ex ex' :
  (ex <= ex')%Z -> shl_align m ex ex' = (m, ex).
Proof.
  intros H. unfold shl_align.
  destruct (ex' - ex)%Z as [|d|d] eqn:E; try lia; reflexivity.
Qed.

Lemma shr_1_half mrs :
  (0 <= shr_m mrs)%Z -> shr_m (shr_1 mrs) = (shr_m mrs / 2)%Z.
Proof.
  destruct mrs as [m r s]. cbn [shr_m]. intros H.
  rewrite <- Z.div2_div.
  destruct m as [|[q|q|]|q]; try reflexivity; lia.
Qed.

Lemma iter_shr_1 n : forall mrs,
  (0 <= shr_m mrs)%Z ->
  shr_m (iter_pos shr_1 n mrs) = (shr_m mrs / 2 ^ Z.pos n)%Z.
Proof.
  induction n as [n IH|n IH|]; intros mrs H; simpl iter_pos.
  - assert (0 <= shr_m (shr_1 mrs))%Z as H1.
    { rewrite shr_1_half by exact H. apply Z.div_pos; lia. }
    assert (0 <= shr_m (iter_pos shr_1 n (shr_1 mrs)))%Z as H2.
    { rewrite IH by exact H1. apply Z.div_pos; lia. }
    rewrite IH by exact H2. rewrite IH by exact H1.
    rewrite shr_1_half by exact H.
    rewrite !Z.div_div by lia.
    rewrite <- !Z.pow_add_r by lia. change 2%Z with (2 ^ 1)%Z at 1.
    rewrite <- Z.pow_add_r by lia. f_equal. f_equal. lia.
  - assert (0 <= shr_m (iter_pos shr_1 n mrs))%Z as H2.
    { rewrite IH by exact H. apply Z.div_pos; lia. }
    rewrite IH by exact H2. rewrite IH by exact H.
    rewrite Z.div_div by lia.
    rewrite <- Z.pow_add_r by lia. f_equal. f_equal. lia.
  - rewrite shr_1_half by exact H. reflexivity.
Qed.

(** A shift to the right takes the integer part. *)
Lemma shr_value m l ex n :
  (0 <= m)%Z -> (0 <= n)%Z ->
  shr_m (fst (shr (shr_record_of_loc m l) ex n)) = (m / 2 ^ n)%Z /\
  snd (shr (shr_record_of_loc m l) ex n) = (ex + n)%Z.
Proof.
  intros Hm Hn.
  assert (shr_m (shr_record_of_loc m l) = m) as E.
  { destruct l as [|[]]; reflexivity. }
  unfold shr. destruct n as [|q|q]; try lia.
  - simpl. rewrite E, Z.div_1_r. split; [reflexivity|lia].
  - simpl fst. simpl snd. rewrite iter_shr_1 by (rewrite E; exact Hm).
    rewrite E. split; reflexivity.
Qed.

Lemma round_nearest_even_range m l :
  (m <= round_nearest_even m l <= m + 1)%Z.
Proof.
  unfold round_nearest_even. destruct l as [|[]]; try lia.
  destruct (Z.even m); lia.
Qed.

Lemma digits2_iter_xO m d :
  Z.pos (digits2_pos (Pos.iter xO m d)) = (Z.pos (digits2_pos m) + Z.pos d)%Z.
Proof.
  induction d as [|d IH] using Pos.peano_ind.
  - simpl. lia.
  - rewrite Pos.iter_succ. simpl digits2_pos. rewrite !Pos2Z.inj_succ, IH. lia.
Qed.

(** Dropping the low [n] bits of [s] stays above a smaller number that
    either has no low bits or is a binary order of magnitude below. *)
Lemma round_down_ge (s X n D : Z) :
  (0 <= n)%Z -> (X <= s)%Z ->
  (exists a, X = a * 2 ^ n)%Z \/ (X < 2 ^ D /\ 2 ^ D <= s /\ n <= D)%Z ->
  (X <= s / 2 ^ n * 2 ^ n)%Z.
Proof.
  intros Hn Hs H.
  assert (0 < 2 ^ n)%Z as P by (apply Z.pow_pos_nonneg; lia).
  destruct H as [[a ->]|(H1 & H2 & H3)].
  - apply Z.mul_le_mono_nonneg_r; [lia|].
    apply Z.div_le_lower_bound; lia.
  - assert (2 ^ (D - n) <= s / 2 ^ n)%Z as L.
    { apply Z.div_le_lower_bound; [exact P|].
      rewrite <- Z.pow_add_r by lia. replace (n + (D - n))%Z with D by lia.
      exact H2. }
    assert (2 ^ D = 2 ^ (D - n) * 2 ^ n)%Z as E.
    { rewrite <- Z.pow_add_r by lia. f_equal. lia. }
    nia.
Qed.

(** Two doubles in canonical form compare as their values do. *)
Lemma canonical_le ma ea mb eb c :
  bounded prec emax ma ea = true -> bounded prec emax mb eb = true ->
  (c <= ea)%Z -> (c <= eb)%Z ->
  (Z.pos ma * 2 ^ (ea - c) <= Z.pos mb * 2 ^ (eb - c))%Z ->
  SFleb (S754_finite false ma ea) (S754_finite false mb eb) = true.
Proof.
  intros Ba Bb Ha Hb V.
  unfold bounded, canonical_mantissa, fexp, emin, prec, emax in Ba, Bb.
  apply andb_prop in Ba, Bb. destruct Ba as [Ca _], Bb as [Cb _].
  apply Z.eqb_eq in Ca, Cb.
  pose proof (digits2_pos_bounds ma) as Da.
  pose proof (digits2_pos_bounds mb) as Db.
  unfold SFleb, SFcompare.
  destruct (Z.compare_spec ea eb) as [E|E|E]; [|reflexivity|].
  - subst eb. rewrite Pos.compare_cont_spec. simpl.
    assert (0 < 2 ^ (ea - c))%Z as P by (apply Z.pow_pos_nonneg; lia).
    assert (Z.pos ma <= Z.pos mb)%Z as L by nia.
    destruct (Pos.compare_spec ma mb); try reflexivity; lia.
  - exfalso.
    assert (Z.pos (digits2_pos ma) = 53)%Z as Ea by lia.
    assert (Z.pos (digits2_pos mb) <= 53)%Z as Eb by lia.
    rewrite Ea in Da.
    assert (Z.pos mb < 2 ^ 53)%Z as Ub.
    { apply Z.lt_le_trans with (1 := proj2 Db).
      apply Z.pow_le_mono_r; lia. }
    assert (2 ^ (ea - c) = 2 ^ (ea - eb - 1) * 2 * 2 ^ (eb - c))%Z as Ep.
    { change 2%Z with (2 ^ 1)%Z at 3. rewrite <- !Z.pow_add_r by lia.
      f_equal. lia. }
    assert (0 < 2 ^ (eb - c))%Z as P1 by (apply Z.pow_pos_nonneg; lia).
    assert (0 < 2 ^ (ea - eb - 1))%Z as P2 by (apply Z.pow_pos_nonneg; lia).
    change (2 ^ (53 - 1))%Z with 4503599627370496%Z in Da.
    change (2 ^ 53)%Z with 9007199254740992%Z in Ub.
    rewrite Ep in V.
    assert (Z.pos mb * 2 ^ (eb - c) < 9007199254740992 * 2 ^ (eb - c))%Z by nia.
    assert (4503599627370496 * (2 ^ (ea - eb - 1) * 2 * 2 ^ (eb - c))
            <= Z.pos ma * (2 ^ (ea - eb - 1) * 2 * 2 ^ (eb - c)))%Z by nia.
    assert (2 ^ (eb - c) <= 2 ^ (ea - eb - 1) * 2 ^ (eb - c))%Z by nia.
    nia.
Qed.

(** Rounding a positive integer [m] at exponent [e] to the format, when it
    needs no shift to the left: the result is not below any number that the
    rounding down of [m] reaches. *)
Lemma binary_round_aux_lower m e X :
  let n := (fexp prec emax (Z.pos (digits2_pos m) + e) - e)%Z in
  (0 <= n)%Z -> (0 < X)%Z -> (X <= Z.pos m / 2 ^ n * 2 ^ n)%Z ->
  binary_round_aux prec emax false (Z.pos m) e loc_Exact = S754_infinity false \/
  exists m2 e2,
    binary_round_aux prec emax false (Z.pos m) e loc_Exact
      = S754_finite false m2 e2 /\
    (e <= e2)%Z /\ (X <= Z.pos m2 * 2 ^ (e2 - e))%Z.
Proof.
  intros n Hn HX HL.
  assert (0 < 2 ^ n)%Z as P by (apply Z.pow_pos_nonneg; lia).
  unfold binary_round_aux, shr_fexp. cbn [Zdigits2]. fold n.
  destruct (shr_value (Z.pos m) loc_Exact e n) as [F E']; [lia|exact Hn|].
  destruct (shr (shr_record_of_loc (Z.pos m) loc_Exact) e n) as [mrs' e'].
  cbn [fst snd] in F, E'. rewrite F. subst e'.
  set (f := (Z.pos m / 2 ^ n)%Z) in *.
  assert (0 < f)%Z as Pf by nia.
  pose proof (round_nearest_even_range f (loc_of_shr_record mrs')) as Rg.
  destruct (round_nearest_even f (loc_of_shr_record mrs')) as [|m1|m1];
    try lia.
  cbn [Zdigits2].
  set (n2 := (fexp prec emax (Z.pos (digits2_pos m1) + (e + n)) - (e + n))%Z).
  pose proof (digits2_pos_bounds m) as Dm.
  pose proof (digits2_pos_bounds m1) as D1.
  assert (f < 2 ^ 53)%Z as Uf.
  { apply Z.div_lt_upper_bound; [exact P|].
    apply Z.lt_le_trans with (1 := proj2 Dm).
    rewrite <- Z.pow_add_r by lia. apply Z.pow_le_mono_r; [lia|].
    unfold n, fexp, emin, prec, emax. lia. }
  destruct (Z_le_gt_dec n2 0) as [N2|N2].
  - assert (shr (shr_record_of_loc (Z.pos m1) loc_Exact) (e + n) n2
            = (shr_record_of_loc (Z.pos m1) loc_Exact, (e + n)%Z)) as ->.
    { unfold shr. destruct n2; try reflexivity; lia. }
    cbn [shr_record_of_loc shr_m].
    destruct (Z.leb (e + n) (emax - prec)); [right|left; reflexivity].
    exists m1, (e + n)%Z. split; [reflexivity|]. split; [lia|].
    replace (e + n - e)%Z with n by lia. nia.
  - destruct (shr_value (Z.pos m1) loc_Exact (e + n) n2) as [F2 E2];
      [lia|lia|].
    destruct (shr (shr_record_of_loc (Z.pos m1) loc_Exact) (e + n) n2)
      as [mrs2 e2].
    cbn [fst snd] in F2, E2. rewrite F2. subst e2.
    assert (f <= Z.pos m1 / 2 ^ n2 * 2 ^ n2)%Z as L2.
    { apply round_down_ge with (D := (Z.pos (digits2_pos m1) - 1)%Z);
        [lia|lia|].
      right.
      assert (53 <= Z.pos (digits2_pos m1) - 1)%Z as G.
      { unfold n2, n, fexp, emin, prec, emax in *. lia. }
      split; [|split; [lia|]].
      - apply Z.lt_le_trans with (1 := Uf). apply Z.pow_le_mono_r; lia.
      - unfold n2, n, fexp, emin, prec, emax in *. lia. }
    assert (0 < 2 ^ n2)%Z as P2 by (apply Z.pow_pos_nonneg; lia).
    destruct (Z.pos m1 / 2 ^ n2)%Z as [|m2|m2] eqn:E2; try lia.
    destruct (Z.leb (e + n + n2) (emax - prec)); [right|left; reflexivity].
    exists m2, (e + n + n2)%Z. split; [reflexivity|]. split; [lia|].
    replace (e + n + n2 - e)%Z with (n2 + n)%Z by lia.
    rewrite Z.pow_add_r by lia. nia.
Qed.

(** The rounded sum [s * 2^ez] is not below a double that the exact sum is
    not below. *)
Lemma binary_round_lower mx ex s ez :
  bounded prec emax mx ex = true -> (ez <= ex)%Z ->
  (Z.pos mx * 2 ^ (ex - ez) <= Z.pos s)%Z ->
  valid_binary (binary_round prec emax false s ez) = true ->
  SFleb (S754_finite false mx ex) (binary_round prec emax false s ez) = true.
Proof.
  intros Bx Hez HX V.
  assert (0 < 2 ^ (ex - ez))%Z as P by (apply Z.pow_pos_nonneg; lia).
  pose proof (digits2_pos_bounds mx) as Dx.
  pose proof (digits2_pos_bounds s) as Ds.
  pose proof Bx as Cx.
  unfold bounded, canonical_mantissa, fexp, emin, prec, emax in Cx.
  apply andb_prop in Cx. destruct Cx as [Cx _]. apply Z.eqb_eq in Cx.
  revert V. unfold binary_round.
  set (e1 := fexp prec emax (Z.pos (digits2_pos s) + ez)).
  destruct (Z_lt_le_dec e1 ez) as [A|A].
  - destruct (shl_align_value s ez e1) as [Vz Ez]; [lia|].
    pose proof (digits2_iter_xO s) as Dz.
    destruct (shl_align s ez e1) as [mz ez'] eqn:Sh. cbn [fst snd] in Vz, Ez.
    subst ez'.
    assert (Z.pos (digits2_pos mz) = Z.pos (digits2_pos s) + (ez - e1))%Z
      as Dg.
    { revert Sh. unfold shl_align.
      destruct (e1 - ez)%Z as [|d|d] eqn:E; try lia.
      intros [= <-]. rewrite Dz. lia. }
    assert (fexp prec emax (Z.pos (digits2_pos mz) + e1) - e1 = 0)%Z as N.
    { rewrite Dg. replace (Z.pos (digits2_pos s) + (ez - e1) + e1)%Z
        with (Z.pos (digits2_pos s) + ez)%Z by lia. fold e1. lia. }
    assert (0 < 2 ^ (ez - e1))%Z as P1 by (apply Z.pow_pos_nonneg; lia).
    destruct (binary_round_aux_lower mz e1 (Z.pos mx * 2 ^ (ex - e1)))
      as [->|(m2 & e2 & -> & H1 & H2)].
    + rewrite N. lia.
    + assert (0 < 2 ^ (ex - e1))%Z by (apply Z.pow_pos_nonneg; lia). lia.
    + rewrite N. change (2 ^ 0)%Z with 1%Z. rewrite Z.div_1_r, Z.mul_1_r, Vz.
      replace (ex - e1)%Z with ((ex - ez) + (ez - e1))%Z by lia.
      rewrite Z.pow_add_r by lia. nia.
    + reflexivity.
    + intros V. apply canonical_le with (c := e1); [exact Bx|exact V|lia|lia|].
      exact H2.
  - rewrite shl_align_keep by exact A.
    set (n := (e1 - ez)%Z).
    destruct (binary_round_aux_lower s ez (Z.pos mx * 2 ^ (ex - ez)))
      as [->|(m2 & e2 & -> & H1 & H2)].
    + fold e1. lia.
    + lia.
    + fold e1. fold n.
      apply round_down_ge with (D := (Z.pos (digits2_pos s) - 1)%Z);
        [lia|exact HX|].
      destruct (Z_le_gt_dec n (ex - ez)) as [B|B].
      * left. exists (Z.pos mx * 2 ^ (ex - ez - n))%Z.
        rewrite <- Z.mul_assoc, <- Z.pow_add_r by lia.
        f_equal. f_equal. lia.
      * right.
        assert (Z.pos (digits2_pos mx) + (ex - ez)
                <= Z.pos (digits2_pos s) - 1)%Z as G.
        { unfold n, e1, fexp, emin, prec, emax in *. lia. }
        split; [|split; [lia|]].
        -- apply Z.lt_le_trans
             with (2 ^ (Z.pos (digits2_pos mx) + (ex - ez)))%Z.
           ++ rewrite Z.pow_add_r by lia. nia.
           ++ apply Z.pow_le_mono_r; lia.
        -- unfold n, e1, fexp, emin, prec, emax in *. lia.
    + reflexivity.
    + intros V. apply canonical_le with (c := ez); [exact Bx|exact V|lia|lia|].
      exact H2.
Qed.

(** Adding a positive double to a positive double does not give less. *)
Lemma add_positive_ge x q mx ex mq eq :
  Prim2SF x = S754_finite false mx ex ->
  Prim2SF q = S754_finite false mq eq ->
  (x <=? x + q) = true.
Proof.
  intros Hx Hq.
  pose proof (Prim2SF_valid x) as Vx. rewrite Hx in Vx.
  pose proof (Prim2SF_valid (x + q)) as V.
  rewrite leb_spec. revert V. rewrite add_spec, Hx, Hq.
  unfold SF64add, SFadd. cbn [cond_Zopp].
  set (ez := Z.min ex eq).
  destruct (shl_align_value mx ex ez) as [X _]; [lia|].
  destruct (shl_align_value mq eq ez) as [Q _]; [lia|].
  cbn [Z.add binary_normalize].
  intros V. apply binary_round_lower; [exact Vx|lia| |exact V].
  rewrite Pos2Z.inj_add, X. lia.
Qed.

(** *** Sign bits *)

Lemma square_sign a : sign_bit (a * a) = false.
Proof.
  unfold sign_bit. rewrite mul_spec. unfold SF64mul.
  destruct (Prim2SF a) as [[]|[]| |s m ex]; simpl; try reflexivity.
  pose proof (binary_round_aux_sign (xorb s s) (Z.pos (m * m)) (ex + ex)
                loc_Exact) as H.
  destruct (binary_round_aux prec emax (xorb s s) (Z.pos (m * m)) (ex + ex)
              loc_Exact) as [s'|s'| |s' m' e']; try reflexivity;
    rewrite H; destruct s; reflexivity.
Qed.

Lemma add_sign a b :
  sign_bit a = false -> sign_bit b = false -> sign_bit (a + b) = false.
Proof.
  unfold sign_bit. rewrite add_spec. unfold SF64add.
  destruct (Prim2SF a) as [[]|[]| |[] ma ea], (Prim2SF b) as [[]|[]| |[] mb eb];
    simpl; try discriminate; try reflexivity.
  intros _ _. unfold binary_round.
  match goal with
  | |- context [let '(_, _) := ?X in _] => destruct X as [mz ez]
  end.
  pose proof (binary_round_aux_sign false (Z.pos mz) ez loc_Exact) as H.
  destruct (binary_round_aux prec emax false (Z.pos mz) ez loc_Exact)
    as [s'|s'| |s' m' e']; try reflexivity; exact H.
Qed.

Lemma sqrt_sign a : sign_bit a = false -> sign_bit (sqrt a) = false.
Proof.
  unfold sign_bit. rewrite sqrt_spec. unfold SF64sqrt.
  destruct (Prim2SF a) as [[]|[]| |[] m ex]; simpl; try discriminate;
    try reflexivity.
  intros _.
  destruct (SFsqrt_core_binary prec emax (Z.pos m) ex) as [[mz ez] lz].
  pose proof (binary_round_aux_sign false mz ez lz) as H.
  destruct (binary_round_aux prec emax false mz ez lz) as [s'|s'| |s' m' e'];
    try reflexivity; exact H.
Qed.

Lemma length_squared_sign v : sign_bit (length_squared v) = false.
Proof.
  unfold length_squared. apply add_sign; [apply add_sign|]; apply square_sign.
Qed.

Lemma length_sign v : sign_bit (length v) = false.
Proof. apply sqrt_sign, length_squared_sign. Qed.

(** A quotient by a divisor without sign bit is negative only when the
    dividend is. *)
Lemma div_not_negative a b :
  (a <? 0) = false -> sign_bit b = false -> (a / b <? 0) = false.
Proof.
  unfold sign_bit. rewrite !negative_spec, div_spec. unfold SF64div.
  destruct (Prim2SF a) as [[]|[]| |[] ma ea], (Prim2SF b) as [[]|[]| |[] mb eb];
    simpl; try discriminate; try reflexivity.
  intros _ _.
  destruct (SFdiv_core_binary prec emax (Z.pos ma) ea (Z.pos mb) eb)
    as [[mz ez] lz].
  pose proof (binary_round_aux_sign false mz ez lz) as H.
  destruct (binary_round_aux prec emax false mz ez lz) as [s'|s'| |s' m' e'];
    try reflexivity; rewrite H; reflexivity.
Qed.

(** Adding what is not negative to what is not negative does not give
    less, unless it gives NaN. *)
Lemma add_not_less x q :
  (x <? 0) = false -> (q <? 0) = false -> is_nan (x + q) = false ->
  (x <=? x + q) = true.
Proof.
  rewrite !negative_spec, is_nan_spec.
  destruct (Prim2SF x) as [sx|sx| |sx mx ex] eqn:Ex,
           (Prim2SF q) as [sq|sq| |sq mq eq] eqn:Eq;
    try (destruct sx; try discriminate);
    try (destruct sq; try discriminate);
    try (intros _ _ _; exact (add_positive_ge x q mx ex mq eq Ex Eq));
    rewrite leb_spec, add_spec, Ex, Eq; simpl;
    try discriminate; try reflexivity; intros _ _ _;
    unfold SFleb, SFcompare;
    rewrite Z.compare_refl, Pos.compare_cont_refl; reflexivity.
Qed.

Lemma mul_opp_opp a : (- a) * (- a) = a * a.
Proof.
  rewrite mul_opp_l, (fmul_comm a (- a)), mul_opp_l. apply opp_involutive.
Qed.

(** X27. A squared length and a length never carry a sign bit: each is
    NaN, zero (never minus zero), positive or plus infinity.  Negating the
    vector changes neither of them, the dot product of a vector with itself
    is its squared length, and the dot product is symmetric. *)
Theorem lengths_carry_no_sign (u v : vec3) :
  sign_bit (length_squared v) = false /\
  sign_bit (length v) = false /\
  length_squared (vneg v) = length_squared v /\
  length (vneg v) = length v /\
  dot v v = length_squared v /\
  dot u v = dot v u.
Proof.
  assert (length_squared (vneg v) = length_squared v) as E.
  { unfold length_squared, vneg. cbn [e0 e1 e2].
    rewrite !mul_opp_opp. reflexivity. }
  split; [apply length_squared_sign|].
  split; [apply length_sign|].
  split; [exact E|].
  split; [unfold length; rewrite E; reflexivity|].
  split; [reflexivity|apply dot_comm].
Qed.

Section Fog.
Context {P : Platform}.

Lemma medium_sample_lower ph d r t_min t_max t1 t2 rec w :
  (d * libm_log (generator (rng_pos w)) <? 0) = false ->
  is_nan t_min = false ->
  let res := medium_sample ph d r t_min t_max t1 t2 rec w in
  fst (fst res) = true ->
  is_nan (t (snd (fst res))) = true \/
  ((t_min <=? t (snd (fst res))) = true /\
   (0 <=? t (snd (fst res))) = true).
Proof.
  intros Hd Nm res. unfold res, medium_sample, random_double.
  set (t1a := if t1 <? t_min then t_min else t1).
  match goal with
  | |- context [if ?c then ((false, rec), w) else _] => destruct c
  end; [discriminate|].
  set (t1b := if t1a <? 0 then 0 else t1a).
  match goal with
  | |- context [if ?c then ((false, rec), _) else _] => destruct c
  end; [discriminate|].
  cbn [fst snd t]. intros _.
  set (q := d * libm_log (generator (rng_pos w)) / length (direction r)).
  destruct (is_nan (t1b + q)) eqn:N; [left; reflexivity|right].
  assert ((q <? 0) = false) as Hq.
  { apply div_not_negative; [exact Hd|apply length_sign]. }
  assert (is_nan t1b = false) as Nb.
  { destruct (is_nan t1b) eqn:E; [|reflexivity].
    rewrite nan_add in N; [discriminate|left; exact E]. }
  assert ((t1b <? 0) = false /\ (0 <=? t1b) = true /\ (t1a <=? t1b) = true)
    as (B0 & B1 & B2).
  { unfold t1b in *. destruct (t1a <? 0) eqn:E.
    - repeat split; try reflexivity. apply flt_fle. exact E.
    - split; [exact E|]. split; [|apply fle_refl; exact Nb].
      apply fle_total; [exact Nb|reflexivity|exact E]. }
  assert ((t_min <=? t1a) = true) as A.
  { destruct (fle_nonnan _ _ B2) as [Na _]. unfold t1a in *.
    destruct (t1 <? t_min) eqn:E; [apply fle_refl; exact Nm|].
    apply fle_total; [exact Na|exact Nm|exact E]. }
  pose proof (add_not_less t1b q B0 Hq N) as L.
  split.
  - apply fle_trans with t1b; [|exact L]. apply fle_trans with t1a; assumption.
  - apply fle_trans with t1b; assumption.
Qed.

(** X28. When the density is such that no sampled distance is negative (it
    is the negated inverse of the density times the logarithm of a drawn
    number), a hit in a constant medium is never before [t_min] and never
    before the ray's origin: its parameter is NaN, or at least [t_min]
    and at least zero. *)
Theorem medium_hit_not_before_t_min (boundary : hittable)
  (phase_function : material) (neg_inv_density : float) (r : ray)
  (t_min t_max : float) (rec : hit_record) (w : world) :
  (forall k, (neg_inv_density * libm_log (generator k) <? 0) = false) ->
  is_nan t_min = false ->
  let res := hit (constant_medium boundary phase_function neg_inv_density)
                 r t_min t_max rec w in
  fst (fst res) = true ->
  is_nan (t (snd (fst res))) = true \/
  ((t_min <=? t (snd (fst res))) = true /\
   (0 <=? t (snd (fst res))) = true).
Proof.
  intros Hd Nm res. unfold res. cbn [hit].
  destruct (hit boundary r neg_infinity infinity hit_record_default w)
    as [[ok1 rec1] w1].
  destruct ok1; cbn [negb]; [|discriminate].
  destruct (hit boundary r (t rec1 + 0x1.a36e2eb1c432dp-14) infinity
              hit_record_default w1) as [[ok2 rec2] w2].
  destruct ok2; cbn [negb]; [|discriminate].
  apply medium_sample_lower; [apply Hd|exact Nm].
Qed.
End Fog.


#[local] Existing Instance example_platform.



(** The five spheres asked twice along the axis. *)
Lemma repeated_query_without_medium_witness :
  medium_free (hittable_list five_spheres) = true /\
  snd (hit (hittable_list five_spheres) ray_z 0 infinity
            hit_record_default start_world) = start_world /\
  hit (hittable_list five_spheres) ray_z 0 infinity
       hit_record_default
       (snd (hit (hittable_list five_spheres) ray_z 0
                  infinity hit_record_default start_world)) =
  hit (hittable_list five_spheres) ray_z 0 infinity
       hit_record_default start_world.
Proof.
  split; [reflexivity|].
  destruct (proj2 (repeated_query_without_medium
                     (hittable_list five_spheres) ray_z 0 infinity
                     hit_record_default start_world eq_refl)
                  (hit (hittable_list five_spheres) ray_z 0 infinity
                       hit_record_default start_world)
                  (hit (hittable_list five_spheres) ray_z 0 infinity
                       hit_record_default
                       (snd (hit (hittable_list five_spheres) ray_z 0
                                 infinity hit_record_default start_world)))
                  (hit_is_a_run _ _ _ _ _ _) (hit_is_a_run _ _ _ _ _ _))
    as (A & _ & _ & _ & E).
  split; [exact A|exact (E eq_refl)].
Defined.

(** C8 as the specification states it fails twice.  On [fog] the first
    query draws 0.5 and is a hit, the same query asked again draws 0.125
    and is a miss.  On a list that holds the moving sphere [idle] both
    queries are hits, but [moving_sphere::hit] does not write [u]: the
    record carries what the uninitialised [temp_rec] of the list held,
    here 0 the first time and 1 the second. *)
Lemma repeated_query_differs :
  (let first := hit fog ray_z 0 infinity hit_record_default start_world in
   let second := hit fog ray_z 0 infinity hit_record_default (snd first) in
   fst (fst first) = true /\
   t (snd (fst first)) = 0x1.2c5c85fdf473ep+2 /\
   rng_pos (snd first) = 1%nat /\
   fst (fst second) = false) /\
  (exists first second,
      hit_runs (hittable_list [idle]) ray_z 0 infinity hit_record_default
               start_world first /\
      hit_runs (hittable_list [idle]) ray_z 0 infinity hit_record_default
               (snd first) second /\
      fst (fst first) = true /\ fst (fst second) = true /\
      u (snd (fst first)) = 0 /\ u (snd (fst second)) = 1).
Proof.
  split; [repeat split; reflexivity|].
  exists (hit (hittable_list [idle]) ray_z 0 infinity hit_record_default
              start_world).
  eexists. split; [apply hit_is_a_run|]. split.
  - cbn [hit_runs]. exists (mkHit vec3_default vec3_default None 0 1 0 false).
    split; [repeat split|]. cbn [scan_runs hit_runs].
    eexists _, _, _. split; [reflexivity|]. vm_compute. reflexivity.
  - repeat split; reflexivity.
Qed.

(** C4 as the specification states it fails twice.  In [fog] a hit has
    [front_face] true although the dot product of the ray direction and
    the stored normal is not negative.  From [2^27] units away the ray of
    scenario 1 meets the unit sphere at [t = 2^27]: the [-1] of
    [c = |O - C|^2 - r^2] is lost in rounding, the point of the hit is the
    centre, and the normal is the zero vector, of length 0. *)
Lemma front_face_and_unit_length_fail :
  let in_fog := hit fog ray_z 0 infinity
                     hit_record_default start_world in
  let far := hit unit_sphere far_ray 0 infinity
                  hit_record_default start_world in
  (fst (fst in_fog) = true /\
   front_face (snd (fst in_fog)) = true /\
   (dot (direction ray_z) (normal (snd (fst in_fog))) <? 0) = false) /\
  (fst (fst far) = true /\
   t (snd (fst far)) = 134217728 /\
   p (snd (fst far)) = mkVec3 0 0 0 /\
   normal (snd (fst far)) = mkVec3 (-0) (-0) (-0) /\
   length (normal (snd (fst far))) = 0).
Proof. repeat split; reflexivity. Qed.

(** The five spheres met along the axis: the record is that of one of
    them. *)
Lemma face_normal_of_hits_witness :
  fst (fst (hit (hittable_list five_spheres) ray_z 0 infinity
                hit_record_default start_world)) = true /\
  exists m,
    In m (sources (hittable_list five_spheres)) /\
    record_rule ray_z m
      (snd (fst (hit (hittable_list five_spheres) ray_z 0 infinity
                     hit_record_default start_world))).
Proof.
  split; [reflexivity|].
  apply (face_normal_of_hits (hittable_list five_spheres) ray_z 0 infinity
           hit_record_default start_world).
  reflexivity.
Defined.

(** Scenario 1 once more: the roots are 4 and 6. *)
Lemma sphere_hit_smaller_root_first_witness :
  numeric (quadratic (mkVec3 0 0 0) 1 ray_z) = true /\
  quadratic (mkVec3 0 0 0) 1 ray_z = (1, 4, 6) /\
  sphere_hit (mkVec3 0 0 0) 1 None ray_z 0 infinity hit_record_default =
  match sphere_hit_spec (mkVec3 0 0 0) 1 None ray_z 0 infinity with
  | Some rec' => (true, rec')
  | None => (false, hit_record_default)
  end.
Proof.
  split; [reflexivity|]. split; [reflexivity|].
  apply (proj1 sphere_hit_smaller_root_first); reflexivity.
Defined.

(** C7 as the specification states it fails on the ray that goes
    nowhere: [a = 0] makes both roots [0 / 0]; NaN is neither below
    [tMin] nor above [tMax], so [sphere::hit] accepts it and reports a
    hit with [t] NaN, although the root does not lie in [[0, infinity]]
    and the algorithm of the spec reports no hit. *)
Lemma sphere_hit_accepts_a_nan_root :
  fst (sphere_hit (mkVec3 0 0 0) 1 None still_ray 0 infinity
                  hit_record_default) = true /\
  is_nan (t (snd (sphere_hit (mkVec3 0 0 0) 1 None still_ray 0 infinity
                             hit_record_default))) = true /\
  quadratic (mkVec3 0 0 0) 1 still_ray = (0, nan, nan) /\
  lies_in 0 infinity nan = false /\
  sphere_hit_spec (mkVec3 0 0 0) 1 None still_ray 0 infinity = None.
Proof. repeat split; reflexivity. Qed.

(** The five spheres along the axis: the hit lies in [0, infinity]. *)
Lemma hit_parameter_in_interval_witness :
  numeric_roots ray_z (hittable_list five_spheres) = true /\
  (0 <=? t (snd (fst (hit (hittable_list five_spheres) ray_z 0 infinity
                          hit_record_default start_world)))) = true /\
  (t (snd (fst (hit (hittable_list five_spheres) ray_z 0 infinity
                    hit_record_default start_world))) <=? infinity) = true.
Proof.
  split; [reflexivity|].
  apply (hit_parameter_in_interval (hittable_list five_spheres) ray_z 0
           infinity hit_record_default start_world); reflexivity.
Defined.

(** C3 as the specification states it fails twice.  The ray that goes
    nowhere has [a = 0], so the root is [0 / 0], neither below [tMin] nor
    above [tMax]: the unit sphere reports a hit whose parameter is NaN.
    In [thick_fog] the sampled distance equals the clipped span, and the
    parameter, rounded, ends one unit in the last place above [tMax]. *)
Lemma parameter_outside_interval :
  let still := hit unit_sphere still_ray 0 infinity
                   hit_record_default start_world in
  let in_fog := hit thick_fog inner_ray fog_t_min fog_t_max
                    hit_record_default start_world in
  (fst (fst still) = true /\
   is_nan (t (snd (fst still))) = true /\
   (0 <=? t (snd (fst still))) = false) /\
  (fst (fst in_fog) = true /\
   fog_t_max = 0x1.0000000000003p+0 /\
   t (snd (fst in_fog)) = 0x1.0000000000004p+0 /\
   (t (snd (fst in_fog)) <=? fog_t_max) = false).
Proof. repeat split; reflexivity. Qed.

(** The two tangent spheres: either order of insertion gives the same
    parameter. *)
Lemma list_hit_is_nearest_witness :
  forallb (ordered_roots grazing_ray) [tangent_a; tangent_b] = true /\
  (t (snd (fst (hit (hittable_list [tangent_b; tangent_a]) grazing_ray 0
                    infinity hit_record_default start_world))) =?
   t (snd (fst (hit (hittable_list [tangent_a; tangent_b]) grazing_ray 0
                    infinity hit_record_default start_world)))) = true.
Proof.
  split; [reflexivity|].
  apply (list_hit_is_nearest [tangent_a; tangent_b] grazing_ray 0 infinity
           hit_record_default start_world);
    [reflexivity|reflexivity|reflexivity|reflexivity|].
  apply perm_swap.
Defined.

(** C2 as the specification states it fails twice.  The two tangent
    spheres are both met at [t = 5]; the scan keeps the member it tested
    last, and the record (normal, material, [u]) changes with the order
    of insertion.  With two fogs even the parameter changes: tested
    first, [fog] draws 0.5 and is a hit that hides [far_fog]; tested
    second, it draws 0.125 and is a miss, and the hit is in [far_fog]. *)
Lemma record_depends_on_insertion_order :
  let a_then_b := hit (hittable_list [tangent_a; tangent_b]) grazing_ray 0
                      infinity hit_record_default start_world in
  let b_then_a := hit (hittable_list [tangent_b; tangent_a]) grazing_ray 0
                      infinity hit_record_default start_world in
  let near_then_far := hit (hittable_list [fog; far_fog]) ray_z 0 infinity
                           hit_record_default start_world in
  let far_then_near := hit (hittable_list [far_fog; fog]) ray_z 0 infinity
                           hit_record_default start_world in
  (fst (fst a_then_b) = true /\ fst (fst b_then_a) = true /\
   t (snd (fst a_then_b)) = 5 /\ t (snd (fst b_then_a)) = 5 /\
   mat_ptr (snd (fst a_then_b)) = Some (scene_material 2) /\
   mat_ptr (snd (fst b_then_a)) = Some (scene_material 1) /\
   normal (snd (fst a_then_b)) = mkVec3 (-0) (-0) (-1) /\
   normal (snd (fst b_then_a)) = mkVec3 (-0) (-0) 1 /\
   u (snd (fst a_then_b)) = 0.25 /\
   u (snd (fst b_then_a)) = 0.75) /\
  (fst (fst near_then_far) = true /\ fst (fst far_then_near) = true /\
   t (snd (fst near_then_far)) = 0x1.2c5c85fdf473ep+2 /\
   t (snd (fst far_then_near)) = 0x1.ec5c85fdf473ep+2).
Proof. repeat split; vm_compute; reflexivity. Qed.

(** The tree over the five spheres and their list along the axis: no
    box test rejects wrongly, both hit, and at the same parameter. *)
Lemma bvh_hit_against_list_hit_witness :
  five_spheres <> [] /\
  forallb (ordered_roots ray_z) five_spheres = true /\
  exists node w1,
    new_bvh_node 5 five_spheres 0 1 start_world = Built node w1 /\
    boxes_sound ray_z 0 infinity node = true /\
    fst (fst (hit node ray_z 0 infinity hit_record_default w1)) = true /\
    fst (fst (hit (hittable_list five_spheres) ray_z 0 infinity
                  hit_record_default w1)) = true /\
    (t (snd (fst (hit (hittable_list five_spheres) ray_z 0 infinity
                      hit_record_default w1))) <=?
     t (snd (fst (hit node ray_z 0 infinity hit_record_default w1)))) = true /\
    (t (snd (fst (hit node ray_z 0 infinity hit_record_default w1))) =?
     t (snd (fst (hit (hittable_list five_spheres) ray_z 0 infinity
                      hit_record_default w1)))) = true.
Proof.
  split; [discriminate|]. split; [vm_compute; reflexivity|].
  destruct (bvh_hit_against_list_hit five_spheres ray_z 0 infinity 0 1
              start_world) as [_ H];
    [discriminate|vm_compute; reflexivity|reflexivity|reflexivity|].
  eexists _, _. split; [vm_compute; reflexivity|].
  match goal with
  | |- boxes_sound _ _ _ ?node = true /\
       fst (fst (hit ?node _ _ _ _ ?w1)) = _ /\ _ =>
      assert (new_bvh_node 5 five_spheres 0 1 start_world = Built node w1)
        as Hbuilt by (vm_compute; reflexivity);
      assert (boxes_sound ray_z 0 infinity node = true)
        as Hsound by (vm_compute; reflexivity);
      assert (fst (fst (hit node ray_z 0 infinity hit_record_default w1))
              = true) as Hok by (vm_compute; reflexivity);
      destruct (H 5%nat node w1 hit_record_default w1 hit_record_default w1
                  Hbuilt) as [A [[_ D]|D]];
      [|rewrite Hsound in D; discriminate];
      destruct (A Hok) as (B & C & _)
  end.
  split; [exact Hsound|]. split; [exact Hok|]. split; [exact B|].
  split; [exact C|exact (D Hok)].
Defined.

(** C1 as the specification states it fails four times.  On the unit
    sphere, the ray of scenario 1 and the interval [[0, 4]] the sphere is
    met at [t = 4], the end of the interval, and the list reports it; the
    box of the node is entered at [t = 4] too, so its slab leaves
    [tMax <= tMin] and the tree reports a miss.  The ray that skims the
    sphere at [y = 1 + 2^-52] passes above its box, which the tree
    rejects over [[0, infinity]], but in [c = |O - C|^2 - r^2] the
    [2^-51] is lost in rounding, the discriminant is 0 and the list
    reports a hit at [t = 5].  Over [fog] alone the tree holds the medium
    twice and asks it twice: the draw 0.125 is a miss for the list and
    for the left child, the draw 0.75 a hit for the right child.  Over
    the empty list the constructor never returns. *)
Lemma tree_and_list_disagree :
  (new_bvh_node 1 [unit_sphere] 0 1 start_world =
   Built (bvh_node unit_sphere unit_sphere unit_box) (mkWorld 1 []) /\
   aabb_hit unit_box ray_z 0 4 = false /\
   fst (fst (hit (bvh_node unit_sphere unit_sphere unit_box) ray_z 0 4
                 hit_record_default (mkWorld 1 []))) = false /\
   fst (fst (hit (hittable_list [unit_sphere]) ray_z 0 4
                 hit_record_default (mkWorld 1 []))) = true /\
   t (snd (fst (hit (hittable_list [unit_sphere]) ray_z 0 4
                    hit_record_default (mkWorld 1 [])))) = 4) /\
  (forallb (ordered_roots skimming_ray) [unit_sphere] = true /\
   aabb_hit unit_box skimming_ray 0 infinity = false /\
   fst (fst (hit (bvh_node unit_sphere unit_sphere unit_box) skimming_ray 0
                 infinity hit_record_default (mkWorld 1 []))) = false /\
   fst (fst (hit (hittable_list [unit_sphere]) skimming_ray 0 infinity
                 hit_record_default (mkWorld 1 []))) = true /\
   t (snd (fst (hit (hittable_list [unit_sphere]) skimming_ray 0 infinity
                    hit_record_default (mkWorld 1 [])))) = 5) /\
  (new_bvh_node 1 [fog] 0 1 start_world =
   Built (bvh_node fog fog unit_box) (mkWorld 1 []) /\
   fst (fst (hit (bvh_node fog fog unit_box) ray_z 0 infinity
                 hit_record_default (mkWorld 1 []))) = true /\
   fst (fst (hit (hittable_list [fog]) ray_z 0 infinity
                 hit_record_default (mkWorld 1 []))) = false) /\
  new_bvh_node 64 [] 0 1 start_world = OutOfFuel.
Proof. repeat split; vm_compute; reflexivity. Qed.

(** ** More worked examples *)

(** 2 clamped to [[0, 1]]. *)
Lemma clamp_within_witness :
  (0 <=? 1) = true /\
  (0 <=? clamp 2 0 1) = true /\ (clamp 2 0 1 <=? 1) = true.
Proof.
  split; [reflexivity|].
  apply (proj1 (clamp_within 2 0 1 eq_refl)). reflexivity.
Defined.

(** The ray that passes the unit box by, asked from NaN on. *)
Lemma aabb_hit_nan_interval_witness :
  is_nan nan = true /\ aabb_hit unit_box passing_ray nan 10 = true.
Proof.
  split; [reflexivity|].
  apply (aabb_hit_nan_interval unit_box passing_ray nan 10).
  left. reflexivity.
Defined.

(** The ray of the first scenario enters the unit box at 4: over [[4, 4]]
    the box is missed. *)
Lemma aabb_hit_empty_interval_witness :
  (4 <=? 4) = true /\ aabb_hit unit_box ray_z 4 4 = false.
Proof.
  split; [reflexivity|].
  apply (aabb_hit_empty_interval unit_box ray_z 4 4). reflexivity.
Defined.

(** From [[0, 10]] to [[-1, 20]]. *)
Lemma aabb_hit_wider_interval_witness :
  aabb_hit unit_box ray_z 0 10 = true /\
  aabb_hit unit_box ray_z (-1) 20 = true.
Proof.
  split; [reflexivity|].
  apply (aabb_hit_wider_interval unit_box ray_z 0 10 (-1) 20);
    reflexivity.
Defined.

(** Three of the five spheres along the x axis. *)
Lemma box_compare_orders_witness :
  box_compare (ball (-3) 1) (ball 0 2) 0 start_world = (true, start_world) /\
  fst (box_compare (ball 0 2) (ball (-3) 1) 0 start_world) = false.
Proof.
  destruct (box_compare_orders 0 (ball (-3) 1) (ball 0 2) (ball 6 4)
              start_world eq_refl eq_refl eq_refl) as (E & _ & A & _).
  split; [exact E|]. apply A. reflexivity.
Defined.


Lemma bvh_boxes_enclose_witness :
  five_spheres <> [] /\
  exists node w',
    new_bvh_node 5 five_spheres 0 1 start_world = Built node w' /\
    enclosed 0 1 node /\
    forall o bx, In o five_spheres -> box_of o 0 1 = Some bx ->
                 exists box, box_of node 0 1 = Some box /\ contains box bx.
Proof.
  split; [discriminate|].
  apply (bvh_boxes_enclose five_spheres 0 1 start_world); [discriminate|].
  intros o [<-|[<-|[<-|[<-|[<-|[]]]]]];
    (split; [reflexivity|exact I]).
Defined.


(** The sphere at 6 added to the four others: it is not the nearest. *)
Lemma hittable_list_add_hit_witness :
  forallb medium_free (tl five_spheres) = true /\
  fst (fst (hit (hittable_list (hittable_list_add (tl five_spheres)
                                                  (ball 6 4)))
                ray_z 0 infinity hit_record_default start_world)) = true.
Proof.
  split; [reflexivity|].
  destruct (hittable_list_add_hit (tl five_spheres) (ball 6 4) ray_z 0
              infinity hit_record_default start_world eq_refl eq_refl)
    as [E _].
  rewrite E. reflexivity.
Defined.

(** Three of the five spheres held in a list of their own. *)
Lemma nested_list_answers_as_flat_witness :
  forallb medium_free ([ball 6 4] ++ inner_three ++ [ball 3 3]) = true /\
  fst (fst (hit (hittable_list
                   ([ball 6 4] ++ hittable_list inner_three :: [ball 3 3]))
                ray_z 0 infinity hit_record_default start_world)) =
  fst (fst (hit (hittable_list ([ball 6 4] ++ inner_three ++ [ball 3 3]))
                ray_z 0 infinity hit_record_default start_world)).
Proof.
  split; [reflexivity|].
  apply (nested_list_answers_as_flat [ball 6 4] inner_three [ball 3 3]
           ray_z 0 infinity hit_record_default hit_record_default
           start_world start_world).
  reflexivity.
Defined.

Lemma nested_list_box_as_flat_witness :
  inner_three <> [] /\
  exists box,
    bounding_box (hittable_list
                    ([ball 6 4] ++ hittable_list inner_three :: [ball 3 3]))
                 0 1 aabb_default = (true, box) /\
    bounding_box (hittable_list ([ball 6 4] ++ inner_three ++ [ball 3 3]))
                 0 1 aabb_default = (true, box).
Proof.
  split; [discriminate|].
  apply (nested_list_box_as_flat [ball 6 4] inner_three [ball 3 3] 0 1
           aabb_default aabb_default); [discriminate|reflexivity].
Defined.

(** The sphere whose radius is NaN, and the ray of the first scenario. *)
Lemma sphere_hit_when_not_finite_witness :
  is_nan nan = true /\
  fst (sphere_hit (mkVec3 0 0 0) nan None ray_z 0 infinity
                  hit_record_default) = true /\
  is_nan (t (snd (sphere_hit (mkVec3 0 0 0) nan None ray_z 0 infinity
                             hit_record_default))) = true.
Proof.
  split; [reflexivity|].
  apply (sphere_hit_when_not_finite (mkVec3 0 0 0) nan None ray_z 0
           infinity hit_record_default).
  right. right. reflexivity.
Defined.

(** The sphere that runs from the origin to [(10, 0, 0)] over the times
    0 to 1. *)
Lemma moving_sphere_starts_at_center0_witness :
  is_finite 0 = true /\ (1 - 0 =? 0) = false /\
  (e0 (moving_center (mkVec3 0 0 0) (mkVec3 10 0 0) 0 1 0) =? 0) = true.
Proof.
  split; [reflexivity|]. split; [reflexivity|].
  apply (moving_sphere_starts_at_center0 (mkVec3 0 0 0) (mkVec3 10 0 0) 0 1);
    reflexivity.
Defined.

(** [2^-600] squared underflows to zero. *)
Lemma unit_vector_of_zero_length_witness :
  (length tiny =? 0) = true /\
  is_finite (e0 (unit_vector tiny)) = false /\
  is_finite (e1 (unit_vector tiny)) = false /\
  is_finite (e2 (unit_vector tiny)) = false.
Proof.
  split; [reflexivity|].
  apply (unit_vector_of_zero_length tiny). reflexivity.
Defined.

(** The first candidate of the worked generator is [(0, -0.75, 0.5)], on
    the far side of the normal [(0, 1, 0)]. *)
Lemma random_in_hemisphere_side_witness :
  random_in_unit_sphere 1 start_world =
  Built (mkVec3 0 (-0.75) 0.5) (mkWorld 3 []) /\
  exists v,
    random_in_hemisphere 1 (mkVec3 0 1 0) start_world =
    Built v (mkWorld 3 []) /\
    (v = mkVec3 0 (-0.75) 0.5 \/ v = vneg (mkVec3 0 (-0.75) 0.5)) /\
    (dot v (mkVec3 0 1 0) <? 0) = false.
Proof.
  split; [reflexivity|].
  apply (random_in_hemisphere_side 1 (mkVec3 0 1 0) start_world).
  reflexivity.
Defined.

(** A camera at the origin that looks at the origin. *)
Lemma camera_looking_at_itself_witness :
  exists r w2,
    get_ray 1
      (new_camera (T := example_trigonometry) (mkVec3 0 0 0) (mkVec3 0 0 0)
                  (mkVec3 0 1 0) 90 1 0 1 0 0)
      0.5 0.5 start_world = Built r w2 /\
    direction r = mkVec3 nan nan nan.
Proof.
  destruct (camera_looking_at_itself (T := example_trigonometry)
              (mkVec3 0 0 0) (mkVec3 0 1 0) 90 1 0 1 0 0)
    as (_ & _ & _ & _ & _ & _ & H).
  apply (H 1%nat 0.5 0.5 start_world (mkVec3 0 (-0.75) 0)
           (mkWorld 2 [])).
  reflexivity.
Defined.


(** A camera at [(0, 0, 5)] that looks at the origin, its shutter open
    and closed at time 0. *)
Lemma get_ray_still_shutter_witness :
  exists r w2,
    get_ray 1
      (new_camera (T := example_trigonometry) (mkVec3 0 0 5) (mkVec3 0 0 0)
                  (mkVec3 0 1 0) 90 1 0 1 0 0)
      0.5 0.5 start_world = Built r w2 /\
    (time r =? 0) = true.
Proof.
  apply (get_ray_still_shutter
           (new_camera (T := example_trigonometry) (mkVec3 0 0 5)
                       (mkVec3 0 0 0) (mkVec3 0 1 0) 90 1 0 1 0 0)
           1 0.5 0.5 start_world (mkVec3 0 (-0.75) 0) (mkWorld 2 []));
    try reflexivity.
  intros [|[|[|n]]]; reflexivity.
Defined.

(** The five spheres along the axis: the point recorded is the point of
    the ray at the parameter recorded. *)
Lemma hit_point_on_ray_witness :
  fst (fst (hit (hittable_list five_spheres) ray_z 0 infinity
                hit_record_default start_world)) = true /\
  p (snd (fst (hit (hittable_list five_spheres) ray_z 0 infinity
                   hit_record_default start_world))) =
  at_ ray_z (t (snd (fst (hit (hittable_list five_spheres) ray_z 0 infinity
                              hit_record_default start_world)))).
Proof.
  split; [reflexivity|].
  apply (hit_point_on_ray (hittable_list five_spheres) ray_z 0 infinity
           hit_record_default start_world).
  reflexivity.
Defined.

(** The fog of the unit sphere: the first query draws one number. *)
Lemma medium_draws_at_most_once_witness :
  medium_free unit_sphere = true /\
  rng_pos (snd (hit fog ray_z 0 infinity hit_record_default start_world)) =
  1%nat.
Proof.
  split; [reflexivity|].
  destruct (medium_draws_at_most_once unit_sphere (isotropic white)
              (- (1) / 1) ray_z 0 infinity hit_record_default start_world
              eq_refl) as (_ & _ & H & _).
  apply H. reflexivity.
Defined.

(** The five spheres asked up to NaN and up to infinity. *)
Lemma nan_end_is_no_end_witness :
  bvh_free (hittable_list five_spheres) = true /\
  hit (hittable_list five_spheres) ray_z 0 nan hit_record_default
      start_world =
  hit (hittable_list five_spheres) ray_z 0 infinity hit_record_default
      start_world.
Proof.
  split; [reflexivity|].
  apply (nan_end_is_no_end (hittable_list five_spheres) ray_z 0 0
           hit_record_default start_world).
  reflexivity.
Defined.

(** A hit in [thick_fog] from inside, after [fog_t_min]. *)
Lemma medium_hit_not_before_t_min_witness :
  let res := hit thick_fog inner_ray fog_t_min fog_t_max hit_record_default
                 start_world in
  fst (fst res) = true /\
  (is_nan (t (snd (fst res))) = true \/
   ((fog_t_min <=? t (snd (fst res))) = true /\
    (0 <=? t (snd (fst res))) = true)).
Proof.
  split; [reflexivity|].
  apply (medium_hit_not_before_t_min (sphere (mkVec3 0 0 0) 2 None)
           (isotropic white) (-1 / 0x1.62e42fefa39ecp-1)
           inner_ray fog_t_min fog_t_max hit_record_default start_world).
  - intros [|[|[|k]]]; reflexivity.
  - reflexivity.
  - reflexivity.
Defined.

(** A list that holds the moving sphere [idle], its [temp_rec] holding
    [u = 1] where the platform has 0: the hit carries that [u], and is
    otherwise the hit of [hit]. *)
Lemma uninitialised_memory_shows_in_uv_only_witness :
  let res :=
    ((true, mkHit (mkVec3 0 0 (-1)) (mkVec3 0 0 (-1)) None 4 1 0 true),
     start_world) in
  hit_runs (hittable_list [idle]) ray_z 0 infinity hit_record_default
           start_world res /\
  u (snd (fst (hit (hittable_list [idle]) ray_z 0 infinity hit_record_default
                   start_world))) = 0 /\
  same_but_uv (snd (fst res))
    (snd (fst (hit (hittable_list [idle]) ray_z 0 infinity
                   hit_record_default start_world))).
Proof.
  assert (hit_runs (hittable_list [idle]) ray_z 0 infinity hit_record_default
            start_world
            ((true,
              mkHit (mkVec3 0 0 (-1)) (mkVec3 0 0 (-1)) None 4 1 0 true),
             start_world)) as R.
  { cbn [hit_runs]. exists (mkHit vec3_default vec3_default None 0 1 0 false).
    split; [repeat split|]. cbn [scan_runs hit_runs].
    eexists _, _, _. split; [reflexivity|]. vm_compute. reflexivity. }
  split; [exact R|]. split; [reflexivity|].
  apply (uninitialised_memory_shows_in_uv_only _ _ _ _ _ _ _ R).
Defined.
